(** * Psychometric exam parser: answer key, normaliser, segmenter, merger

    A shallow embedding of [scripts/improved-parser.cjs] (and of the parts of
    [scripts/official-parser.cjs] that the specification refers to), with the
    properties of the natural-language specification stated and settled
    against it, followed by further properties of the same functions, of the
    answer key decoder of [scripts/official-parser.cjs] and of the section
    boundaries and the normalizer of the two older parsers.

    JavaScript strings are sequences of UTF-16 code units; they are modelled
    as lists of code units ([Z]), so that [length], [indexOf] and [substring]
    count exactly what the source counts.  JavaScript numbers that hold
    indices, question numbers and answers are modelled as [Z], with [-1] as
    the "not found" result of [indexOf]. *)

From Stdlib Require Import ZArith List Ascii String Lia Bool Decimal DecimalString
  DecimalPos DecimalZ.
From stdpp Require Import gmap strings list fin_maps sorting.

Local Open Scope Z_scope.

(** ** JavaScript strings *)

Module JS.

(** A string is a list of UTF-16 code units. *)
Abbreviation jsstring := (list Z).

(** [s.length], for strings and arrays. *)
Definition len {A : Type} (s : list A) : Z := Z.of_nat (length s).

(** String literals of the source are written as Rocq string literals; the
    file is UTF-8, [utf16] decodes the bytes of the literal into the code
    units that the JavaScript literal denotes. *)
Definition byteZ (a : ascii) : Z := Z.of_N (N_of_ascii a).

Definition units_of_codepoint (cp : Z) : jsstring :=
  if cp <? 65536 then [cp]
  else [55296 + Z.shiftr (cp - 65536) 10; 56320 + Z.land (cp - 65536) 1023].

Fixpoint utf16 (s : string) : jsstring :=
  match s with
  | EmptyString => []
  | String a rest =>
      let b := byteZ a in
      if b <? 128 then b :: utf16 rest
      else if b <? 224 then
        match rest with
        | String a1 rest1 =>
            (Z.shiftl (Z.land b 31) 6 + Z.land (byteZ a1) 63) :: utf16 rest1
        | EmptyString => [65533]
        end
      else if b <? 240 then
        match rest with
        | String a1 (String a2 rest2) =>
            (Z.shiftl (Z.land b 15) 12 + Z.shiftl (Z.land (byteZ a1) 63) 6
             + Z.land (byteZ a2) 63) :: utf16 rest2
        | _ => [65533]
        end
      else
        match rest with
        | String a1 (String a2 (String a3 rest3)) =>
            units_of_codepoint
              (Z.shiftl (Z.land b 7) 18 + Z.shiftl (Z.land (byteZ a1) 63) 12
               + Z.shiftl (Z.land (byteZ a2) 63) 6 + Z.land (byteZ a3) 63)
              ++ utf16 rest3
        | _ => [65533]
        end
  end.

(** Character classes of the regular expressions and of [trim]. *)

(** [\d] *)
Definition isDigit (c : Z) : bool := (48 <=? c) && (c <=? 57).

(** [\s], which is also the set that [String.prototype.trim] strips:
    WhiteSpace and LineTerminator of ECMAScript. *)
Definition isWs (c : Z) : bool :=
  (c =? 9) || (c =? 10) || (c =? 11) || (c =? 12) || (c =? 13) || (c =? 32)
  || (c =? 160) || (c =? 5760) || ((8192 <=? c) && (c <=? 8202))
  || (c =? 8232) || (c =? 8233) || (c =? 8239) || (c =? 8287)
  || (c =? 12288) || (c =? 65279).

(** [s.startsWith(p)] *)
Fixpoint startsWith (s p : jsstring) {struct p} : bool :=
  match p, s with
  | [], _ => true
  | _ :: _, [] => false
  | a :: p', b :: s' => (a =? b) && startsWith s' p'
  end.

(** First index [>= pos] at which [p] occurs in [s], where [s] is the suffix
    of the searched string that starts at index [pos]; [-1] when there is
    none. *)
Fixpoint findFrom (p s : jsstring) (pos : Z) : Z :=
  if startsWith s p then pos
  else match s with
       | [] => -1
       | _ :: s' => findFrom p s' (pos + 1)
       end.

Definition clamp (i : Z) (s : jsstring) : Z := Z.max 0 (Z.min i (len s)).

(** [s.indexOf(p, from)] *)
Definition indexOf (s p : jsstring) (from : Z) : Z :=
  let k := clamp from s in
  findFrom p (drop (Z.to_nat k) s) k.

(** [s.includes(p)] *)
Definition includes (s p : jsstring) : bool := negb (indexOf s p 0 =? -1).

(** [s.substring(a, b)]: both ends clamped to the string, swapped when out
    of order. *)
Definition substring (s : jsstring) (a b : Z) : jsstring :=
  let a' := clamp a s in
  let b' := clamp b s in
  let lo := Z.min a' b' in
  let hi := Z.max a' b' in
  take (Z.to_nat (hi - lo)) (drop (Z.to_nat lo) s).

(** [s.substring(a)] *)
Definition substringFrom (s : jsstring) (a : Z) : jsstring :=
  drop (Z.to_nat (clamp a s)) s.

(** [s.split(sep)] for a one-unit separator. *)
Fixpoint split (sep : Z) (s : jsstring) : list jsstring :=
  match s with
  | [] => [[]]
  | c :: s' =>
      if c =? sep then [] :: split sep s'
      else match split sep s' with
           | l :: ls => (c :: l) :: ls
           | [] => [[c]]
           end
  end.

Fixpoint trimStart (s : jsstring) : jsstring :=
  match s with
  | [] => []
  | c :: s' => if isWs c then trimStart s' else s
  end.

Definition trimEnd (s : jsstring) : jsstring := rev (trimStart (rev s)).

(** [s.trim()] *)
Definition trim (s : jsstring) : jsstring := trimEnd (trimStart s).

(** [String(n)] for an integer [n]. *)
Definition digitChar (d : Z) : Z := 48 + d.

Fixpoint uintChars (u : Decimal.uint) : jsstring :=
  match u with
  | Nil => []
  | D0 u' => 48 :: uintChars u'
  | D1 u' => 49 :: uintChars u'
  | D2 u' => 50 :: uintChars u'
  | D3 u' => 51 :: uintChars u'
  | D4 u' => 52 :: uintChars u'
  | D5 u' => 53 :: uintChars u'
  | D6 u' => 54 :: uintChars u'
  | D7 u' => 55 :: uintChars u'
  | D8 u' => 56 :: uintChars u'
  | D9 u' => 57 :: uintChars u'
  end.

Definition toString (n : Z) : jsstring :=
  match Z.to_int n with
  | Pos u => uintChars u
  | Neg u => 45 :: uintChars u
  end.

(** [parseInt(c, 10)] for a one-unit string [c]; [None] is NaN. *)
Definition parseDigit (c : Z) : option Z :=
  if isDigit c then Some (c - 48) else None.

(** [/^[\d]+$/] (no flags): the whole string is a non-empty run of ASCII
    digits. *)
Definition allDigits (s : jsstring) : bool :=
  negb (0 =? len s) && forallb isDigit s.

End JS.
Import JS.

(** ** Literals of the source *)

Definition NL : Z := 10.
Definition SPACE : Z := 32.

(** ['מפתח תשובות נכונות'] *)
Definition ANSWER_KEY_MARKER : jsstring := Eval vm_compute in utf16 "מפתח תשובות נכונות".
(** ['חישוב אומדן'] *)
Definition SCORING_MARKER : jsstring := Eval vm_compute in utf16 "חישוב אומדן".
(** ['123456789'] *)
Definition SENTINEL_PREFIX : jsstring := Eval vm_compute in utf16 "123456789".

Definition VERBAL_1 : jsstring := Eval vm_compute in utf16 "חשיבה מילולית - פרק ראשון".
Definition VERBAL_2 : jsstring := Eval vm_compute in utf16 "חשיבה מילולית - פרק שני".
Definition QUANT_1 : jsstring := Eval vm_compute in utf16 "חשיבה כמותית - פרק ראשון".
Definition QUANT_2 : jsstring := Eval vm_compute in utf16 "חשיבה כמותית - פרק שני".
Definition ENGLISH_1 : jsstring := Eval vm_compute in utf16 "אנגלית - פרק ראשון".
Definition ENGLISH_2 : jsstring := Eval vm_compute in utf16 "אנגלית - פרק שני".

(** ** AnswerKeyDecoder: [parseAnswerKey] *)

(** The [sections] table of [parseAnswerKey]: pattern and key, in the order
    the [for (const sec of sections)] loop tries them. *)
Definition keySections : list (jsstring * string) :=
  [ (VERBAL_1, "verbal-1"%string); (VERBAL_2, "verbal-2"%string);
    (QUANT_1, "quantitative-1"%string); (QUANT_2, "quantitative-2"%string);
    (ENGLISH_1, "english-1"%string); (ENGLISH_2, "english-2"%string) ].

(** The mutable variables of [parseAnswerKey] that its loop and the closure
    [saveAnswers] share.  [answerKey] is the object under construction: section
    key to (question number to answer).  [None] is [null]. *)
Record KeyState := mkKeyState {
  answerKey : gmap string (gmap Z Z);
  currentSection : option string;
  questionNumbers : option (list Z);
  collectedAnswers : jsstring
}.

Definition initKeyState : KeyState :=
  mkKeyState ∅ None None [].

(** One iteration of the [for j] loop of [saveAnswers]:
    [answerKey[currentSection][questionNumbers[j]] = answer] when the digit
    is between 1 and 4.  A NaN fails both comparisons.  The object
    [answerKey[currentSection]] exists whenever [currentSection] is set (the
    header step creates it, see [inv_current] below), so the default of the
    lookup is never used. *)
Definition saveOne (sec : string) (ak : gmap string (gmap Z Z)) (qa : Z * Z)
  : gmap string (gmap Z Z) :=
  match parseDigit qa.2 with
  | Some answer =>
      if (1 <=? answer) && (answer <=? 4)
      then <[sec := <[qa.1 := answer]> (default ∅ (ak !! sec))]> ak
      else ak
  | None => ak
  end.

(** [saveAnswers()]: the loop runs over [j < questionNumbers.length && j <
    collectedAnswers.length], that is over the zip of both. *)
Definition saveAnswers (st : KeyState) : gmap string (gmap Z Z) :=
  match currentSection st, questionNumbers st with
  | Some sec, Some qs =>
      if 0 <? len (collectedAnswers st)
      then foldl (saveOne sec) (answerKey st) (zip qs (collectedAnswers st))
      else answerKey st
  | _, _ => answerKey st
  end.

(** The first entry of [sections] whose pattern the line includes. *)
Fixpoint matchSection (secs : list (jsstring * string)) (line : jsstring)
  : option string :=
  match secs with
  | [] => None
  | (pat, key) :: rest =>
      if includes line pat then Some key else matchSection rest line
  end.

(** The [while (pos < line.length)] loop that reads the sentinel row: [rest]
    is [line.substring(pos)], [acc] the numbers pushed so far.  Every
    iteration that does not [break] consumes at least one unit, so the length
    of the line bounds the number of iterations. *)
Fixpoint sentinelLoop (fuel : nat) (rest : jsstring) (num : Z) (acc : list Z)
  : list Z :=
  match fuel with
  | O => acc
  | S fuel' =>
      match rest with
      | [] => acc
      | _ :: _ =>
          let numStr := toString num in
          if startsWith rest numStr
          then sentinelLoop fuel' (drop (length numStr) rest) (num + 1)
                            (acc ++ [num])
          else acc
      end
  end.

Definition decodeSentinel (line : jsstring) : list Z :=
  sentinelLoop (length line) line 1 [].

(** [collectedAnswers += line] followed by the "have all answers" check. *)
Definition collect (st : KeyState) (qs : list Z) (line : jsstring) : KeyState :=
  let collected := collectedAnswers st ++ line in
  let st' := mkKeyState (answerKey st) (currentSection st) (Some qs) collected in
  if len qs <=? len collected
  then mkKeyState (saveAnswers st') (currentSection st) None []
  else st'.

(** The section-header part of the loop body. *)
Definition headerStep (st : KeyState) (line : jsstring) : KeyState :=
  match matchSection keySections line with
  | Some key => mkKeyState (<[key := ∅]> (saveAnswers st)) (Some key) None []
  | None => st
  end.

(** The digit-line part of the loop body. *)
Definition digitStep (st : KeyState) (line : jsstring) : KeyState :=
  match currentSection st with
  | None => st
  | Some _ =>
      if allDigits line && (10 <? len line) then
        if startsWith line SENTINEL_PREFIX
        then mkKeyState (answerKey st) (currentSection st)
                        (Some (decodeSentinel line)) []
        else match questionNumbers st with
             | Some qs => collect st qs line
             | None => st
             end
      else
        match questionNumbers st with
        | Some qs => if allDigits line then collect st qs line else st
        | None => st
        end
  end.

(** The body of [for (let i = 0; i < lines.length; i++)] on the trimmed line;
    the boolean tells whether the loop [break]s after it. *)
Definition keyLineStep (st : KeyState) (rawLine : jsstring) : KeyState * bool :=
  let line := trim rawLine in
  let st2 := digitStep (headerStep st line) line in
  if includes line SCORING_MARKER
  then (mkKeyState (saveAnswers st2) (currentSection st2)
                   (questionNumbers st2) (collectedAnswers st2), true)
  else (st2, false).

Fixpoint scanKeyLines (st : KeyState) (lines : list jsstring) : KeyState :=
  match lines with
  | [] => st
  | l :: rest =>
      let '(st', stop) := keyLineStep st l in
      if stop then st' else scanKeyLines st' rest
  end.

(** The lines the decoder scans: [examText.substring(keyStart).split('\n')]. *)
Definition keyLines (examText : jsstring) : option (list jsstring) :=
  let keyStart := indexOf examText ANSWER_KEY_MARKER 0 in
  if keyStart =? -1 then None
  else Some (split NL (substringFrom examText keyStart)).

Definition parseAnswerKey (examText : jsstring) : gmap string (gmap Z Z) :=
  match keyLines examText with
  | None => ∅
  | Some lines => answerKey (scanKeyLines initKeyState lines)
  end.

(** ** Regular expressions

    The regular expressions of the source are transcribed as terms of [regex]
    and run by a backtracking matcher that follows the ECMAScript semantics:
    alternatives are tried left to right, a greedy quantifier tries one more
    iteration before it tries the continuation, a lazy one the other way
    round, and an iteration that consumes nothing is rejected. *)

Module Regex.

Inductive regex : Type :=
| Eps                         (* the empty pattern *)
| Cls (p : Z → bool)          (* one unit of a class: [\d], [[^.]], a literal *)
| Cat (r1 r2 : regex)         (* r1 r2 *)
| Alt (r1 r2 : regex)         (* r1|r2 *)
| Star (r : regex)            (* r*  *)
| StarL (r : regex)           (* r*? *)
| Grp (i : nat) (r : regex)   (* the i-th capturing group *)
| Ahead (r : regex)           (* (?=r) *)
| Bos                         (* ^ without the m flag *)
| Eos                         (* $ without the m flag *)
| Bol                         (* ^ with the m flag *)
| Eol                         (* $ with the m flag *)
| WordB.                      (* \b *)

Definition Plus (r : regex) : regex := Cat r (Star r).    (* r+  *)
Definition PlusL (r : regex) : regex := Cat r (StarL r).  (* r+? *)
Definition Opt (r : regex) : regex := Alt r Eps.          (* r?  *)

Definition Chr (c : Z) : regex := Cls (Z.eqb c).

(** A literal run of units. *)
Fixpoint Lit (s : jsstring) : regex :=
  match s with
  | [] => Eps
  | [c] => Chr c
  | c :: s' => Cat (Chr c) (Lit s')
  end.

(** The position of the matcher: the units already passed (last one first),
    the units ahead, and the captures made so far. *)
Record mstate := mkM {
  seen : jsstring;
  ahead : jsstring;
  caps : list (nat * jsstring)
}.

Definition pos (s : mstate) : Z := len (seen s).

(** The text consumed between two positions of one run. *)
Definition consumed (s s' : mstate) : jsstring :=
  rev (take (length (seen s') - length (seen s)) (seen s')).

(** LineTerminator: LF, CR, U+2028, U+2029 *)
Definition isLineTerminator (c : Z) : bool :=
  (c =? 10) || (c =? 13) || (c =? 8232) || (c =? 8233).

(** [\w] *)
Definition isWord (c : Z) : bool :=
  ((48 <=? c) && (c <=? 57)) || ((65 <=? c) && (c <=? 90))
  || ((97 <=? c) && (c <=? 122)) || (c =? 95).

Definition headIs (p : Z → bool) (s : jsstring) : bool :=
  match s with c :: _ => p c | [] => false end.

(** The iterations of a quantifier [r*] or [r*?]: [body] runs [r] with the
    continuation it is given.  An iteration must consume at least one unit,
    so the number of units ahead bounds the number of iterations: [fuel]
    starts at that number. *)
Fixpoint starLoop (greedy : bool)
    (body : (mstate → option mstate) → mstate → option mstate)
    (k : mstate → option mstate) (fuel : nat) (s : mstate) : option mstate :=
  match fuel with
  | O => k s
  | S fuel' =>
      let again :=
        body (λ s', if (length (ahead s') <? length (ahead s))%nat
                    then starLoop greedy body k fuel' s' else None) s in
      if greedy then
        match again with
        | Some e => Some e
        | None => k s
        end
      else
        match k s with
        | Some e => Some e
        | None => again
        end
  end.

Fixpoint run (r : regex) (k : mstate → option mstate) (s : mstate)
  : option mstate :=
  match r with
  | Eps => k s
  | Cls p =>
      match ahead s with
      | c :: t => if p c then k (mkM (c :: seen s) t (caps s)) else None
      | [] => None
      end
  | Cat r1 r2 => run r1 (run r2 k) s
  | Alt r1 r2 =>
      match run r1 k s with
      | Some e => Some e
      | None => run r2 k s
      end
  | Star r1 => starLoop true (run r1) k (length (ahead s)) s
  | StarL r1 => starLoop false (run r1) k (length (ahead s)) s
  | Grp i r1 =>
      run r1 (λ s', k (mkM (seen s') (ahead s') ((i, consumed s s') :: caps s'))) s
  | Ahead r1 =>
      match run r1 Some s with
      | Some e => k (mkM (seen s) (ahead s) (caps e))
      | None => None
      end
  | Bos => match seen s with [] => k s | _ :: _ => None end
  | Eos => match ahead s with [] => k s | _ :: _ => None end
  | Bol =>
      match seen s with
      | [] => k s
      | c :: _ => if isLineTerminator c then k s else None
      end
  | Eol =>
      match ahead s with
      | [] => k s
      | c :: _ => if isLineTerminator c then k s else None
      end
  | WordB =>
      if xorb (headIs isWord (seen s)) (headIs isWord (ahead s))
      then k s else None
  end.

(** One match: where it starts, what it covers, its captures. *)
Record rmatch := mkMatch {
  mstart : Z;
  mtext : jsstring;
  mcaps : list (nat * jsstring)
}.

(** [match[i]]: the text of group [i], the empty string when the group did
    not take part (the source only applies string methods to groups that
    did). *)
Fixpoint capture (i : nat) (cs : list (nat * jsstring)) : jsstring :=
  match cs with
  | [] => []
  | (j, t) :: cs' => if (i =? j)%nat then t else capture i cs'
  end.

Definition group (i : nat) (m : rmatch) : jsstring := capture i (mcaps m).

(** The match that starts exactly at the current position, if any. *)
Definition matchHere (r : regex) (sn ah : jsstring) : option (rmatch * mstate) :=
  let s := mkM sn ah [] in
  match run r Some s with
  | Some e => Some (mkMatch (pos s) (consumed s e) (caps e), e)
  | None => None
  end.

(** The leftmost match at or after the current position. *)
Fixpoint search (r : regex) (sn ah : jsstring) : option (rmatch * mstate) :=
  match matchHere r sn ah with
  | Some res => Some res
  | None =>
      match ah with
      | [] => None
      | c :: t => search r (c :: sn) t
      end
  end.

(** [str.match(re)] for a regular expression without the g flag. *)
Definition exec (r : regex) (s : jsstring) : option rmatch :=
  fst <$> search r [] s.

(** [re.test(str)], and the truth value of [str.match(re)]. *)
Definition test (r : regex) (s : jsstring) : bool :=
  match exec r s with Some _ => true | None => false end.

(** [str.search(re)] *)
Definition searchIndex (r : regex) (s : jsstring) : Z :=
  match exec r s with Some m => mstart m | None => -1 end.

(** The scan of a g-flag expression, written by structural recursion on the
    units ahead: [skip] is the number of units that still belong to the last
    match.  [emit] says what to produce for a match and [keep] what to
    produce for a unit outside every match. *)
Fixpoint scan {A : Type} (r : regex) (emit : rmatch → list A) (keep : Z → list A)
    (skip : nat) (sn ah : jsstring) : list A :=
  match ah with
  | [] =>
      match skip with
      | O => match matchHere r sn [] with
             | Some (m, _) => emit m
             | None => []
             end
      | S _ => []
      end
  | c :: t =>
      match skip with
      | S n => scan r emit keep n (c :: sn) t
      | O =>
          match matchHere r sn ah with
          | Some (m, _) =>
              match length (mtext m) with
              | O => emit m ++ keep c ++ scan r emit keep O (c :: sn) t
              | S n => emit m ++ scan r emit keep n (c :: sn) t
              end
          | None => keep c ++ scan r emit keep O (c :: sn) t
          end
      end
  end.

(** [[...str.matchAll(re)]] *)
Definition matchAll (r : regex) (s : jsstring) : list rmatch :=
  scan r (λ m, [m]) (λ _, []) O [] s.

(** [str.replace(re, repl)] for a g-flag expression and a replacement
    without [$] patterns. *)
Definition replaceAll (r : regex) (repl s : jsstring) : jsstring :=
  scan r (λ _, repl) (λ c, [c]) O [] s.

(** [str.replace(re, repl)] for an expression without the g flag: only the
    first match is replaced. *)
Definition replaceFirst (r : regex) (repl s : jsstring) : jsstring :=
  match exec r s with
  | Some m =>
      take (Z.to_nat (mstart m)) s ++ repl
      ++ drop (Z.to_nat (mstart m) + length (mtext m)) s
  | None => s
  end.

(** Character classes that occur in the source. *)
Definition digit : regex := Cls isDigit.                       (* \d *)
Definition ws : regex := Cls isWs.                             (* \s *)
Definition oneOf (cs : jsstring) : regex :=
  Cls (λ c, existsb (Z.eqb c) cs).                             (* [abc] *)
Definition noneOf (cs : jsstring) : regex :=
  Cls (λ c, negb (existsb (Z.eqb c) cs)).                      (* [^abc] *)
Definition range (lo hi : Z) : regex :=
  Cls (λ c, (lo <=? c) && (c <=? hi)).                         (* [a-b] *)
(** [.] : any unit but a line terminator *)
Definition dot : regex := Cls (λ c, negb (isLineTerminator c)).

End Regex.
Import Regex.

(** ** TextNormalizer: [cleanText] and [cleanExplanation] *)

(** [/\s+/g] *)
Definition RE_WS_RUN : regex := Plus ws.
(** [/^\s+|\s+$/g] *)
Definition RE_EDGE_WS : regex := Alt (Cat Bos (Plus ws)) (Cat (Plus ws) Eos).
(** [/- \d+ -/g] *)
Definition RE_PAGE_NUMBER : regex :=
  Cat (Lit (utf16 "- ")) (Cat (Plus digit) (Lit (utf16 " -"))).
(** [(אביב|קיץ|סתיו)] as group [i] *)
Definition RE_SEASON (i : nat) : regex :=
  Grp i (Alt (Lit (utf16 "אביב")) (Alt (Lit (utf16 "קיץ")) (Lit (utf16 "סתיו")))).
(** [/מועד (אביב|קיץ|סתיו) \d{4}/g] *)
Definition RE_EXAM_DATE : regex :=
  Cat (Lit (utf16 "מועד ")) (Cat (RE_SEASON 1)
    (Cat (Chr SPACE) (Cat digit (Cat digit (Cat digit digit))))).
(** [[^.]+\.] after a literal opening: the three boilerplate sentences. *)
Definition RE_SENTENCE (opening : jsstring) : regex :=
  Cat (Lit opening) (Cat (Plus (noneOf (utf16 "."))) (Chr 46)).
(** [/כל הזכויות שמורות[^.]+\./g] *)
Definition RE_RIGHTS : regex := RE_SENTENCE (utf16 "כל הזכויות שמורות").
(** [/©[^.]+\./g] *)
Definition RE_COPYRIGHT : regex := RE_SENTENCE (utf16 "©").
(** [/אין להעתיק[^.]+\./g] *)
Definition RE_NO_COPY : regex := RE_SENTENCE (utf16 "אין להעתיק").

(** The first two replacements of [cleanText]: whitespace runs become one
    space, then whitespace at either end is removed. *)
Definition normalizeSpaces (text : jsstring) : jsstring :=
  replaceAll RE_EDGE_WS [] (replaceAll RE_WS_RUN [SPACE] text).

(** The five replacements of [cleanText] that remove page numbers, exam
    dates and boilerplate sentences. *)
Definition stripBoilerplate (text : jsstring) : jsstring :=
  replaceAll RE_NO_COPY []
    (replaceAll RE_COPYRIGHT []
      (replaceAll RE_RIGHTS []
        (replaceAll RE_EXAM_DATE []
          (replaceAll RE_PAGE_NUMBER [] text)))).

(** [cleanText(text)]; [!text] holds exactly for the empty string. *)
Definition cleanText (text : jsstring) : jsstring :=
  match text with
  | [] => []
  | _ :: _ => trim (stripBoilerplate (normalizeSpaces text))
  end.

(** [/\b(אביב|קיץ|סתיו)\s*\d{4}\s*[-–]\s*הסברים[^-]+- \d+ -/g] *)
Definition RE_EXPLANATION_HEADER : regex :=
  Cat WordB (Cat (RE_SEASON 1) (Cat (Star ws)
    (Cat digit (Cat digit (Cat digit (Cat digit (Cat (Star ws)
      (Cat (oneOf (utf16 "-–")) (Cat (Star ws)
        (Cat (Lit (utf16 "הסברים")) (Cat (Plus (noneOf (utf16 "-")))
          (Cat (Lit (utf16 "- ")) (Cat (Plus digit) (Lit (utf16 " -"))))))))))))))).
(** [/חשיבה (מילולית|כמותית)\s*-\s*פרק\s*(ראשון|שני)/g] *)
Definition RE_SECTION_TITLE : regex :=
  Cat (Lit (utf16 "חשיבה "))
    (Cat (Grp 1 (Alt (Lit (utf16 "מילולית")) (Lit (utf16 "כמותית"))))
      (Cat (Star ws) (Cat (Chr 45) (Cat (Star ws) (Cat (Lit (utf16 "פרק"))
        (Cat (Star ws)
          (Grp 2 (Alt (Lit (utf16 "ראשון")) (Lit (utf16 "שני")))))))))).

(** [cleanExplanation(text)] *)
Definition cleanExplanation (text : jsstring) : jsstring :=
  match text with
  | [] => []
  | _ :: _ =>
      trim (replaceAll RE_SECTION_TITLE []
             (replaceAll RE_EXPLANATION_HEADER [] (cleanText text)))
  end.

(** ** Inline options: [parseInlineHebrewOptions] *)

Definition LPAREN : Z := 40.
Definition RPAREN : Z := 41.
(** [[)(]] *)
Definition paren : regex := oneOf [RPAREN; LPAREN].
(** [[^)(]] *)
Definition notParen : regex := noneOf [RPAREN; LPAREN].
(** [[1-4]] *)
Definition optDigit : regex := range 49 52.
(** [[)(][1-4][)(]] with the digit as group [i] when [i] is given *)
Definition optMarker (i : option nat) : regex :=
  Cat paren (Cat (match i with Some n => Grp n optDigit | None => optDigit end) paren).

(** [/([^\s()]+)\s*\)([1-4])\(/g] *)
Definition RE_RTL_OPTION : regex :=
  Cat (Grp 1 (Plus (Cls (λ c, negb (isWs c || (c =? LPAREN) || (c =? RPAREN))))))
    (Cat (Star ws) (Cat (Chr RPAREN) (Cat (Grp 2 optDigit) (Chr LPAREN)))).
(** [/[)(]([1-4])[)(]\s*([^)(]+?)(?=\s*[)(][1-4][)(]|$)/g] *)
Definition RE_LTR_OPTION : regex :=
  Cat paren (Cat (Grp 1 optDigit) (Cat paren (Cat (Star ws)
    (Cat (Grp 2 (PlusL notParen))
      (Ahead (Alt (Cat (Star ws) (optMarker None)) Eos)))))).
(** [/([^)(]+?)\s*[)(]([1-4])[)(]/g] *)
Definition RE_MIXED_OPTION : regex :=
  Cat (Grp 1 (PlusL notParen)) (Cat (Star ws) (optMarker (Some 2%nat))).
(** [/^.*[)(][1-4][)(]\s*/] *)
Definition RE_LEAKED_OPTION : regex :=
  Cat Bos (Cat (Star dot) (Cat (optMarker None) (Star ws))).

(** [parseInt(s, 10)] for a string of ASCII digits. *)
Definition parseInt (s : jsstring) : Z :=
  foldl (λ acc c, 10 * acc + (c - 48)) 0 s.

(** The four option slots, [['', '', '', '']]. *)
Definition emptyOptions : list jsstring := [[]; []; []; []].

(** The body of the three [for (const match of ...)] loops: the slot
    [optNum - 1] is overwritten when the number is between 1 and 4 and the
    text is not empty; the flag [parsed] is raised with it. *)
Definition setOption (acc : list jsstring * bool) (optNum : Z) (optText : jsstring)
  : list jsstring * bool :=
  if (1 <=? optNum) && (optNum <=? 4) && negb (0 =? len optText)
  then (<[Z.to_nat (optNum - 1) := optText]> acc.1, true)
  else acc.

Definition optionStep (idx : rmatch → Z) (txt : rmatch → jsstring)
    (acc : list jsstring * bool) (m : rmatch) : list jsstring * bool :=
  setOption acc (idx m) (txt m).

(** [optNum] and [optText] of the three loops. *)
Definition rtlOption : list jsstring * bool → rmatch → list jsstring * bool :=
  optionStep (λ m, parseInt (group 2 m)) (λ m, trim (group 1 m)).
Definition ltrOption : list jsstring * bool → rmatch → list jsstring * bool :=
  optionStep (λ m, parseInt (group 1 m)) (λ m, trim (group 2 m)).
Definition mixedOption : list jsstring * bool → rmatch → list jsstring * bool :=
  optionStep (λ m, parseInt (group 2 m))
    (λ m, trim (replaceFirst RE_LEAKED_OPTION [] (trim (group 1 m)))).

(** One of the three passes: nothing happens unless the pattern has at
    least two matches. *)
Definition optionPass (f : list jsstring * bool → rmatch → list jsstring * bool)
    (ms : list rmatch) (acc : list jsstring * bool) : list jsstring * bool :=
  if 2 <=? len ms then foldl f acc ms else acc.

(** [parseInlineHebrewOptions(line)]; [None] is [null]. *)
Definition parseInlineHebrewOptions (line : jsstring) : option (list jsstring) :=
  let acc1 := optionPass rtlOption (matchAll RE_RTL_OPTION line) (emptyOptions, false) in
  let acc2 := if acc1.2 then acc1
              else optionPass ltrOption (matchAll RE_LTR_OPTION line) acc1 in
  let acc3 := if acc2.2 then acc2
              else optionPass mixedOption (matchAll RE_MIXED_OPTION line) acc2 in
  if acc3.2 then Some acc3.1 else None.

(** ** SectionSegmenter: [findSectionMarker] and the section boundaries *)

(** [SECTION_ORDER] *)
Definition SECTION_ORDER : list jsstring :=
  [VERBAL_1; VERBAL_2; QUANT_1; QUANT_2; ENGLISH_1; ENGLISH_2; ANSWER_KEY_MARKER].

(** [SECTION_VARIANTS]: canonical marker, spellings to search for. *)
Definition SECTION_VARIANTS : list (jsstring * list jsstring) :=
  [ (VERBAL_1, [VERBAL_1]);
    (VERBAL_2, [VERBAL_2]);
    (QUANT_1, [QUANT_1; utf16 "חשיבה Ăמותית - פרק ראשון"]);
    (QUANT_2, [QUANT_2; utf16 "חשיבה Ăמותית - פרק שני"]);
    (ENGLISH_1, [ENGLISH_1]);
    (ENGLISH_2, [ENGLISH_2]);
    (ANSWER_KEY_MARKER, [ANSWER_KEY_MARKER]) ].

(** ['הזמן המוקצב'] *)
Definition TIME_ALLOTTED : jsstring := Eval vm_compute in utf16 "הזמן המוקצב".

(** Equality of strings, [===]. *)
Definition strEq (a b : jsstring) : bool := bool_decide (a = b).

Fixpoint lookupVariants (tbl : list (jsstring * list jsstring)) (marker : jsstring)
  : option (list jsstring) :=
  match tbl with
  | [] => None
  | (k, vs) :: rest => if strEq k marker then Some vs else lookupVariants rest marker
  end.

(** [SECTION_VARIANTS[marker] || [marker]], for a marker that names no
    property inherited from [Object.prototype] ([plainMarker] below); the
    script passes no other. *)
Definition variantsOf (marker : jsstring) : list jsstring :=
  default [marker] (lookupVariants SECTION_VARIANTS marker).

(** The body of [for (const variant of variants)]. *)
Definition variantStep (text : jsstring) (startFrom : Z) (minIdx : Z) (variant : jsstring) : Z :=
  let idx := indexOf text variant startFrom in
  if negb (idx =? -1) && ((minIdx =? -1) || (idx <? minIdx)) then idx else minIdx.

(** [findSectionMarker(text, marker, startFrom)] *)
Definition findSectionMarker (text marker : jsstring) (startFrom : Z) : Z :=
  foldl (variantStep text startFrom) (-1) (variantsOf marker).

(** [array.indexOf(x)] *)
Fixpoint arrayIndexOf (l : list jsstring) (x : jsstring) (i : Z) : Z :=
  match l with
  | [] => -1
  | y :: l' => if strEq y x then i else arrayIndexOf l' x (i + 1)
  end.

(** Where the search for a section starts: after the table of contents. *)
Definition searchStart (examText : jsstring) : Z :=
  let tocEnd := indexOf examText TIME_ALLOTTED 1000 in
  if 0 <? tocEnd then tocEnd else 1000.

(** [sectionStart] of [extractHebrewSection] and [extractEnglishSection]. *)
Definition sectionStart (examText sectionMarker : jsstring) : Z :=
  findSectionMarker examText sectionMarker (searchStart examText).

(** [sectionEnd] of both extractors, for a section that starts at
    [sectionStart]: the next marker in [SECTION_ORDER] after the start, then
    the answer key as a bound. *)
Definition sectionEnd (examText sectionMarker : jsstring) (sectionStart : Z) : Z :=
  let currentIdx := arrayIndexOf SECTION_ORDER sectionMarker 0 in
  let end1 :=
    if (0 <=? currentIdx) && (currentIdx <? len SECTION_ORDER - 1) then
      match SECTION_ORDER !! Z.to_nat (currentIdx + 1) with
      | Some nextMarker =>
          let nextIdx := findSectionMarker examText nextMarker
                           (sectionStart + len sectionMarker) in
          if negb (nextIdx =? -1) then nextIdx else len examText
      | None => len examText
      end
    else len examText in
  let answerKeyIdx := indexOf examText ANSWER_KEY_MARKER sectionStart in
  if negb (answerKeyIdx =? -1) && (answerKeyIdx <? end1) then answerKeyIdx else end1.

(** The boundary of a section: [None] when the extractors return before
    they compute one ([sectionStart === -1]). *)
Definition sectionBoundary (examText sectionMarker : jsstring) : option (Z * Z) :=
  let s := sectionStart examText sectionMarker in
  if s =? -1 then None else Some (s, sectionEnd examText sectionMarker s).

(** The lines both extractors scan. *)
Definition sectionLines (examText sectionMarker : jsstring) : option (list jsstring) :=
  match sectionBoundary examText sectionMarker with
  | None => None
  | Some (s, e) => Some (split NL (substring examText s e))
  end.

(** ** QuestionExtractor, Hebrew sections: [extractHebrewSection] *)

(** What the extractors record for a question: [{ stem, options }]. *)
Record QBlock := mkQBlock {
  qstem : jsstring;
  qoptions : list jsstring
}.

(** [lines.join(' ')] *)
Fixpoint join (sep : jsstring) (l : list jsstring) : jsstring :=
  match l with
  | [] => []
  | [x] => x
  | x :: l' => x ++ sep ++ join sep l'
  end.

(** [s.replace(pat, repl)] for a string pattern: the first occurrence. *)
Definition replaceStr (s pat repl : jsstring) : jsstring :=
  let idx := indexOf s pat 0 in
  if idx =? -1 then s
  else take (Z.to_nat idx) s ++ repl ++ drop (Z.to_nat idx + length pat) s.

Fixpoint lastFrom (p s : jsstring) (pos best : Z) : Z :=
  let best' := if startsWith s p then pos else best in
  match s with
  | [] => best'
  | _ :: s' => lastFrom p s' (pos + 1) best'
  end.

(** [s.lastIndexOf(p)] *)
Definition lastIndexOf (s p : jsstring) : Z := lastFrom p s 0 (-1).

(** [o.length > 0], also the truth value of a string. *)
Definition nonEmpty (o : jsstring) : bool := 0 <? len o.

(** [/[)(][1-4][)(]/] *)
Definition RE_OPTION_MARKER : regex := optMarker None.
(** [/\s*[)(][1-4][)(]\s*/g] *)
Definition RE_STRAY_MARKER : regex := Cat (Star ws) (Cat (optMarker None) (Star ws)).
(** [/^נתון:\s*/g] *)
Definition RE_GIVEN_PREFIX : regex := Cat Bos (Cat (Lit (utf16 "נתון:")) (Star ws)).
(** [/^שואלים:?\s*/g] *)
Definition RE_ASKED_PREFIX : regex :=
  Cat Bos (Cat (Lit (utf16 "שואלים")) (Cat (Opt (Chr 58)) (Star ws))).
(** [\d{1,2}] *)
Definition digits12 : regex := Cat digit (Opt digit).
(** [/\.(\d{1,2})$/] *)
Definition RE_QNUM_END : regex := Cat (Chr 46) (Cat (Grp 1 digits12) Eos).
(** [/^(\d{1,2})\.\s/] *)
Definition RE_QNUM_START : regex := Cat Bos (Cat (Grp 1 digits12) (Cat (Chr 46) ws)).
(** [/\.\d{1,2}$/] *)
Definition RE_QNUM_END_CUT : regex := Cat (Chr 46) (Cat digits12 Eos).
(** [/^\d{1,2}\.\s*/] *)
Definition RE_QNUM_START_CUT : regex := Cat Bos (Cat digits12 (Cat (Chr 46) (Star ws))).
(** [/^- \d+ -$/] *)
Definition RE_PAGE_LINE : regex := Cat Bos (Cat RE_PAGE_NUMBER Eos).
(** [/^עמוד ריק$/] *)
Definition RE_BLANK_PAGE : regex := Cat Bos (Cat (Lit (utf16 "עמוד ריק")) Eos).
(** [/^([^)(]+?)\s*\)([1-4])\($/] *)
Definition RE_STANDALONE_RTL : regex :=
  Cat Bos (Cat (Grp 1 (PlusL notParen)) (Cat (Star ws)
    (Cat (Chr RPAREN) (Cat (Grp 2 optDigit) (Cat (Chr LPAREN) Eos))))).
(** [/^\(([1-4])\)\s*(.+)$/] *)
Definition RE_STANDALONE_LTR : regex :=
  Cat Bos (Cat (Chr LPAREN) (Cat (Grp 1 optDigit) (Cat (Chr RPAREN)
    (Cat (Star ws) (Cat (Grp 2 (Plus dot)) Eos))))).

(** The closure variables of [extractHebrewSection]. *)
Record HebState := mkHeb {
  hCurrentQ : option Z;
  hStemLines : list jsstring;
  hOptions : list jsstring;
  hHasFoundOptions : bool;
  hQuestions : gmap Z QBlock
}.

Definition initHebState : HebState := mkHeb None [] emptyOptions false ∅.

(** The stem that [saveCurrentQuestion] keeps when it recovers the options
    from the joined stem lines: the text before the first option marker, cut
    after the last [' - '] when there is one. *)
Definition stemBeforeOptions (stem : jsstring) : jsstring :=
  let firstOptIdx := searchIndex RE_OPTION_MARKER stem in
  if 0 <? firstOptIdx then
    let stemPart := substring stem 0 firstOptIdx in
    let dashIdx := lastIndexOf stemPart (utf16 " - ") in
    let stemPart' := if 0 <? dashIdx then substring stemPart 0 (dashIdx + 3)
                     else stemPart in
    cleanText stemPart'
  else stem.

(** [for (const opt of options) if (opt && opt.length > 3) stem =
    stem.replace(opt, '').trim()] *)
Definition dropLeakedOption (stem opt : jsstring) : jsstring :=
  if nonEmpty opt && (3 <? len opt) then trim (replaceStr stem opt []) else stem.

(** [saveCurrentQuestion()] *)
Definition saveCurrentQuestion (st : HebState) : HebState :=
  match hCurrentQ st with
  | None => st
  | Some currentQ =>
      let stem0 := join [SPACE] (hStemLines st) in
      let '(stem1, options1, found1) :=
        if hHasFoundOptions st then (stem0, hOptions st, true)
        else match parseInlineHebrewOptions stem0 with
             | Some inlineOpts =>
                 if existsb nonEmpty inlineOpts
                 then (stemBeforeOptions stem0, inlineOpts, true)
                 else (stem0, hOptions st, false)
             | None => (stem0, hOptions st, false)
             end in
      let stem2 := cleanText stem1 in
      let stem3 :=
        if found1
        then trim (replaceAll RE_STRAY_MARKER [SPACE]
                     (foldl dropLeakedOption stem2 options1))
        else stem2 in
      let stem4 :=
        trim (replaceAll RE_WS_RUN [SPACE]
               (replaceAll RE_ASKED_PREFIX []
                 (replaceAll RE_GIVEN_PREFIX [] stem3))) in
      let options2 := cleanText <$> options1 in
      mkHeb (hCurrentQ st) (hStemLines st) options2 found1
            (<[currentQ := mkQBlock stem4 options2]> (hQuestions st))
  end.

(** How the scan of [extractHebrewSection] treats a trimmed line, in the
    order of its tests. *)
Inductive HebLine :=
| HSkip                                     (* empty, page header or footer *)
| HQuestion (n : Z) (stemPart : jsstring)   (* a question number *)
| HInlineOptions (opts : list jsstring)     (* an inline option sequence *)
| HStandalone (n : Z) (text : jsstring)     (* one option on its own line *)
| HStem (line : jsstring).                  (* anything else: stem text *)

Definition isHebrewHeaderFooter (line : jsstring) : bool :=
  includes line (utf16 "כל הזכויות שמורות")
  || includes line (utf16 "אין להעתיק")
  || test RE_PAGE_LINE line
  || test RE_BLANK_PAGE line
  || includes line (utf16 "מועד אביב")
  || includes line (utf16 "מועד קיץ")
  || includes line (utf16 "מועד סתיו")
  || includes line (utf16 "בפרק זה")
  || includes line TIME_ALLOTTED.

(** The two standalone-option tests, tried when the line is not accepted as
    an inline option sequence. *)
Definition classifyStandalone (line : jsstring) : HebLine :=
  match exec RE_STANDALONE_RTL line with
  | Some m => HStandalone (parseInt (group 2 m)) (cleanText (group 1 m))
  | None =>
      match exec RE_STANDALONE_LTR line with
      | Some m => HStandalone (parseInt (group 1 m)) (cleanText (group 2 m))
      | None => HStem line
      end
  end.

(** The tests that the scan makes on a line while a question is open:
    [lineOptions && lineOptions.filter(o => o.length > 0).length >= 2]
    first. *)
Definition classifyOpenLine (line : jsstring) : HebLine :=
  match parseInlineHebrewOptions line with
  | Some lineOptions =>
      if 2 <=? len (List.filter nonEmpty lineOptions)
      then HInlineOptions lineOptions
      else classifyStandalone line
  | None => classifyStandalone line
  end.

Definition classifyHebrewLine (line : jsstring) : HebLine :=
  if negb (nonEmpty line) then HSkip
  else if isHebrewHeaderFooter line then HSkip
  else
    match exec RE_QNUM_END line, exec RE_QNUM_START line with
    | Some m, _ =>
        HQuestion (parseInt (group 1 m)) (trim (replaceFirst RE_QNUM_END_CUT [] line))
    | None, Some m =>
        HQuestion (parseInt (group 1 m)) (trim (replaceFirst RE_QNUM_START_CUT [] line))
    | None, None => classifyOpenLine line
    end.

(** [for (let j = 0; j < 4; j++) if (lineOptions[j]) options[j] =
    lineOptions[j]] *)
Definition mergeOptions (options lineOptions : list jsstring) : list jsstring :=
  foldl (λ opts j,
           match lineOptions !! j with
           | Some o => if nonEmpty o then <[j := o]> opts else opts
           | None => opts
           end) options (seq 0 4).

(** The effect of a classified line on the scan state. *)
Definition applyHebLine (st : HebState) (l : HebLine) : HebState :=
  match l with
  | HSkip => st
  | HQuestion n stemPart =>
      let st' := saveCurrentQuestion st in
      mkHeb (Some n) (if nonEmpty stemPart then [stemPart] else [])
            emptyOptions false (hQuestions st')
  | HInlineOptions lineOptions =>
      match hCurrentQ st with
      | None => st
      | Some _ => mkHeb (hCurrentQ st) (hStemLines st)
                        (mergeOptions (hOptions st) lineOptions) true (hQuestions st)
      end
  | HStandalone n text =>
      match hCurrentQ st with
      | None => st
      | Some _ => mkHeb (hCurrentQ st) (hStemLines st)
                        (<[Z.to_nat (n - 1) := text]> (hOptions st)) true (hQuestions st)
      end
  | HStem line =>
      match hCurrentQ st with
      | None => st
      | Some _ => mkHeb (hCurrentQ st) (hStemLines st ++ [line])
                        (hOptions st) (hHasFoundOptions st) (hQuestions st)
      end
  end.

Definition hebrewLineStep (st : HebState) (rawLine : jsstring) : HebState :=
  applyHebLine st (classifyHebrewLine (trim rawLine)).

(** [extractHebrewSection(examText, sectionMarker, sectionKey)] *)
Definition extractHebrewSection (examText sectionMarker : jsstring) : gmap Z QBlock :=
  match sectionLines examText sectionMarker with
  | None => ∅
  | Some lines => hQuestions (saveCurrentQuestion (foldl hebrewLineStep initHebState lines))
  end.

(** ** QuestionExtractor, English sections: [extractEnglishSection] *)

(** A letter of a pattern with the i flag: ASCII letters match in either
    case, and no unit outside ASCII canonicalizes to an ASCII letter. *)
Definition lowerAscii (c : Z) : Z :=
  if (65 <=? c) && (c <=? 90) then c + 32 else c.
Definition ChrI (c : Z) : regex := Cls (λ x, lowerAscii x =? lowerAscii c).
Fixpoint LitI (s : jsstring) : regex :=
  match s with
  | [] => Eps
  | [c] => ChrI c
  | c :: s' => Cat (ChrI c) (LitI s')
  end.

(** [/^Questions$/i] *)
Definition RE_QUESTIONS : regex := Cat Bos (Cat (LitI (utf16 "Questions")) Eos).
(** [/^Text (I|II)/i] *)
Definition RE_TEXT_HEADER : regex :=
  Cat Bos (Cat (LitI (utf16 "Text "))
    (Grp 1 (Alt (LitI (utf16 "I")) (LitI (utf16 "II"))))).
(** [/^(\d{1,2})\.\s+(G)$/], the group [G] being [.*] *)
Definition RE_EN_QNUM : regex :=
  Cat Bos (Cat (Grp 1 digits12) (Cat (Chr 46) (Cat (Plus ws)
    (Cat (Grp 2 (Star dot)) Eos)))).
(** [/^\(([1-4])\)\s+(G)$/], the group [G] being [.*] *)
Definition RE_EN_OPTION_LINE : regex :=
  Cat Bos (Cat (Chr LPAREN) (Cat (Grp 1 optDigit) (Cat (Chr RPAREN)
    (Cat (Plus ws) (Cat (Grp 2 (Star dot)) Eos))))).
(** [/\(([1-4])\)\s*([^(]+)/g] *)
Definition RE_EN_INLINE : regex :=
  Cat (Chr LPAREN) (Cat (Grp 1 optDigit) (Cat (Chr RPAREN) (Cat (Star ws)
    (Grp 2 (Plus (noneOf [LPAREN])))))).

Record EngState := mkEng {
  eCurrentQ : option Z;
  eStemLines : list jsstring;
  eOptions : list jsstring;
  eInQuestionSection : bool;
  eInPassage : bool;
  eQuestions : gmap Z QBlock
}.

Definition initEngState : EngState := mkEng None [] emptyOptions false false ∅.

(** [saveCurrentQuestion()] of [extractEnglishSection] *)
Definition saveEnglishQuestion (st : EngState) : gmap Z QBlock :=
  match eCurrentQ st with
  | None => eQuestions st
  | Some currentQ =>
      if (0 <? len (eStemLines st)) || existsb nonEmpty (eOptions st)
      then <[currentQ := mkQBlock (cleanText (join [SPACE] (eStemLines st)))
                                  (cleanText <$> eOptions st)]> (eQuestions st)
      else eQuestions st
  end.

Definition isEnglishHeaderFooter (line : jsstring) : bool :=
  includes line (utf16 "כל הזכויות שמורות")
  || includes line (utf16 "אין להעתיק")
  || test RE_PAGE_LINE line
  || includes line (utf16 "מועד").

(** [options[optNum - 1] = optText] for each match of the inline pattern. *)
Definition englishInlineOption (opts : list jsstring) (m : rmatch) : list jsstring :=
  <[Z.to_nat (parseInt (group 1 m) - 1) :=
      trim (replaceAll RE_WS_RUN [SPACE] (trim (group 2 m)))]> opts.

(** The part of the loop body that runs when [currentQ !== null &&
    inQuestionSection]. *)
Definition englishOpenLine (st : EngState) (line : jsstring) : EngState :=
  match exec RE_EN_OPTION_LINE line with
  | Some m =>
      mkEng (eCurrentQ st) (eStemLines st)
            (<[Z.to_nat (parseInt (group 1 m) - 1) := trim (group 2 m)]> (eOptions st))
            (eInQuestionSection st) (eInPassage st) (eQuestions st)
  | None =>
      let inlineOptions := matchAll RE_EN_INLINE line in
      if 2 <=? len inlineOptions
      then mkEng (eCurrentQ st) (eStemLines st)
                 (foldl englishInlineOption (eOptions st) inlineOptions)
                 (eInQuestionSection st) (eInPassage st) (eQuestions st)
      else mkEng (eCurrentQ st) (eStemLines st ++ [line]) (eOptions st)
                 (eInQuestionSection st) (eInPassage st) (eQuestions st)
  end.

Definition englishLineStep (st : EngState) (rawLine : jsstring) : EngState :=
  let line := trim rawLine in
  if negb (nonEmpty line) then st
  else if isEnglishHeaderFooter line then st
  else if test RE_QUESTIONS line
  then mkEng (eCurrentQ st) (eStemLines st) (eOptions st) true false (eQuestions st)
  else if test RE_TEXT_HEADER line
  then mkEng (eCurrentQ st) (eStemLines st) (eOptions st) false true (eQuestions st)
  else
    match exec RE_EN_QNUM line with
    | Some m =>
        mkEng (Some (parseInt (group 1 m)))
              (if nonEmpty (group 2 m) then [group 2 m] else [])
              emptyOptions true false (saveEnglishQuestion st)
    | None =>
        if eInPassage st then st
        else match eCurrentQ st with
             | Some _ => if eInQuestionSection st then englishOpenLine st line else st
             | None => st
             end
    end.

(** [extractEnglishSection(examText, sectionMarker, sectionKey)] *)
Definition extractEnglishSection (examText sectionMarker : jsstring) : gmap Z QBlock :=
  match sectionLines examText sectionMarker with
  | None => ∅
  | Some lines => saveEnglishQuestion (foldl englishLineStep initEngState lines)
  end.

(** ** Post-processing: [postProcessQuestions] *)

(** [/^שאלה\s*\d+\s*-\s*חשיבה/] *)
Definition RE_QUESTION_PREFIX : regex :=
  Cat Bos (Cat (Lit (utf16 "שאלה")) (Cat (Star ws) (Cat (Plus digit)
    (Cat (Star ws) (Cat (Chr 45) (Cat (Star ws) (Lit (utf16 "חשיבה")))))))).
(** [/^שאלה\s*\d+\s*-\s*חשיבה[^\n]+/] *)
Definition RE_QUESTION_PREFIX_LINE : regex :=
  Cat RE_QUESTION_PREFIX (Plus (noneOf [NL])).
(** [/^[א-ת]/] *)
Definition RE_HEBREW_START : regex := Cat Bos (range 1488 1514).
(** [/נתון:\s*\./g] *)
Definition RE_GIVEN_DOT : regex := Cat (Lit (utf16 "נתון:")) (Cat (Star ws) (Chr 46)).
(** [/נתון:\s+/g] *)
Definition RE_GIVEN_WS : regex := Cat (Lit (utf16 "נתון:")) (Plus ws).

Definition QUESTION_MARK : Z := 63.

(** [s.endsWith(p)] *)
Definition endsWith (s p : jsstring) : bool := startsWith (rev s) (rev p).

(** The stem part of the loop body of [postProcessQuestions]. *)
Definition postProcessStem (stem0 : jsstring) : jsstring :=
  let stem1 := cleanText stem0 in
  let stem2 :=
    if test RE_QUESTION_PREFIX stem1 then
      let cleaned := trim (replaceFirst RE_QUESTION_PREFIX_LINE [] stem1) in
      if 10 <? len cleaned then cleaned else stem1
    else stem1 in
  let stem3 :=
    if includes stem2 [QUESTION_MARK] && negb (endsWith stem2 [QUESTION_MARK]) then
      let qMarkIdx := indexOf stem2 [QUESTION_MARK] 0 in
      let beforeQ := substring stem2 0 qMarkIdx in
      let afterQ := substringFrom stem2 (qMarkIdx + 1) in
      if test RE_HEBREW_START afterQ && (10 <? len beforeQ)
      then trim beforeQ ++ utf16 "? " ++ trim afterQ
      else stem2
    else stem2 in
  trim (replaceAll RE_WS_RUN [SPACE]
         (replaceAll RE_GIVEN_WS (NL :: utf16 "נתון: ")
           (replaceAll RE_GIVEN_DOT (utf16 "נתון: ") stem3))).

(** The first part of [options[i].split('?')] that is all digits or shorter
    than 30 units, trimmed; the option itself when there is none. *)
Fixpoint firstShortPart (parts : list jsstring) (opt : jsstring) : jsstring :=
  match parts with
  | [] => opt
  | part :: rest =>
      if allDigits part || (len part <? 30) then trim part
      else firstShortPart rest opt
  end.

(** The option part of the loop body of [postProcessQuestions]. *)
Definition postProcessOption (opt : jsstring) : jsstring :=
  if nonEmpty opt then
    cleanText (if includes opt [QUESTION_MARK]
               then firstShortPart (split QUESTION_MARK opt) opt
               else opt)
  else opt.

(** [postProcessQuestions(questions, sectionKey)] *)
Definition postProcessQuestions (questions : gmap Z QBlock) : gmap Z QBlock :=
  (λ q, mkQBlock (postProcessStem (qstem q)) (postProcessOption <$> qoptions q))
    <$> questions.

(** ** SolutionExtractor: [extractFromSolution] *)

Module RegexSplit.
(** [str.split(re)]: the separator is tried at every position [q]; a match
    that ends where the current piece starts ([e == p]) is skipped, any other
    match closes the piece.  [piece] holds the units of the current piece,
    last one first; [skip] counts the units of a separator still to pass. *)
Fixpoint splitGo (r : regex) (skip : nat) (sn ah piece : jsstring) : list jsstring :=
  match ah with
  | [] => [rev piece]
  | c :: t =>
      match skip with
      | S n => splitGo r n (c :: sn) t piece
      | O =>
          match matchHere r sn ah with
          | Some (m, _) =>
              match length (mtext m), piece with
              | O, [] => splitGo r O (c :: sn) t [c]
              | O, _ :: _ => rev piece :: splitGo r O (c :: sn) t [c]
              | S n, _ => rev piece :: splitGo r n (c :: sn) t []
              end
          | None => splitGo r O (c :: sn) t (c :: piece)
          end
      end
  end.

Definition splitRe (r : regex) (s : jsstring) : list jsstring :=
  match s with
  | [] => match matchHere r [] [] with Some _ => [] | None => [[]] end
  | _ :: _ => splitGo r O [] s []
  end.
End RegexSplit.
Import RegexSplit.

(** [/(?=^\d{1,2}\.\s)/m] *)
Definition RE_BLOCK_START : regex :=
  Ahead (Cat Bol (Cat digits12 (Cat (Chr 46) ws))).
(** [/^(\d{1,2})\./] *)
Definition RE_BLOCK_NUMBER : regex := Cat Bos (Cat (Grp 1 digits12) (Chr 46)).
(** [/^([^.]+(?:\.[^.]+){0,2})/] *)
Definition RE_FIRST_SENTENCES : regex :=
  let notDot := Plus (noneOf (utf16 ".")) in
  let more := Cat (Chr 46) notDot in
  Cat Bos (Grp 1 (Cat notDot (Opt (Cat more (Opt more))))).
(** [/תשובה\s*\(\d\)\s*\.?\s*$/gm] *)
Definition RE_ANSWER_LINE : regex :=
  Cat (Lit (utf16 "תשובה")) (Cat (Star ws) (Cat (Chr LPAREN) (Cat digit
    (Cat (Chr RPAREN) (Cat (Star ws) (Cat (Opt (Chr 46)) (Cat (Star ws) Eol))))))).

Definition ELLIPSIS : jsstring := utf16 "...".

(** [if (s.length > n) s = s.substring(0, n) + '...'] *)
Definition capLength (n : Z) (s : jsstring) : jsstring :=
  if n <? len s then substring s 0 n ++ ELLIPSIS else s.

(** The fallback stem of a solution block. *)
Definition solutionStem (content : jsstring) : jsstring :=
  match exec RE_FIRST_SENTENCES content with
  | Some m =>
      capLength 300
        (trim (replaceAll RE_WS_RUN [SPACE]
                (replaceAll RE_ANSWER_LINE [] (trim (group 1 m)))))
  | None => []
  end.

(** The body of [for (const block of blocks)] in [extractFromSolution]; the
    state is the pair of objects [explanations] and [questions]. *)
Definition solutionBlockStep (acc : gmap Z jsstring * gmap Z QBlock) (block : jsstring)
  : gmap Z jsstring * gmap Z QBlock :=
  match exec RE_BLOCK_NUMBER block with
  | None => acc
  | Some numMatch =>
      let qNum := parseInt (group 1 numMatch) in
      if (qNum <? 1) || (30 <? qNum) then acc
      else
        let content := trim (replaceFirst RE_QNUM_START_CUT [] block) in
        let stem := solutionStem content in
        let questions :=
          if 15 <? len stem then <[qNum := mkQBlock stem emptyOptions]> acc.2
          else acc.2 in
        let explanation := capLength 1500 (cleanExplanation content) in
        let explanations :=
          if 20 <? len explanation then <[qNum := explanation]> acc.1
          else acc.1 in
        (explanations, questions)
  end.

(** [extractFromSolution(season, sectionKey)] on the content of the solution
    file, [None] when the file does not exist. *)
Definition extractFromSolution (solFile : option jsstring)
  : gmap Z jsstring * gmap Z QBlock :=
  match solFile with
  | None => (∅, ∅)
  | Some solText => foldl solutionBlockStep (∅, ∅) (splitRe RE_BLOCK_START solText)
  end.

(** ** ReconciliationMerger and ExamAssembler: [parseExam] *)

Inductive SectionType := Verbal | Quantitative | English.
Inductive Lang := He | En.

Global Instance SectionType_eq_dec : EqDecision SectionType.
Proof. solve_decision. Defined.
Global Instance Lang_eq_dec : EqDecision Lang.
Proof. solve_decision. Defined.

(** ['verbal'], ['quantitative'], ['english'] *)
Definition typeName (t : SectionType) : jsstring :=
  match t with
  | Verbal => utf16 "verbal"
  | Quantitative => utf16 "quantitative"
  | English => utf16 "english"
  end.

(** An entry of [sectionDefs]. *)
Record SectionDef := mkDef {
  dKey : string;
  dType : SectionType;
  dSection : Z;
  dMarker : jsstring;
  dLang : Lang
}.

Definition sectionDefs : list SectionDef :=
  [ mkDef "verbal-1" Verbal 1 VERBAL_1 He;
    mkDef "verbal-2" Verbal 2 VERBAL_2 He;
    mkDef "quantitative-1" Quantitative 1 QUANT_1 He;
    mkDef "quantitative-2" Quantitative 2 QUANT_2 He;
    mkDef "english-1" English 1 ENGLISH_1 En;
    mkDef "english-2" English 2 ENGLISH_2 En ].

(** [['א', 'ב', 'ג', 'ד']] and [['1', '2', '3', '4']] *)
Definition hebrewLabels : list jsstring := [utf16 "א"; utf16 "ב"; utf16 "ג"; utf16 "ד"].
Definition englishLabels : list jsstring := [utf16 "1"; utf16 "2"; utf16 "3"; utf16 "4"].

(** An element of [options] of a question: [{ id, text, label }]. *)
Record OptionRec := mkOption {
  optId : Z;
  optText : jsstring;
  optLabel : jsstring
}.

(** An element of [allQuestions]. *)
Record Question := mkQuestion {
  qId : jsstring;
  examId : jsstring;
  sectionType : SectionType;
  sectionNumber : Z;
  questionNumber : Z;
  language : Lang;
  stem : jsstring;
  options : list OptionRec;
  correctAnswer : Z;
  explanation : jsstring;
  hasFullText : bool
}.

(** [labels[i]]; an index outside the array gives [undefined], which a
    template literal prints as that word. *)
Definition labelAt (labels : list jsstring) (i : nat) : jsstring :=
  default (utf16 "undefined") (labels !! i).

(** ['תשובה ' + label]: the text of a placeholder option. *)
Definition placeholderOption (label : jsstring) : jsstring := utf16 "תשובה " ++ label.

(** [[1, 2, 3, 4].map(i => ({ id: i, text: 'תשובה ' + labels[i - 1], label:
    labels[i - 1] }))]: the four placeholder options. *)
Definition placeholderOptions (labels : list jsstring) : list OptionRec :=
  (λ i, mkOption i (placeholderOption (labelAt labels (Z.to_nat (i - 1))))
                   (labelAt labels (Z.to_nat (i - 1)))) <$> [1; 2; 3; 4].

(** The [options] of a question and the flag [hasValidOptions]. *)
Definition buildOptions (labels : list jsstring) (extracted : option QBlock)
  : list OptionRec * bool :=
  match extracted with
  | Some e =>
      if existsb nonEmpty (qoptions e) then
        (imap (λ i opt, mkOption (Z.of_nat i + 1)
                          (if nonEmpty opt then opt else placeholderOption (labelAt labels i))
                          (labelAt labels i)) (qoptions e),
         2 <=? len (List.filter nonEmpty (qoptions e)))
      else (placeholderOptions labels, false)
  | None => (placeholderOptions labels, false)
  end.

(** ['שאלה'] *)
Definition QUESTION_WORD : jsstring := Eval vm_compute in utf16 "שאלה".

(** The stem that replaces an empty or too short one. *)
Definition placeholderStem (def : SectionDef) (qNum : Z) : jsstring :=
  match dLang def with
  | He => utf16 "שאלה " ++ toString qNum ++ utf16 " - " ++ dMarker def
  | En => utf16 "Question " ++ toString qNum ++ utf16 " - " ++ dMarker def
  end.

(** [def.lang === 'he' ? hebrewLabels : englishLabels] *)
Definition labelsOf (lang : Lang) : list jsstring :=
  match lang with He => hebrewLabels | En => englishLabels end.

(** [extracted?.stem || ''] *)
Definition extractedStem (extracted : option QBlock) : jsstring :=
  match extracted with Some e => qstem e | None => [] end.

(** [stem && stem.length > 3 && !stem.startsWith('שאלה')] *)
Definition hasValidStem (stem : jsstring) : bool :=
  nonEmpty stem && (3 <? len stem) && negb (startsWith stem QUESTION_WORD).

(** [extractedQuestions[qNum] || null], replaced by the block of the solution
    when there is none. *)
Definition selectExtracted (extractedQuestions solutionQuestions : gmap Z QBlock)
    (qNum : Z) : option QBlock :=
  match extractedQuestions !! qNum with
  | Some e => Some e
  | None => solutionQuestions !! qNum
  end.

(** The body of [for (const qNum of questionNums)]: the question pushed to
    [allQuestions]. *)
Definition mergeQuestion (season : jsstring) (def : SectionDef)
    (sectionAnswers : gmap Z Z) (explanations : gmap Z jsstring)
    (extractedQuestions solutionQuestions : gmap Z QBlock) (qNum : Z) : Question :=
  (* [sectionAnswers[qNum]]: [qNum] is a key of [sectionAnswers], the default
     is never used *)
  let correctAnswer := default 0 (sectionAnswers !! qNum) in
  let explanation := default [] (explanations !! qNum) in
  let extracted := selectExtracted extractedQuestions solutionQuestions qNum in
  let labels := labelsOf (dLang def) in
  let '(options, hasValidOptions) := buildOptions labels extracted in
  let stem0 := extractedStem extracted in
  let validStem := hasValidStem stem0 in
  let stem := if negb (nonEmpty stem0) || (len stem0 <? 3)
              then placeholderStem def qNum else stem0 in
  mkQuestion (season ++ utf16 "-" ++ utf16 (dKey def) ++ utf16 "-" ++ toString qNum)
             season (dType def) (dSection def) qNum (dLang def)
             stem options correctAnswer (cleanExplanation explanation)
             (validStem || hasValidOptions).

(** [Object.keys(sectionAnswers).map(Number).sort((a, b) => a - b)] *)
Definition questionNums (sectionAnswers : gmap Z Z) : list Z :=
  merge_sort Z.le (map_to_list sectionAnswers).*1.

(** The files of one exam in [TEMP_DIR]: [<season>-exam-raw.txt] and, by
    section key, [<season>-<key>-solution-raw.txt]; [None] when a file does
    not exist. *)
Record ExamFiles := mkFiles {
  examFile : option jsstring;
  solutionFile : string → option jsstring
}.

(** [def.lang === 'he' ? extractHebrewSection(...) : extractEnglishSection(...)] *)
Definition extractSection (examText : jsstring) (def : SectionDef) : gmap Z QBlock :=
  match dLang def with
  | He => extractHebrewSection examText (dMarker def)
  | En => extractEnglishSection examText (dMarker def)
  end.

(** The body of [for (const def of sectionDefs)]: the questions of one
    section, in the order they are pushed. *)
Definition mergeSection (season examText : jsstring) (files : ExamFiles)
    (answerKey : gmap string (gmap Z Z)) (def : SectionDef) : list Question :=
  let sectionAnswers := default ∅ (answerKey !! dKey def) in
  let nums := questionNums sectionAnswers in
  if len nums =? 0 then []
  else
    let extractedQuestions := postProcessQuestions (extractSection examText def) in
    let '(explanations, solutionQuestions) :=
      extractFromSolution (solutionFile files (dKey def)) in
    mergeQuestion season def sectionAnswers explanations
                  extractedQuestions solutionQuestions <$> nums.

(** [allQuestions] at the end of the loop over [sectionDefs]. *)
Definition mergeAll (season examText : jsstring) (files : ExamFiles)
    (answerKey : gmap string (gmap Z Z)) : list Question :=
  concat (mergeSection season examText files answerKey <$> sectionDefs).

(** [exam.sections]: [{ verbal: { questions }, quantitative: { questions },
    english: { questions } }]. *)
Record SectionCounts := mkCounts {
  verbalQuestions : Z;
  quantitativeQuestions : Z;
  englishQuestions : Z
}.

(** [allQuestions.filter(q => q.sectionType === t).length] *)
Definition countOfType (allQuestions : list Question) (t : SectionType) : Z :=
  len (List.filter (λ q, bool_decide (sectionType q = t)) allQuestions).

(** The [exam] object that [parseExam] writes and returns. *)
Record Exam := mkExam {
  exId : jsstring;
  exName : jsstring;
  exNameEn : jsstring;
  exDate : jsstring;
  totalQuestions : Z;
  fullTextQuestions : Z;
  sections : SectionCounts;
  questions : list Question
}.

(** [c.toUpperCase()] for the season identifiers, which are ASCII. *)
Definition upperAscii (c : Z) : Z :=
  if (97 <=? c) && (c <=? 122) then c - 32 else c.

(** [w.charAt(0).toUpperCase() + w.slice(1)] *)
Definition capitalize (w : jsstring) : jsstring :=
  match w with
  | [] => []
  | c :: w' => upperAscii c :: w'
  end.

Definition assembleExam (season seasonHebrew : jsstring) (allQuestions : list Question)
  : Exam :=
  mkExam season
         (utf16 "מבחן " ++ seasonHebrew)
         (join [SPACE] (capitalize <$> split 45 season) ++ utf16 " Exam")
         (utf16 "2025")
         (len allQuestions)
         (len (List.filter hasFullText allQuestions))
         (mkCounts (countOfType allQuestions Verbal)
                   (countOfType allQuestions Quantitative)
                   (countOfType allQuestions English))
         allQuestions.

(** [parseExam(season, seasonHebrew)]; [None] is the [null] returned when the
    exam file does not exist. *)
Definition parseExam (season seasonHebrew : jsstring) (files : ExamFiles)
  : option Exam :=
  match examFile files with
  | None => None
  | Some examText =>
      Some (assembleExam season seasonHebrew
              (mergeAll season examText files (parseAnswerKey examText)))
  end.

(** ** The cross-exam index: the main loop of the script *)

(** An element of [results]: the summary of one exam. *)
Record ExamSummary := mkSummary {
  sId : jsstring;
  sName : jsstring;
  sNameEn : jsstring;
  sTotalQuestions : Z;
  sFullTextQuestions : Z
}.

(** The object written to [index.json]. *)
Record ExamIndex := mkIndex {
  ixExams : list ExamSummary;
  ixTotalQuestions : Z;
  ixFullTextQuestions : Z;
  ixLastUpdated : jsstring
}.

(** [exams]: season and Hebrew name of the exams the script parses. *)
Definition EXAMS : list (jsstring * jsstring) :=
  [ (utf16 "spring-2025", utf16 "אביב 2025");
    (utf16 "summer-2025", utf16 "קיץ 2025");
    (utf16 "fall-2025", utf16 "סתיו 2025") ].

(** The body of [for (const { season, hebrew } of exams)]; the state is
    [results], [totalQuestions], [totalFullText].  [tempDir] gives the files
    of [TEMP_DIR] by season. *)
Definition indexStep (tempDir : jsstring → ExamFiles)
    (acc : list ExamSummary * Z * Z) (e : jsstring * jsstring)
  : list ExamSummary * Z * Z :=
  match parseExam e.1 e.2 (tempDir e.1) with
  | Some exam =>
      (acc.1.1 ++ [mkSummary (exId exam) (exName exam) (exNameEn exam)
                             (totalQuestions exam) (fullTextQuestions exam)],
       acc.1.2 + totalQuestions exam,
       acc.2 + fullTextQuestions exam)
  | None => acc
  end.

(** The index that the script writes after the loop; [now] is
    [new Date().toISOString()]. *)
Definition buildIndex (tempDir : jsstring → ExamFiles) (now : jsstring) : ExamIndex :=
  let acc := foldl (indexStep tempDir) ([], 0, 0) EXAMS in
  mkIndex acc.1.1 acc.1.2 acc.2 now.

(** ** The answers-only parser: [scripts/official-parser.cjs]

    Its [parseAnswerKey] is the decoder above with the guard of
    [saveAnswers] written at the call sites; its [parseExam] emits
    placeholder questions with an explanation taken from the solution file
    or synthesized from the correct answer. *)

Module Official.

(** [saveAnswers(answerKey, section, questionNumbers, answerString)]: the
    loop of the closure above as a function of its own, without the test that
    opens the closure. *)
Definition saveAnswers (answerKey : gmap string (gmap Z Z)) (section : string)
    (questionNumbers : list Z) (answerString : jsstring) : gmap string (gmap Z Z) :=
  foldl (saveOne section) answerKey (zip questionNumbers answerString).

(** [if (currentSection && questionNumbers && collectedAnswers.length > 0)
    saveAnswers(answerKey, currentSection, questionNumbers, collectedAnswers)]:
    the test is written at the header and at the scoring marker. *)
Definition savePending (st : KeyState) : gmap string (gmap Z Z) :=
  match currentSection st, questionNumbers st with
  | Some sec, Some qs =>
      if 0 <? len (collectedAnswers st)
      then saveAnswers (answerKey st) sec qs (collectedAnswers st)
      else answerKey st
  | _, _ => answerKey st
  end.

(** [collectedAnswers += line] and the "have all answers" check, which calls
    [saveAnswers] without a test. *)
Definition collect (st : KeyState) (sec : string) (qs : list Z) (line : jsstring)
  : KeyState :=
  let collected := collectedAnswers st ++ line in
  if len qs <=? len collected
  then mkKeyState (saveAnswers (answerKey st) sec qs collected) (currentSection st) None []
  else mkKeyState (answerKey st) (currentSection st) (Some qs) collected.

Definition headerStep (st : KeyState) (line : jsstring) : KeyState :=
  match matchSection keySections line with
  | Some key => mkKeyState (<[key := ∅]> (savePending st)) (Some key) None []
  | None => st
  end.

Definition digitStep (st : KeyState) (line : jsstring) : KeyState :=
  match currentSection st with
  | None => st
  | Some sec =>
      if allDigits line && (10 <? len line) then
        if startsWith line SENTINEL_PREFIX
        then mkKeyState (answerKey st) (currentSection st)
                        (Some (decodeSentinel line)) []
        else match questionNumbers st with
             | Some qs => collect st sec qs line
             | None => st
             end
      else
        match questionNumbers st with
        | Some qs => if allDigits line then collect st sec qs line else st
        | None => st
        end
  end.

Definition keyLineStep (st : KeyState) (rawLine : jsstring) : KeyState * bool :=
  let line := trim rawLine in
  let st2 := digitStep (headerStep st line) line in
  if includes line SCORING_MARKER
  then (mkKeyState (savePending st2) (currentSection st2)
                   (questionNumbers st2) (collectedAnswers st2), true)
  else (st2, false).

Fixpoint scanKeyLines (st : KeyState) (lines : list jsstring) : KeyState :=
  match lines with
  | [] => st
  | l :: rest =>
      let '(st', stop) := keyLineStep st l in
      if stop then st' else scanKeyLines st' rest
  end.

(** [parseAnswerKey(examText)] of [official-parser.cjs] *)
Definition parseAnswerKey (examText : jsstring) : gmap string (gmap Z Z) :=
  match keyLines examText with
  | None => ∅
  | Some lines => answerKey (scanKeyLines initKeyState lines)
  end.

(** [/\n\n+/] *)
Definition RE_PARAGRAPH_BREAK : regex := Cat (Chr NL) (Plus (Chr NL)).

(** The body of [for (const block of blocks)] in [extractExplanations]. *)
Definition explanationBlockStep (acc : gmap Z jsstring) (block : jsstring)
  : gmap Z jsstring :=
  match exec RE_BLOCK_NUMBER block with
  | None => acc
  | Some numMatch =>
      let qNum := parseInt (group 1 numMatch) in
      let explanation0 :=
        trim (replaceAll RE_ANSWER_LINE [] (replaceFirst RE_QNUM_START_CUT [] block)) in
      let explanation1 :=
        match splitRe RE_PARAGRAPH_BREAK explanation0 with
        | p :: _ => if nonEmpty p then p else explanation0
        | [] => explanation0
        end in
      let explanation2 := capLength 800 explanation1 in
      if 30 <? len explanation2
      then <[qNum := trim (replaceAll RE_WS_RUN [SPACE] explanation2)]> acc
      else acc
  end.

(** [extractExplanations(season, sectionKey)] on the content of the solution
    file. *)
Definition extractExplanations (solFile : option jsstring) : gmap Z jsstring :=
  match solFile with
  | None => ∅
  | Some solText => foldl explanationBlockStep ∅ (splitRe RE_BLOCK_START solText)
  end.

(** An entry of [sectionDefs] of this script. *)
Record SectionDef := mkDef {
  dKey : string;
  dType : SectionType;
  dSection : Z;
  dNameHe : jsstring
}.

Definition sectionDefs : list SectionDef :=
  [ mkDef "verbal-1" Verbal 1 VERBAL_1;
    mkDef "verbal-2" Verbal 2 VERBAL_2;
    mkDef "quantitative-1" Quantitative 1 QUANT_1;
    mkDef "quantitative-2" Quantitative 2 QUANT_2;
    mkDef "english-1" English 1 ENGLISH_1;
    mkDef "english-2" English 2 ENGLISH_2 ].

(** An element of [allQuestions] of this script. *)
Record Question := mkQuestion {
  qId : jsstring;
  questionNumber : Z;
  sectionType : SectionType;
  sectionNumber : Z;
  sectionNameHe : jsstring;
  text : jsstring;
  options : list OptionRec;
  correctAnswer : Z;
  correctAnswerLabel : jsstring;
  explanation : jsstring;
  difficulty : jsstring;
  tags : list jsstring
}.

(** The four fixed options of every question. *)
Definition placeholderOptions : list OptionRec :=
  [ mkOption 1 (utf16 "תשובה א") (utf16 "א");
    mkOption 2 (utf16 "תשובה ב") (utf16 "ב");
    mkOption 3 (utf16 "תשובה ג") (utf16 "ג");
    mkOption 4 (utf16 "תשובה ד") (utf16 "ד") ].

(** ['התשובה הנכונה היא: ' + label] *)
Definition synthesizedExplanation (label : jsstring) : jsstring :=
  utf16 "התשובה הנכונה היא: " ++ label.

(** The body of [for (const qNum of questionNums)]. *)
Definition buildQuestion (season : jsstring) (def : SectionDef)
    (sectionAnswers : gmap Z Z) (explanations : gmap Z jsstring) (qNum : Z)
  : Question :=
  let correctAnswer := default 0 (sectionAnswers !! qNum) in
  let explanation := default [] (explanations !! qNum) in
  let label := labelAt hebrewLabels (Z.to_nat (correctAnswer - 1)) in
  mkQuestion (season ++ utf16 "-" ++ typeName (dType def) ++ utf16 "-"
                ++ toString (dSection def) ++ utf16 "-q" ++ toString qNum)
             qNum (dType def) (dSection def) (dNameHe def)
             (utf16 "שאלה " ++ toString qNum)
             placeholderOptions
             (correctAnswer - 1)
             label
             (if nonEmpty explanation then explanation
              else synthesizedExplanation label)
             (utf16 "medium")
             [typeName (dType def)].

Definition buildSection (season : jsstring) (solutionFile : string → option jsstring)
    (answerKey : gmap string (gmap Z Z)) (def : SectionDef) : list Question :=
  let sectionAnswers := default ∅ (answerKey !! dKey def) in
  let nums := questionNums sectionAnswers in
  if len nums =? 0 then []
  else buildQuestion season def sectionAnswers
         (extractExplanations (solutionFile (dKey def))) <$> nums.

Definition buildAll (season : jsstring) (solutionFile : string → option jsstring)
    (answerKey : gmap string (gmap Z Z)) : list Question :=
  concat (buildSection season solutionFile answerKey <$> sectionDefs).

(** An element of [exam.sections] of this script. *)
Record SectionInfo := mkInfo {
  iType : SectionType;
  iSection : Z;
  iNameHe : jsstring;
  questionCount : Z
}.

(** [sectionDefs.map(def => ...).filter(s => s.questionCount > 0)] *)
Definition sectionInfos (allQuestions : list Question) : list SectionInfo :=
  List.filter (λ s, 0 <? questionCount s)
    ((λ def, mkInfo (dType def) (dSection def) (dNameHe def)
               (len (List.filter
                       (λ q, bool_decide (sectionType q = dType def)
                             && (sectionNumber q =? dSection def))
                       allQuestions))) <$> sectionDefs).

End Official.

(** ** The older parsers

    The section boundaries of the first full parser, which searches the whole
    document for a marker and ends a section at the nearest marker of any
    other section, and the normalizer of the complete-exam parser. *)

Module Legacy.

(** The markers that can end a section, before the section's own marker is
    filtered out. *)
Definition NEXT_SECTIONS : list jsstring :=
  [ VERBAL_2; QUANT_1; QUANT_2; ENGLISH_1; ENGLISH_2; ANSWER_KEY_MARKER;
    utf16 "גיליון תשובות" ].

(** [[...].filter(s => s !== sectionMarker)] *)
Definition nextSections (sectionMarker : jsstring) : list jsstring :=
  List.filter (λ s, negb (strEq s sectionMarker)) NEXT_SECTIONS.

(** The body of [for (const next of nextSections)]. *)
Definition endStep (examText : jsstring) (from : Z) (sectionEnd : Z) (next : jsstring) : Z :=
  let idx := indexOf examText next from in
  if negb (idx =? -1) && (idx <? sectionEnd) then idx else sectionEnd.

(** [sectionEnd] of [extractHebrewSection] for a section that starts at
    [sectionStart]. *)
Definition sectionEnd (examText sectionMarker : jsstring) (sectionStart : Z) : Z :=
  foldl (endStep examText (sectionStart + len sectionMarker)) (len examText)
        (nextSections sectionMarker).

(** The boundary of a Hebrew section: the first occurrence of the marker in
    the document, and the end above; [None] when the marker does not
    occur. *)
Definition sectionBoundary (examText sectionMarker : jsstring) : option (Z * Z) :=
  let s := indexOf examText sectionMarker 0 in
  if s =? -1 then None else Some (s, sectionEnd examText sectionMarker s).

(** [cleanText(text)] of the complete-exam parser: the whitespace stage
    only. *)
Definition cleanText (text : jsstring) : jsstring :=
  match text with
  | [] => []
  | _ :: _ => trim (normalizeSpaces text)
  end.

End Legacy.

(** ** Notions used by the statements below *)

(** The options of the block that the merger selected, none when there is
    no block. *)
Definition extractedOptions (extracted : option QBlock) : list jsstring :=
  match extracted with Some e => qoptions e | None => [] end.

(** An extractor yields no stem and no option for a question: it has no
    block for it, or a block whose stem and options are all empty. *)
Definition yieldsNothing (block : option QBlock) : bool :=
  match block with
  | None => true
  | Some b => negb (nonEmpty (qstem b)) && negb (existsb nonEmpty (qoptions b))
  end.

(** The section key of an emitted question: [sectionDefs] has one entry per
    pair of type and number. *)
Definition questionKey (q : Question) : option string :=
  dKey <$> List.find (λ d, bool_decide (dType d = sectionType q)
                           && (dSection d =? sectionNumber q)) sectionDefs.

(** The count obtained by grouping questions by type and number. *)
Definition countOfSection (allQuestions : list Question) (t : SectionType) (n : Z) : Z :=
  len (List.filter (λ q, bool_decide (sectionType q = t) && (sectionNumber q =? n))
                   allQuestions).

(** The count that the exam document records for a type. *)
Definition recordedCount (e : Exam) (t : SectionType) : Z :=
  match t with
  | Verbal => verbalQuestions (sections e)
  | Quantitative => quantitativeQuestions (sections e)
  | English => englishQuestions (sections e)
  end.

(** The sentinel row of a 23-question section. *)
Definition SENTINEL_23 : jsstring :=
  Eval vm_compute in utf16 "1234567891011121314151617181920212223".

(** A unit that is one of the digits 1 to 4. *)
Definition isAnswerDigit (c : Z) : bool := (49 <=? c) && (c <=? 52).


(** Invariants of the scan of [parseAnswerKey]. *)

(** The keys of the [sections] table. *)
Definition keyNames : list string := keySections.*2.

(** Every recorded answer is between 1 and 4, for a question number that is
    at least 1. *)
Definition validEntries (ak : gmap string (gmap Z Z)) : Prop :=
  ∀ sec m q a, ak !! sec = Some m → m !! q = Some a → 1 ≤ a ≤ 4 ∧ 1 ≤ q.

(** Only keys of the [sections] table occur in the answer key. *)
Definition knownSections (ak : gmap string (gmap Z Z)) : Prop :=
  ∀ sec, is_Some (ak !! sec) → sec ∈ keyNames.

Record KeyInv (st : KeyState) : Prop := mkKeyInv {
  inv_valid : validEntries (answerKey st);
  inv_known : knownSections (answerKey st);
  inv_current : ∀ sec, currentSection st = Some sec →
                       sec ∈ keyNames ∧ is_Some (answerKey st !! sec);
  inv_numbers : ∀ qs, questionNumbers st = Some qs → ∃ k, qs = seqZ 1 k
}.

(** The decoder as a sequence of events. *)















(** Two strings agree on the positions they share: one is a prefix of the
    other. *)
Fixpoint agree (a b : jsstring) : bool :=
  match a, b with
  | x :: a', y :: b' => (x =? y) && agree a' b'
  | _, _ => true
  end.

(** No spelling of [next] can start inside, or at the start of, an
    occurrence of a spelling of [marker]. *)
Definition noOverlap (marker next : jsstring) : bool :=
  forallb (λ v,
    forallb (λ w,
      forallb (λ d, negb (agree (drop d v) w)) (seq 0 (length marker)))
      (variantsOf next))
    (variantsOf marker).

(** The option indices that the three patterns of
    [parseInlineHebrewOptions] find in a line. *)
Definition optionIndices (line : jsstring) : list Z :=
  ((λ m, parseInt (group 2 m)) <$> matchAll RE_RTL_OPTION line)
  ++ ((λ m, parseInt (group 1 m)) <$> matchAll RE_LTR_OPTION line)
  ++ ((λ m, parseInt (group 2 m)) <$> matchAll RE_MIXED_OPTION line).

(** At least two distinct indices between 1 and 4 are found. *)
Definition twoDistinctIndices (line : jsstring) : Prop :=
  ∃ i j, i ≠ j ∧ 1 ≤ i ≤ 4 ∧ 1 ≤ j ≤ 4
         ∧ i ∈ optionIndices line ∧ j ∈ optionIndices line.

(** Direct descriptions of what the matcher computes on a class, used to
    reason about the whitespace patterns. *)

(** The length of the longest prefix whose units are all in the class. *)
Fixpoint span (p : Z → bool) (s : jsstring) : nat :=
  match s with
  | c :: t => if p c then S (span p t) else O
  | [] => O
  end.

(** What [run (Star (Cls p)) k] does: the continuation is tried after the
    longest run first, then after shorter ones. *)
Fixpoint greedyCls (p : Z → bool) (k : mstate → option mstate)
    (sn ah : jsstring) (cs : list (nat * jsstring)) : option mstate :=
  match ah with
  | c :: t =>
      if p c then
        match greedyCls p k (c :: sn) t cs with
        | Some e => Some e
        | None => k (mkM sn ah cs)
        end
      else k (mkM sn ah cs)
  | [] => k (mkM sn [] cs)
  end.

(** Whitespace runs replaced by one space; [inWs] tells that the previous
    unit was whitespace. *)
Fixpoint collapseAux (inWs : bool) (s : jsstring) : jsstring :=
  match s with
  | [] => []
  | c :: t =>
      if isWs c then
        if inWs then collapseAux true t else SPACE :: collapseAux true t
      else c :: collapseAux false t
  end.

Definition collapseWs (s : jsstring) : jsstring := collapseAux false s.

(** Every whitespace unit is a space and no two of them are adjacent;
    [prevWs] tells that the unit before the string is whitespace. *)
Fixpoint wellSpaced (prevWs : bool) (s : jsstring) : bool :=
  match s with
  | [] => true
  | c :: t =>
      if isWs c then (c =? SPACE) && negb prevWs && wellSpaced true t
      else wellSpaced false t
  end.

(** *** Notions of the further properties *)

(** The property names that every JavaScript object inherits from
    [Object.prototype].  For a marker with one of these names
    [SECTION_VARIANTS[marker]] is not [undefined] but an inherited function
    (or, for [__proto__], the prototype object), which the loop of
    [findSectionMarker] cannot iterate: the call throws, where [variantsOf]
    falls back to the marker.  The script passes no such marker. *)
Definition INHERITED_NAMES : list jsstring :=
  Eval vm_compute in
    utf16 <$> [ "constructor"; "hasOwnProperty"; "isPrototypeOf";
                "propertyIsEnumerable"; "toLocaleString"; "toString"; "valueOf";
                "__proto__"; "__defineGetter__"; "__defineSetter__";
                "__lookupGetter__"; "__lookupSetter__" ]%string.

(** A marker for which [SECTION_VARIANTS[marker]] is an entry of the table
    or [undefined]. *)
Definition plainMarker (marker : jsstring) : bool :=
  negb (existsb (strEq marker) INHERITED_NAMES).

(** The sentinel row of a section of [k] questions: the numbers 1 to [k]
    written one after the other. *)
Definition sentinelRow (k : nat) : jsstring :=
  concat (toString <$> seqZ 1 (Z.of_nat k)).

(** The line holds no line feed. *)
Definition noNewline (line : jsstring) : bool := forallb (λ c, negb (c =? NL)) line.

(** The four slots of a recognized option sequence: at least one is filled,
    and every slot is trimmed. *)
Definition optionSlots (opts : list jsstring) : Prop :=
  length opts = 4%nat ∧ existsb nonEmpty opts = true ∧ Forall (λ o, trim o = o) opts.

(** The same for the accumulator of [parseInlineHebrewOptions], whose flag
    tells that a slot was filled. *)
Definition slotsInv (acc : list jsstring * bool) : Prop :=
  length acc.1 = 4%nat
  ∧ (acc.2 = true → existsb nonEmpty acc.1 = true)
  ∧ Forall (λ o, trim o = o) acc.1.





(** Every block of a map of extracted questions has four option slots. *)
Definition fourOptions (qs : gmap Z QBlock) : Prop :=
  ∀ n b, qs !! n = Some b → length (qoptions b) = 4%nat.

(** The invariants of the two line scans: four slots in the options under
    construction and in every block stored. *)
Definition hebInv (st : HebState) : Prop :=
  length (hOptions st) = 4%nat ∧ fourOptions (hQuestions st).

Definition engInv (st : EngState) : Prop :=
  length (eOptions st) = 4%nat ∧ fourOptions (eQuestions st).

(** A raw line that the scan of a Hebrew section reads as the start of a
    question. *)
Definition isQuestionLine (rawLine : jsstring) : bool :=
  match classifyHebrewLine (trim rawLine) with
  | HQuestion _ _ => true
  | _ => false
  end.

(** A raw line that has the form of a question number of an English
    section. *)
Definition hasEnglishNumber (rawLine : jsstring) : bool :=
  match exec RE_EN_QNUM (trim rawLine) with Some _ => true | None => false end.

(** Two states of the scan of an English section that the rest of the scan
    cannot tell apart: they are equal, or no question is open in either and
    they hold the same questions. *)
Definition engAlike (st1 st2 : EngState) : Prop :=
  st1 = st2
  ∨ (eCurrentQ st1 = None ∧ eCurrentQ st2 = None ∧ eQuestions st1 = eQuestions st2).

(** What [extractFromSolution] can store: numbers 1 to 30, explanations of 21
    to 1503 units, stems of 16 to 303 units with four empty options. *)
Definition explanationsBounded (m : gmap Z jsstring) : Prop :=
  ∀ n x, m !! n = Some x → 1 ≤ n ≤ 30 ∧ 20 < len x ≤ 1503.
Definition fallbacksBounded (m : gmap Z QBlock) : Prop :=
  ∀ n b, m !! n = Some b →
         1 ≤ n ≤ 30 ∧ 15 < len (qstem b) ≤ 303 ∧ qoptions b = emptyOptions.

(** A question as the output format promises it: options 1 to 4 with the
    labels of its language and a text each. *)
Definition optionsWellFormed (q : Question) : Prop :=
  optId <$> options q = [1; 2; 3; 4]
  ∧ optLabel <$> options q = labelsOf (language q)
  ∧ Forall (λ o, nonEmpty (optText o) = true) (options q).

(** The answer of a question is the id of one of its options; its number
    is positive, its stem not shorter than three units. *)
Definition answerWellFormed (season : jsstring) (q : Question) : Prop :=
  1 ≤ correctAnswer q ≤ 4
  ∧ (∃ o, o ∈ options q ∧ optId o = correctAnswer q)
  ∧ 1 ≤ questionNumber q
  ∧ 3 ≤ len (stem q)
  ∧ examId q = season.

(** Whether the last unit of [x] is whitespace; [b] when [x] is empty. *)
Definition lastWs (b : bool) (x : jsstring) : bool :=
  match last x with Some c => isWs c | None => b end.

(** Every stem of a map of blocks is single-spaced. *)
Definition stemsSpaced (qs : gmap Z QBlock) : Prop :=
  ∀ n b, qs !! n = Some b → wellSpaced false (qstem b) = true.

(** The number of entries of an answer key: question numbers over all its
    sections. *)
Definition keyEntries (ak : gmap string (gmap Z Z)) : Z :=
  map_fold (λ _ m acc, Z.of_nat (size m) + acc) 0 ak.

(** The place of a question's section in the canonical order: verbal 1 and 2,
    quantitative 1 and 2, english 1 and 2. *)
Definition typeRank (t : SectionType) : Z :=
  match t with Verbal => 0 | Quantitative => 2 | English => 4 end.
Definition sectionRank (q : Question) : Z := typeRank (sectionType q) + sectionNumber q.

(** A question comes before another in the output: an earlier section, or
    the same section and a smaller number. *)
Definition precedes (q1 q2 : Question) : Prop :=
  sectionRank q1 < sectionRank q2
  ∨ (sectionRank q1 = sectionRank q2 ∧ questionNumber q1 < questionNumber q2).

(** The sum of a field over a list of records. *)
Definition sumOf {A} (f : A → Z) (l : list A) : Z := foldr (λ x acc, f x + acc) 0 l.

(** The invariant of the loop that builds the index. *)
Definition indexInv (acc : list ExamSummary * Z * Z) : Prop :=
  acc.1.2 = sumOf sTotalQuestions acc.1.1
  ∧ acc.2 = sumOf sFullTextQuestions acc.1.1
  ∧ Forall (λ s, 0 ≤ sFullTextQuestions s ≤ sTotalQuestions s) acc.1.1.

(** A question of the answers-only parser as its consumers read it: the
    0-based answer, its label, the fixed options, an explanation. *)
Definition officialWellFormed (q : Official.Question) : Prop :=
  0 ≤ Official.correctAnswer q ≤ 3
  ∧ hebrewLabels !! Z.to_nat (Official.correctAnswer q)
    = Some (Official.correctAnswerLabel q)
  ∧ nonEmpty (Official.explanation q) = true
  ∧ len (Official.explanation q) ≤ 803
  ∧ Official.options q = Official.placeholderOptions
  ∧ 1 ≤ Official.questionNumber q
  ∧ (Official.sectionNumber q = 1 ∨ Official.sectionNumber q = 2).

(** ** Sample inputs

    Concrete documents and states at which the statements below are
    evaluated. *)



(** The state of the decoder after the header line of the first section. *)
Definition afterHeader : KeyState := (keyLineStep initKeyState VERBAL_1).1.

(** The state of the decoder after a table of 30 answers in the first
    section. *)
Definition afterLongerTable : KeyState :=
  scanKeyLines afterHeader
    [utf16 "123456789101112131415161718192021222324252627282930";
     utf16 "123412341234123412341234123412"].

(** An answer-key block, to be preceded by different texts. *)
Definition keyBlock : jsstring := utf16 "מפתח תשובות נכונות
חשיבה מילולית - פרק ראשון
12345678910
1234123412
".

Definition twoSectionKeyText : jsstring := utf16 "מפתח תשובות נכונות
חשיבה מילולית - פרק ראשון
12345678910
1234123412
חשיבה מילולית - פרק שני
12345678910
4321432143
חישוב אומדן
".

Definition keyOnlyFiles : ExamFiles := mkFiles (Some twoSectionKeyText) (λ _, None).

Definition SPRING : jsstring := utf16 "spring-2025".
Definition SPRING_HE : jsstring := utf16 "אביב 2025".

(** The exam that [parseExam] builds from [keyOnlyFiles]. *)
Definition keyOnlyExam : Exam :=
  assembleExam SPRING SPRING_HE
    (mergeAll SPRING twoSectionKeyText keyOnlyFiles (parseAnswerKey twoSectionKeyText)).

Definition VERBAL_1_DEF : SectionDef := mkDef "verbal-1" Verbal 1 VERBAL_1 He.
Definition ENGLISH_1_DEF : SectionDef := mkDef "english-1" English 1 ENGLISH_1 En.

Definition PADDING : jsstring := replicate 1000 120.

(** A document with the first two sections in canonical order, and one with
    the two markers swapped. *)
Definition orderedText : jsstring :=
  PADDING ++ VERBAL_1 ++ utf16 "
1. first question
" ++ VERBAL_2 ++ utf16 "
1. second question
".
Definition swappedText : jsstring :=
  PADDING ++ VERBAL_2 ++ [NL] ++ VERBAL_1 ++ [NL].

(** An extracted stem that begins with the word of the placeholder, and one
    of three units. *)
Definition GENUINE_STEM : jsstring := utf16 "שאלה זו עוסקת במספרים זוגיים".
Definition SHORT_STEM : jsstring := utf16 "Who".

(** The text of a second section, placed after the scoring marker. *)
Definition afterScoring : jsstring := utf16 "חשיבה מילולית - פרק שני
12345678910
4321432143
".

(** A line of four right-to-left options, and a line of stem text. *)
Definition RTL_LINE : jsstring := utf16 "10 )1( 12 )2( 16 )3( 18 )4(".

(** A document shorter than the table-of-contents skip. *)
Definition shortText : jsstring := VERBAL_1 ++ utf16 "
1. first question
(1) a (2) b (3) c (4) d
".

(** Two sections from the start of a document, as the older segmenter reads
    them. *)
Definition legacyText : jsstring := VERBAL_1 ++ utf16 "
1. first question
" ++ VERBAL_2 ++ utf16 "
1. second question
".

(** The lines of an English section before its first question, and a
    question. *)
Definition englishPreamble : list jsstring :=
  [ENGLISH_1; utf16 "Text I (Questions 1-5)"; utf16 "(1) a line of the passage";
   utf16 "Questions"].
Definition englishQuestion : list jsstring :=
  [utf16 "1. The word closest in meaning to big is -";
   utf16 "(1) large (2) small (3) red (4) odd"].

(** The lines of a section before its first question, and a question. *)
Definition preamble : list jsstring :=
  [VERBAL_1; utf16 "בפרק זה 23 שאלות."; utf16 "  "; utf16 "הוראות לדוגמה"].
Definition firstQuestion : list jsstring :=
  [utf16 "1. כמה הם 5 ועוד 5?"; RTL_LINE].

(** * Properties *)

(** ** Strings *)

Lemma startsWith_prefix s p : startsWith s p = true ↔ ∃ r, s = p ++ r.
Proof.
  revert s. induction p as [|a p IH]; intros s; simpl.
  - split; [by exists s|done].
  - destruct s as [|b s]; simpl.
    + split; [done|]. intros [r Hr]. discriminate.
    + rewrite andb_true_iff, IH, Z.eqb_eq. split.
      * intros [-> [r ->]]. eauto.
      * intros [r Hr]. injection Hr as -> ->. eauto.
Qed.

Lemma startsWith_Forall (P : Z → Prop) s p :
  startsWith s p = true → Forall P s → Forall P p.
Proof.
  rewrite startsWith_prefix. intros [r ->] H.
  by apply Forall_app in H as [? _].
Qed.

Lemma findFrom_found (P : Z → Prop) p s pos :
  findFrom p s pos ≠ -1 → 0 ≤ pos → Forall P s → Forall P p.
Proof.
  revert pos. induction s as [|c s IH]; intros pos; simpl.
  - destruct (startsWith [] p) eqn:E; [|done].
    intros _ _ H. by eapply startsWith_Forall.
  - destruct (startsWith (c :: s) p) eqn:E.
    + intros _ _ H. by eapply startsWith_Forall.
    + intros Hf Hp H. apply Forall_cons in H as [_ H].
      apply (IH (pos + 1)); [done|lia|done].
Qed.

Lemma includes_Forall (P : Z → Prop) line pat :
  includes line pat = true → Forall P line → Forall P pat.
Proof.
  unfold includes, indexOf. rewrite negb_true_iff, Z.eqb_neq.
  intros Hf H. eapply findFrom_found; [exact Hf| |].
  - unfold clamp. lia.
  - by apply Forall_drop.
Qed.

Lemma forallb_Forall (P : Z → bool) l :
  forallb P l = true ↔ Forall (λ c, P c = true) l.
Proof.
  induction l as [|c l IH]; simpl.
  - split; [constructor|done].
  - rewrite andb_true_iff, IH, Forall_cons. done.
Qed.

Lemma includes_false_of (P : Z → bool) line pat :
  forallb P line = true → forallb P pat = false → includes line pat = false.
Proof.
  intros Hl Hp. destruct (includes line pat) eqn:E; [|done].
  apply (includes_Forall (λ c, P c = true)) in E.
  - apply forallb_Forall in E. congruence.
  - by apply forallb_Forall.
Qed.

(** ** The answer key decoder *)

Lemma matchSection_known secs line key :
  matchSection secs line = Some key → key ∈ secs.*2.
Proof.
  induction secs as [|[pat k] secs IH]; simpl; [done|].
  destruct (includes line pat).
  - intros [= ->]. left.
  - intros H. right. auto.
Qed.

Lemma matchSection_none_of (P : Z → bool) secs line :
  forallb P line = true →
  Forall (λ e, forallb P e.1 = false) secs →
  matchSection secs line = None.
Proof.
  intros Hl. induction 1 as [|[pat k] secs Hp _ IH]; simpl; [done|].
  by rewrite (includes_false_of P).
Qed.

(** *** [saveAnswers] *)

Lemma saveOne_cases sec ak q c :
  (saveOne sec ak (q, c) = ak) ∨
  (∃ a, parseDigit c = Some a ∧ 1 ≤ a ≤ 4 ∧
        saveOne sec ak (q, c) = <[sec := <[q := a]> (default ∅ (ak !! sec))]> ak).
Proof.
  unfold saveOne; simpl. destruct (parseDigit c) as [a|]; [|by left].
  destruct ((1 <=? a) && (a <=? 4)) eqn:E; [|by left].
  right. exists a. apply andb_true_iff in E as [?%Z.leb_le ?%Z.leb_le]. done.
Qed.

Lemma saveOne_inrange sec ak q c :
  isAnswerDigit c = true →
  saveOne sec ak (q, c) = <[sec := <[q := c - 48]> (default ∅ (ak !! sec))]> ak.
Proof.
  unfold isAnswerDigit, saveOne, parseDigit, isDigit; simpl.
  rewrite andb_true_iff. intros [?%Z.leb_le ?%Z.leb_le].
  replace (48 <=? c) with true by (symmetry; apply Z.leb_le; lia).
  replace (c <=? 57) with true by (symmetry; apply Z.leb_le; lia).
  simpl.
  replace (1 <=? c - 48) with true by (symmetry; apply Z.leb_le; lia).
  replace (c - 48 <=? 4) with true by (symmetry; apply Z.leb_le; lia).
  done.
Qed.

Lemma validEntries_insert ak sec m :
  validEntries ak →
  (∀ q a, m !! q = Some a → 1 ≤ a ≤ 4 ∧ 1 ≤ q) →
  validEntries (<[sec := m]> ak).
Proof.
  intros Hv Hm sec' m' q a. rewrite lookup_insert. case_decide.
  - intros [= <-]. apply Hm.
  - apply Hv.
Qed.

Lemma saveOne_valid sec ak q c :
  validEntries ak → 1 ≤ q → validEntries (saveOne sec ak (q, c)).
Proof.
  intros Hv Hq. destruct (saveOne_cases sec ak q c) as [->|(a & _ & Ha & ->)]; [done|].
  apply validEntries_insert; [done|].
  intros q' a'. rewrite lookup_insert. case_decide.
  - intros [= <-]. subst. done.
  - destruct (ak !! sec) as [m|] eqn:E; simpl.
    + intros ?. by eapply Hv.
    + by rewrite lookup_empty.
Qed.

Lemma foldl_saveOne_valid sec qs cs ak :
  validEntries ak → Forall (λ q, 1 ≤ q) qs →
  validEntries (foldl (saveOne sec) ak (zip qs cs)).
Proof.
  intros Hv Hq. revert cs ak Hv.
  induction Hq as [|q qs Hq _ IH]; intros cs ak Hv; [done|].
  destruct cs as [|c cs]; simpl; [done|].
  apply IH. by apply saveOne_valid.
Qed.

Lemma saveOne_known sec ak qa :
  knownSections ak → sec ∈ keyNames → knownSections (saveOne sec ak qa).
Proof.
  intros Hk Hs. destruct qa as [q c].
  destruct (saveOne_cases sec ak q c) as [->|(a & _ & _ & ->)]; [done|].
  intros sec'. rewrite lookup_insert. case_decide; [by subst|apply Hk].
Qed.

Lemma foldl_saveOne_known sec l ak :
  knownSections ak → sec ∈ keyNames → knownSections (foldl (saveOne sec) ak l).
Proof.
  intros Hk Hs. revert ak Hk. induction l as [|qa l IH]; intros ak Hk; simpl; [done|].
  apply IH. by apply saveOne_known.
Qed.

Lemma saveOne_is_Some sec sec' ak qa :
  is_Some (ak !! sec') → is_Some (saveOne sec ak qa !! sec').
Proof.
  intros Hs. destruct qa as [q c].
  destruct (saveOne_cases sec ak q c) as [->|(a & _ & _ & ->)]; [done|].
  rewrite lookup_insert. case_decide; [eauto|done].
Qed.

Lemma foldl_saveOne_is_Some sec sec' l ak :
  is_Some (ak !! sec') → is_Some (foldl (saveOne sec) ak l !! sec').
Proof.
  revert ak. induction l as [|qa l IH]; intros ak Hs; simpl; [done|].
  apply IH. by apply saveOne_is_Some.
Qed.

Lemma seqZ_ge_1 k : Forall (λ q, 1 ≤ q) (seqZ 1 k).
Proof. apply Forall_seqZ. lia. Qed.

Lemma saveAnswers_valid st : KeyInv st → validEntries (saveAnswers st).
Proof.
  intros [Hv _ _ Hq]. unfold saveAnswers.
  destruct (currentSection st) as [sec|]; [|done].
  destruct (questionNumbers st) as [qs|]; [|done].
  destruct (0 <? len (collectedAnswers st)); [|done].
  destruct (Hq qs eq_refl) as [k ->].
  apply foldl_saveOne_valid; [done|apply seqZ_ge_1].
Qed.

Lemma saveAnswers_known st : KeyInv st → knownSections (saveAnswers st).
Proof.
  intros [_ Hk Hc _]. unfold saveAnswers.
  destruct (currentSection st) as [sec|]; [|done].
  destruct (questionNumbers st) as [qs|]; [|done].
  destruct (0 <? len (collectedAnswers st)); [|done].
  apply foldl_saveOne_known; [done|]. by apply Hc.
Qed.

Lemma saveAnswers_is_Some st sec' :
  is_Some (answerKey st !! sec') → is_Some (saveAnswers st !! sec').
Proof.
  intros Hs. unfold saveAnswers.
  destruct (currentSection st) as [sec|]; [|done].
  destruct (questionNumbers st) as [qs|]; [|done].
  destruct (0 <? len (collectedAnswers st)); [|done].
  by apply foldl_saveOne_is_Some.
Qed.

(** *** The sentinel row decodes to 1, 2, ..., k *)

Lemma sentinelLoop_seq fuel rest num acc :
  ∃ k, 0 ≤ k ∧ sentinelLoop fuel rest num acc = acc ++ seqZ num k.
Proof.
  revert rest num acc. induction fuel as [|fuel IH]; intros rest num acc; simpl.
  - exists 0. by rewrite seqZ_nil, app_nil_r.
  - destruct rest as [|c rest].
    { exists 0. by rewrite seqZ_nil, app_nil_r. }
    destruct (startsWith (c :: rest) (toString num)).
    + destruct (IH (drop (length (toString num)) (c :: rest)) (num + 1) (acc ++ [num]))
        as (k & Hk & ->).
      exists (k + 1). split; [lia|].
      rewrite <-app_assoc. f_equal. simpl.
      rewrite (seqZ_cons num (k + 1)) by lia. f_equal. f_equal; lia.
    + exists 0. by rewrite seqZ_nil, app_nil_r.
Qed.

Lemma decodeSentinel_seq line : ∃ k, decodeSentinel line = seqZ 1 k.
Proof.
  destruct (sentinelLoop_seq (length line) line 1 []) as (k & _ & H). by exists k.
Qed.

(** *** The steps preserve the invariant *)

Lemma KeyInv_init : KeyInv initKeyState.
Proof.
  split; simpl.
  - intros sec m q a. by rewrite lookup_empty.
  - intros sec [m Hm]. by rewrite lookup_empty in Hm.
  - done.
  - done.
Qed.

Lemma headerStep_inv st line : KeyInv st → KeyInv (headerStep st line).
Proof.
  intros Hi. unfold headerStep.
  destruct (matchSection keySections line) as [key|] eqn:E; [|done].
  apply matchSection_known in E.
  split; simpl.
  - apply validEntries_insert; [by apply saveAnswers_valid|].
    intros q a. by rewrite lookup_empty.
  - intros sec. rewrite lookup_insert. case_decide; [by subst|].
    by apply saveAnswers_known.
  - intros sec [= <-]. split; [done|]. rewrite lookup_insert_eq. eauto.
  - done.
Qed.

Lemma collect_inv st qs line :
  KeyInv st → (∃ k, qs = seqZ 1 k) → KeyInv (collect st qs line).
Proof.
  intros Hi Hq. unfold collect.
  set (st' := mkKeyState _ _ (Some qs) _).
  assert (KeyInv st') as Hi'.
  { destruct Hi. split; simpl; try done. by intros ? [= <-]. }
  destruct (len qs <=? len (collectedAnswers st ++ line)); [|done].
  split; simpl.
  - by apply saveAnswers_valid.
  - by apply saveAnswers_known.
  - intros sec Hs. destruct (inv_current _ Hi sec Hs) as [? ?]. split; [done|].
    by apply (saveAnswers_is_Some st').
  - done.
Qed.

Lemma digitStep_inv st line : KeyInv st → KeyInv (digitStep st line).
Proof.
  intros Hi. unfold digitStep.
  destruct (currentSection st) as [sec|] eqn:Hs; [|done].
  destruct (allDigits line && (10 <? len line)).
  - destruct (startsWith line SENTINEL_PREFIX).
    + destruct Hi as [Hv Hk Hc Hn]. split; simpl; try done.
      * intros s [= <-]. by apply Hc.
      * intros qs [= <-]. apply decodeSentinel_seq.
    + destruct (questionNumbers st) as [qs|] eqn:Hq; [|done].
      apply collect_inv; [done|]. by apply (inv_numbers _ Hi).
  - destruct (questionNumbers st) as [qs|] eqn:Hq; [|done].
    destruct (allDigits line); [|done].
    apply collect_inv; [done|]. by apply (inv_numbers _ Hi).
Qed.

Lemma keyLineStep_inv st raw : KeyInv st → KeyInv (keyLineStep st raw).1.
Proof.
  intros Hi. unfold keyLineStep.
  pose proof (digitStep_inv _ (trim raw) (headerStep_inv _ (trim raw) Hi)) as H2.
  destruct (includes (trim raw) SCORING_MARKER); simpl; [|done].
  split; simpl.
  - by apply saveAnswers_valid.
  - by apply saveAnswers_known.
  - intros sec Hs. destruct (inv_current _ H2 sec Hs) as [? ?]. split; [done|].
    by apply saveAnswers_is_Some.
  - by apply (inv_numbers _ H2).
Qed.

Lemma scanKeyLines_inv lines st : KeyInv st → KeyInv (scanKeyLines st lines).
Proof.
  revert st. induction lines as [|l lines IH]; intros st Hi; simpl; [done|].
  pose proof (keyLineStep_inv st l Hi) as H.
  destruct (keyLineStep st l) as [st' stop]; simpl in H.
  destruct stop; [done|]. by apply IH.
Qed.

Lemma parseAnswerKey_valid text : validEntries (parseAnswerKey text).
Proof.
  unfold parseAnswerKey. destruct (keyLines text) as [lines|].
  - apply (inv_valid _ (scanKeyLines_inv lines _ KeyInv_init)).
  - intros sec m q a. by rewrite lookup_empty.
Qed.

Lemma parseAnswerKey_known text : knownSections (parseAnswerKey text).
Proof.
  unfold parseAnswerKey. destruct (keyLines text) as [lines|].
  - apply (inv_known _ (scanKeyLines_inv lines _ KeyInv_init)).
  - intros sec [m Hm]. by rewrite lookup_empty in Hm.
Qed.

(** *** The decoder as a sequence of events *)








(** *** The entries of a section are its paired answer digits *)






(** *** The paired question numbers are runs 1, 2, ..., n *)











(** *** A sentinel row followed by answer lines *)

Lemma isAnswerDigit_not_ws c : isAnswerDigit c = true → isWs c = false.
Proof.
  unfold isAnswerDigit, isWs. rewrite andb_true_iff.
  intros [?%Z.leb_le ?%Z.leb_le].
  repeat match goal with
  | |- context [?a =? ?b] => replace (a =? b) with false by (symmetry; apply Z.eqb_neq; lia)
  | |- context [8192 <=? c] => replace (8192 <=? c) with false by (symmetry; apply Z.leb_gt; lia)
  end.
  reflexivity.
Qed.

Lemma isAnswerDigit_digit c : isAnswerDigit c = true → isDigit c = true.
Proof.
  unfold isAnswerDigit, isDigit. rewrite !andb_true_iff.
  intros [?%Z.leb_le ?%Z.leb_le]. split; apply Z.leb_le; lia.
Qed.

Lemma trim_no_ws (P : Z → bool) s :
  (∀ c, P c = true → isWs c = false) → forallb P s = true → trim s = s.
Proof.
  intros HP Hs. unfold trim, trimEnd.
  assert (∀ t, forallb P t = true → trimStart t = t) as Ht.
  { intros [|c t]; simpl; [done|]. rewrite andb_true_iff. intros [Hc _].
    by rewrite (HP c Hc). }
  rewrite (Ht s Hs), Ht, rev_involutive; [done|].
  apply forallb_Forall, Forall_rev. by apply forallb_Forall.
Qed.

Lemma answerLine_trim l : forallb isAnswerDigit l = true → trim l = l.
Proof. apply trim_no_ws, isAnswerDigit_not_ws. Qed.

Lemma forallb_impl {A} (P Q : A → bool) l :
  (∀ x, P x = true → Q x = true) → forallb P l = true → forallb Q l = true.
Proof.
  intros HPQ. induction l as [|x l IH]; simpl; [done|].
  rewrite !andb_true_iff. intros [? ?]. auto.
Qed.

Lemma answerLine_allDigits l :
  l ≠ [] → forallb isAnswerDigit l = true → allDigits l = true.
Proof.
  intros Hne Hl. unfold allDigits. apply andb_true_iff. split.
  - destruct l; [done|]. unfold len. simpl length. apply negb_true_iff, Z.eqb_neq. lia.
  - eapply forallb_impl; [apply isAnswerDigit_digit|done].
Qed.

Lemma answerLine_not_sentinel l :
  forallb isAnswerDigit l = true → startsWith l SENTINEL_PREFIX = false.
Proof.
  intros Hl. destruct (startsWith l SENTINEL_PREFIX) eqn:E; [|done].
  apply (startsWith_Forall (λ c, isAnswerDigit c = true)) in E; [|by apply forallb_Forall].
  apply forallb_Forall in E. by vm_compute in E.
Qed.

Lemma answerLine_no_section l :
  forallb isAnswerDigit l = true → matchSection keySections l = None.
Proof.
  intros Hl. apply (matchSection_none_of isAnswerDigit); [done|].
  repeat constructor.
Qed.

Lemma answerLine_no_scoring l :
  forallb isAnswerDigit l = true → includes l SCORING_MARKER = false.
Proof. intros Hl. by apply (includes_false_of isAnswerDigit). Qed.

Lemma keyLineStep_answerLine st l :
  forallb isAnswerDigit l = true → keyLineStep st l = (digitStep st l, false).
Proof.
  intros Hl. unfold keyLineStep, headerStep.
  by rewrite (answerLine_trim l Hl), (answerLine_no_section l Hl),
    (answerLine_no_scoring l Hl).
Qed.

Lemma digitStep_empty st : digitStep st [] = st.
Proof.
  unfold digitStep. destruct (currentSection st); [|done].
  replace (allDigits []) with false by reflexivity. cbn [andb].
  by destruct (questionNumbers st).
Qed.

Lemma digitStep_answerLine ak sec qs c l :
  l ≠ [] → forallb isAnswerDigit l = true →
  digitStep (mkKeyState ak (Some sec) (Some qs) c) l
  = collect (mkKeyState ak (Some sec) (Some qs) c) qs l.
Proof.
  intros Hne Hl. unfold digitStep. cbn [currentSection questionNumbers].
  rewrite (answerLine_allDigits l Hne Hl), (answerLine_not_sentinel l Hl).
  cbn [andb]. by destruct (10 <? len l).
Qed.

Lemma scan_empty_lines lines st :
  Forall (λ l, l = []) lines → scanKeyLines st lines = st.
Proof.
  intros H. revert st. induction H as [|l lines -> _ IH]; intros st; cbn [scanKeyLines]; [done|].
  rewrite keyLineStep_answerLine by done. rewrite digitStep_empty. apply IH.
Qed.

Lemma concat_nil_Forall (ls : list jsstring) :
  concat ls = [] → Forall (λ l, l = []) ls.
Proof.
  induction ls as [|l ls IH]; simpl; [constructor|].
  intros [-> ?]%app_eq_nil. constructor; auto.
Qed.

Lemma len_app {A} (a b : list A) : len (a ++ b) = len a + len b.
Proof. unfold len. rewrite length_app. lia. Qed.

Lemma len_nonneg {A} (a : list A) : 0 ≤ len a.
Proof. unfold len. lia. Qed.

Lemma len_zero {A} (a : list A) : len a = 0 → a = [].
Proof. unfold len. destruct a; [done|]. simpl. lia. Qed.

Lemma scan_answers ak sec qs : ∀ answers c,
  Forall (λ l, forallb isAnswerDigit l = true) answers →
  len c < len qs →
  len (c ++ concat answers) = len qs →
  scanKeyLines (mkKeyState ak (Some sec) (Some qs) c) answers
  = mkKeyState (saveAnswers (mkKeyState ak (Some sec) (Some qs) (c ++ concat answers)))
               (Some sec) None [].
Proof.
  induction answers as [|l rest IH]; intros c Hall Hc Htot.
  { simpl in Htot. rewrite app_nil_r in Htot. lia. }
  apply Forall_cons in Hall as [Hl Hrest].
  cbn [scanKeyLines]. rewrite keyLineStep_answerLine by done.
  destruct (decide (l = [])) as [->|Hne].
  { rewrite digitStep_empty. by apply IH. }
  rewrite digitStep_answerLine by done. unfold collect.
  cbn [collectedAnswers answerKey currentSection concat].
  cbn [concat] in Htot. rewrite app_assoc in Htot.
  destruct (len qs <=? len (c ++ l)) eqn:E.
  - apply Z.leb_le in E. rewrite len_app in Htot.
    pose proof (len_nonneg (concat rest)).
    assert (concat rest = []) as Hnil by (apply len_zero; lia).
    rewrite scan_empty_lines by (by apply concat_nil_Forall).
    by rewrite Hnil, app_nil_r.
  - apply Z.leb_gt in E. rewrite IH; [|done|done|done].
    by rewrite app_assoc.
Qed.

(** What the loop of [saveAnswers] leaves in the section, for digits
    between 1 and 4. *)
Lemma foldl_saveOne_hit sec : ∀ cs j k ak i c,
  forallb isAnswerDigit cs = true →
  cs !! i = Some c → Z.of_nat i < k →
  default ∅ (foldl (saveOne sec) ak (zip (seqZ j k) cs) !! sec) !! (j + Z.of_nat i)
  = Some (c - 48).
Proof.
  assert (∀ cs j k ak q, q < j →
    default ∅ (foldl (saveOne sec) ak (zip (seqZ j k) cs) !! sec) !! q
    = default ∅ (ak !! sec) !! q) as Hbelow.
  { induction cs as [|c cs IH]; intros j k ak q Hq.
    { by rewrite zip_with_nil_r. }
    destruct (decide (0 < k)) as [Hk|Hk]; [|by rewrite seqZ_nil by lia].
    rewrite seqZ_cons by done. cbn [zip zip_with foldl].
    rewrite IH by lia.
    destruct (saveOne_cases sec ak j c) as [->|(a & _ & _ & ->)]; [done|].
    rewrite lookup_insert_eq. cbn [from_option id]. rewrite lookup_insert_ne by lia. done. }
  induction cs as [|c0 cs IH]; intros j k ak i c Hall Hi Hk; [done|].
  cbn [forallb] in Hall. apply andb_true_iff in Hall as [Hc0 Hall].
  rewrite seqZ_cons by lia. cbn [zip zip_with foldl].
  rewrite saveOne_inrange by done.
  destruct i as [|i].
  - injection Hi as <-. rewrite Z.add_0_r, Hbelow by lia.
    rewrite lookup_insert_eq. cbn [from_option id]. by rewrite lookup_insert_eq.
  - cbn in Hi. replace (j + Z.of_nat (S i)) with (Z.succ j + Z.of_nat i) by lia.
    apply IH; [done|done|lia].
Qed.

Lemma foldl_saveOne_miss sec : ∀ cs j k ak q,
  ¬ (j ≤ q < j + Z.min k (len cs)) →
  default ∅ (foldl (saveOne sec) ak (zip (seqZ j k) cs) !! sec) !! q
  = default ∅ (ak !! sec) !! q.
Proof.
  induction cs as [|c cs IH]; intros j k ak q Hq.
  { by rewrite zip_with_nil_r. }
  destruct (decide (0 < k)) as [Hk|Hk]; [|by rewrite seqZ_nil by lia].
  rewrite seqZ_cons by done. cbn [zip zip_with foldl].
  assert (len (c :: cs) = len cs + 1) as Hlen by (unfold len; simpl length; lia).
  pose proof (len_nonneg cs).
  rewrite IH by lia.
  destruct (saveOne_cases sec ak j c) as [->|(a & _ & _ & ->)]; [done|].
  rewrite lookup_insert_eq. cbn [from_option id]. rewrite lookup_insert_ne by lia. done.
Qed.

Lemma foldl_saveOne_section sec l ak :
  is_Some (ak !! sec) →
  foldl (saveOne sec) ak l !! sec
  = Some (default ∅ (foldl (saveOne sec) ak l !! sec)).
Proof.
  intros H. destruct (foldl_saveOne_is_Some sec sec l ak H) as [m ->]. done.
Qed.

Lemma SENTINEL_23_decodes : decodeSentinel SENTINEL_23 = seqZ 1 23.
Proof. by vm_compute. Qed.

Lemma keyLineStep_SENTINEL_23 st sec :
  currentSection st = Some sec →
  keyLineStep st SENTINEL_23
  = (mkKeyState (answerKey st) (Some sec) (Some (seqZ 1 23)) [], false).
Proof.
  intros Hs. unfold keyLineStep, headerStep, digitStep.
  replace (trim SENTINEL_23) with SENTINEL_23 by (by vm_compute).
  replace (matchSection keySections SENTINEL_23) with (@None string) by (by vm_compute).
  replace (includes SENTINEL_23 SCORING_MARKER) with false by (by vm_compute).
  rewrite Hs.
  replace (allDigits SENTINEL_23 && (10 <? len SENTINEL_23)) with true by (by vm_compute).
  replace (startsWith SENTINEL_23 SENTINEL_PREFIX) with true by (by vm_compute).
  by rewrite SENTINEL_23_decodes.
Qed.

(** C3, amended.  Inside a section that has no entries yet, the sentinel row
    "1234567891011121314151617181920212223" followed by answer lines whose
    units are all digits between 1 and 4 and that total 23 units leaves
    exactly 23 entries for that section, numbered 1 to 23 without gaps, the
    entry of question [i + 1] being the digit at position [i] of the answer
    stream. *)
Theorem sentinel_23_yields_23_entries
    (st : KeyState) (sec : string) (answers : list jsstring) :
  currentSection st = Some sec →
  answerKey st !! sec = Some ∅ →
  Forall (λ l, forallb isAnswerDigit l = true) answers →
  len (concat answers) = 23 →
  ∃ m, answerKey (scanKeyLines st (SENTINEL_23 :: answers)) !! sec = Some m
       ∧ size m = 23%nat
       ∧ (∀ q, is_Some (m !! q) ↔ 1 ≤ q ≤ 23)
       ∧ (∀ i c, concat answers !! i = Some c →
                 m !! (1 + Z.of_nat i) = Some (c - 48)).
Proof.
  intros Hs Hempty Hall Htot.
  cbn [scanKeyLines]. rewrite (keyLineStep_SENTINEL_23 st sec Hs).
  assert (len (seqZ 1 23) = 23) as Hqs by (by vm_compute).
  rewrite scan_answers; [|done|rewrite Hqs; by vm_compute|by rewrite Hqs].
  cbn [answerKey app]. unfold saveAnswers.
  cbn [currentSection questionNumbers collectedAnswers answerKey].
  replace (0 <? len (concat answers)) with true by (by rewrite Htot).
  set (cs := concat answers) in *.
  assert (forallb isAnswerDigit cs = true) as Hcs.
  { apply forallb_Forall. apply Forall_concat.
    eapply Forall_impl; [exact Hall|]. intros l Hl. by apply forallb_Forall. }
  set (m := default ∅ (foldl (saveOne sec) (answerKey st) (zip (seqZ 1 23) cs) !! sec)).
  assert (∀ i c, cs !! i = Some c → m !! (1 + Z.of_nat i) = Some (c - 48)) as Hhit.
  { intros i c Hi. apply foldl_saveOne_hit; [done|done|].
    apply lookup_lt_Some in Hi. unfold len in Htot. lia. }
  assert (∀ q, is_Some (m !! q) ↔ 1 ≤ q ≤ 23) as Hdom.
  { intros q. split.
    - intros Hq. destruct (decide (1 ≤ q < 1 + Z.min 23 (len cs))) as [|Hn]; [lia|].
      unfold m in Hq. rewrite foldl_saveOne_miss in Hq by done.
      rewrite Hempty in Hq. cbn in Hq. rewrite lookup_empty in Hq. by destruct Hq.
    - intros Hq. destruct (lookup_lt_is_Some_2 cs (Z.to_nat (q - 1))) as [c Hc].
      { unfold len in Htot. lia. }
      specialize (Hhit _ _ Hc). replace (1 + Z.of_nat (Z.to_nat (q - 1))) with q in Hhit by lia.
      eauto. }
  exists m. split; [|split; [|split]]; [|  |done|done].
  - apply foldl_saveOne_section. by rewrite Hempty.
  - rewrite <-size_dom.
    assert (dom m = list_to_set (seqZ 1 23)) as ->.
    { apply set_eq. intros q. rewrite elem_of_dom, Hdom, elem_of_list_to_set, elem_of_seqZ. lia. }
    rewrite size_list_to_set by apply NoDup_seqZ. by rewrite length_seqZ.
Qed.

(** C10.  The output of [parseAnswerKey] depends only on the suffix of the
    exam text that starts at the first occurrence of the answer-key marker:
    two texts that both contain the marker and agree from its first
    occurrence onward are decoded to the same map. *)
Theorem answer_key_depends_on_suffix (t1 t2 : jsstring) :
  indexOf t1 ANSWER_KEY_MARKER 0 ≠ -1 →
  indexOf t2 ANSWER_KEY_MARKER 0 ≠ -1 →
  substringFrom t1 (indexOf t1 ANSWER_KEY_MARKER 0)
  = substringFrom t2 (indexOf t2 ANSWER_KEY_MARKER 0) →
  parseAnswerKey t1 = parseAnswerKey t2.
Proof.
  intros H1 H2 Heq. unfold parseAnswerKey, keyLines.
  apply Z.eqb_neq in H1, H2. by rewrite H1, H2, Heq.
Qed.

(** ** The merger *)

Lemma mergeQuestion_number season def sa expl exq solq n :
  questionNumber (mergeQuestion season def sa expl exq solq n) = n.
Proof. unfold mergeQuestion. by destruct (buildOptions _ _). Qed.

Lemma mergeQuestion_type season def sa expl exq solq n :
  sectionType (mergeQuestion season def sa expl exq solq n) = dType def.
Proof. unfold mergeQuestion. by destruct (buildOptions _ _). Qed.

Lemma mergeQuestion_section season def sa expl exq solq n :
  sectionNumber (mergeQuestion season def sa expl exq solq n) = dSection def.
Proof. unfold mergeQuestion. by destruct (buildOptions _ _). Qed.

Lemma mergeQuestion_answer season def sa expl exq solq n :
  correctAnswer (mergeQuestion season def sa expl exq solq n) = default 0 (sa !! n).
Proof. unfold mergeQuestion. by destruct (buildOptions _ _). Qed.

Lemma mergeQuestion_key season def sa expl exq solq n :
  def ∈ sectionDefs →
  questionKey (mergeQuestion season def sa expl exq solq n) = Some (dKey def).
Proof.
  intros Hd. unfold questionKey.
  rewrite mergeQuestion_type, mergeQuestion_section.
  unfold sectionDefs in Hd.
  repeat (apply elem_of_cons in Hd as [->|Hd]; [reflexivity|]).
  by apply elem_of_nil in Hd.
Qed.

Lemma questionNums_elem sa n : n ∈ questionNums sa ↔ is_Some (sa !! n).
Proof.
  unfold questionNums. rewrite merge_sort_Permutation, list_elem_of_fmap. split.
  - intros ([k v] & -> & H). apply elem_of_map_to_list in H. eauto.
  - intros [v Hv]. exists (n, v). split; [done|]. by apply elem_of_map_to_list.
Qed.

Lemma questionNums_NoDup sa : NoDup (questionNums sa).
Proof.
  unfold questionNums. rewrite merge_sort_Permutation. apply NoDup_fst_map_to_list.
Qed.

(** The questions of a section are the merged questions of its numbers in
    the answer key. *)
Lemma mergeSection_shape season examText files ak def :
  ∃ expl exq solq,
    mergeSection season examText files ak def
    = mergeQuestion season def (default ∅ (ak !! dKey def)) expl exq solq
        <$> questionNums (default ∅ (ak !! dKey def)).
Proof.
  unfold mergeSection.
  destruct (len (questionNums (default ∅ (ak !! dKey def))) =? 0) eqn:E.
  - apply Z.eqb_eq, len_zero in E. rewrite E. by exists ∅, ∅, ∅.
  - destruct (extractFromSolution _) as [expl solq]. eauto.
Qed.

Lemma elem_of_concat_fmap {A B} (f : A → list B) (l : list A) (y : B) :
  y ∈ concat (f <$> l) ↔ ∃ x, x ∈ l ∧ y ∈ f x.
Proof.
  induction l as [|a l IH]; simpl.
  - split; [by intros ?%elem_of_nil|]. by intros (x & ?%elem_of_nil & _).
  - rewrite elem_of_app, IH. split.
    + intros [H|(x & Hx & H)]; [exists a|exists x]; split; try done; by constructor.
    + intros (x & [->|Hx]%elem_of_cons & H); eauto.
Qed.

Lemma NoDup_concat_tagged {A B C} (g : A → C) (f : A → list B) (l : list A) :
  NoDup (g <$> l) → (∀ a, NoDup (f a)) →
  NoDup (concat ((λ a, (λ b, (g a, b)) <$> f a) <$> l)).
Proof.
  intros Hl Hf. induction l as [|a l IH]; simpl; [constructor|].
  simpl in Hl. apply NoDup_cons in Hl as [Ha Hl].
  apply NoDup_app. split; [|split].
  - apply NoDup_fmap_2; [|done]. by intros b1 b2 [= ->].
  - intros [c b] [b' [[= -> ->] Hb]]%list_elem_of_fmap Hin.
    apply elem_of_concat_fmap in Hin as (a' & Ha' & Hin).
    apply list_elem_of_fmap in Hin as (b'' & [= Hg ->] & _).
    apply Ha. rewrite Hg. by apply list_elem_of_fmap_2.
  - by apply IH.
Qed.

Lemma dKey_in_sectionDefs sec :
  sec ∈ keyNames → ∃ def, def ∈ sectionDefs ∧ dKey def = sec.
Proof.
  intros H. change keyNames with (dKey <$> sectionDefs) in H.
  apply list_elem_of_fmap in H as (def & -> & Hdef). eauto.
Qed.

(** C1.  For every exam parse, the emitted questions are exactly indexed by
    the pairs of section key and question number of the decoded answer key.
    Every emitted question belongs to a section of the key, and the key maps
    that section and the number of the question to its correct answer: no
    question is emitted for a pair that is absent from the key.  A question
    of section [sec] with number [n] and correct answer [v] is emitted if
    and only if the answer key of the exam text maps [sec] and [n] to [v],
    and no pair is emitted twice.  The correct answer is the value of the
    key, whatever the extractors return. *)
Theorem questions_indexed_by_answer_key
    (season seasonHebrew : jsstring) (files : ExamFiles)
    (examText : jsstring) (exam : Exam) :
  examFile files = Some examText →
  parseExam season seasonHebrew files = Some exam →
  (∀ q, q ∈ questions exam →
     ∃ sec m, questionKey q = Some sec
              ∧ parseAnswerKey examText !! sec = Some m
              ∧ m !! questionNumber q = Some (correctAnswer q))
  ∧ (∀ sec n v,
       (∃ q, q ∈ questions exam ∧ questionKey q = Some sec
             ∧ questionNumber q = n ∧ correctAnswer q = v)
       ↔ (∃ m, parseAnswerKey examText !! sec = Some m ∧ m !! n = Some v))
  ∧ NoDup ((λ q, (questionKey q, questionNumber q)) <$> questions exam).
Proof.
  intros Hfile. unfold parseExam. rewrite Hfile. intros [= <-].
  cbn [questions assembleExam]. unfold mergeAll.
  set (ak := parseAnswerKey examText).
  split; [|split].
  - intros q Hq.
    apply elem_of_concat_fmap in Hq as (def & Hdef & Hq).
    destruct (mergeSection_shape season examText files ak def)
      as (expl & exq & solq & Hshape).
    rewrite Hshape in Hq. apply list_elem_of_fmap in Hq as (n & -> & Hn).
    apply questionNums_elem in Hn as [v Hv].
    rewrite mergeQuestion_key, mergeQuestion_number, mergeQuestion_answer by done.
    rewrite Hv. cbn [default from_option id].
    destruct (ak !! dKey def) as [m|] eqn:E; cbn in Hv.
    + by exists (dKey def), m.
    + by rewrite lookup_empty in Hv.
  - intros sec n v. split.
    + intros (q & Hq & Hkey & Hn & Hv).
      apply elem_of_concat_fmap in Hq as (def & Hdef & Hq).
      destruct (mergeSection_shape season examText files ak def)
        as (expl & exq & solq & Hshape).
      rewrite Hshape in Hq. apply list_elem_of_fmap in Hq as (n' & -> & Hn').
      rewrite mergeQuestion_key in Hkey by done. injection Hkey as <-.
      rewrite mergeQuestion_number in Hn. subst n'.
      rewrite mergeQuestion_answer in Hv.
      apply questionNums_elem in Hn' as [v' Hv'].
      rewrite Hv' in Hv. cbn in Hv. subst v'.
      destruct (ak !! dKey def) as [m|] eqn:E; cbn in Hv'.
      * eauto.
      * by rewrite lookup_empty in Hv'.
    + intros (m & Hm & Hv).
      destruct (dKey_in_sectionDefs sec) as (def & Hdef & <-).
      { apply (parseAnswerKey_known examText). fold ak. eauto. }
      destruct (mergeSection_shape season examText files ak def)
        as (expl & exq & solq & Hshape).
      rewrite Hm in Hshape. cbn in Hshape.
      exists (mergeQuestion season def m expl exq solq n).
      split; [|split; [|split]].
      * apply elem_of_concat_fmap. exists def. split; [done|].
        rewrite Hshape. apply list_elem_of_fmap_2, questionNums_elem. eauto.
      * by apply mergeQuestion_key.
      * apply mergeQuestion_number.
      * rewrite mergeQuestion_answer, Hv. done.
  - assert (∀ defs, Forall (λ d, d ∈ sectionDefs) defs →
      (λ q, (questionKey q, questionNumber q))
        <$> concat (mergeSection season examText files ak <$> defs)
      = concat ((λ def, (λ n, (Some (dKey def), n))
                   <$> questionNums (default ∅ (ak !! dKey def))) <$> defs)) as Heq.
    { induction 1 as [|def defs Hdef _ IH]; [done|].
      cbn [fmap list_fmap concat]. rewrite fmap_app. f_equal; [|exact IH].
      destruct (mergeSection_shape season examText files ak def)
        as (expl & exq & solq & ->).
      rewrite <-list_fmap_compose. apply list_fmap_ext. intros i n _. unfold compose.
      by rewrite mergeQuestion_key, mergeQuestion_number. }
    rewrite Heq by (apply Forall_forall; auto).
    apply (NoDup_concat_tagged (λ def, Some (dKey def))
             (λ def, questionNums (default ∅ (ak !! dKey def)))).
    + apply (bool_decide_unpack _). by vm_compute.
    + intros def. apply questionNums_NoDup.
Qed.

(** *** The confidence flag *)

Lemma filter_nonEmpty_nil l : existsb nonEmpty l = false → List.filter nonEmpty l = [].
Proof.
  induction l as [|o l IH]; simpl; [done|].
  rewrite orb_false_iff. intros [-> H]. auto.
Qed.

Lemma buildOptions_flag labels e :
  (buildOptions labels e).2 = (2 <=? len (List.filter nonEmpty (extractedOptions e))).
Proof.
  destruct e as [e|]; simpl; [|done].
  destruct (existsb nonEmpty (qoptions e)) eqn:E; simpl; [done|].
  by rewrite filter_nonEmpty_nil.
Qed.

Lemma hasValidStem_iff s :
  hasValidStem s = true ↔ 3 < len s ∧ startsWith s QUESTION_WORD = false.
Proof.
  unfold hasValidStem, nonEmpty.
  rewrite !andb_true_iff, negb_true_iff, !Z.ltb_lt. split; [tauto|].
  intros [? ?]. repeat split; [lia|done|done].
Qed.

Lemma mergeQuestion_flag season def sa expl exq solq n :
  hasFullText (mergeQuestion season def sa expl exq solq n)
  = hasValidStem (extractedStem (selectExtracted exq solq n))
    || (2 <=? len (List.filter nonEmpty (extractedOptions (selectExtracted exq solq n)))).
Proof.
  unfold mergeQuestion.
  rewrite <-(buildOptions_flag (labelsOf (dLang def))).
  by destruct (buildOptions _ _).
Qed.

(** C6, amended.  For every merged question, [hasFullText] is true if and
    only if the stem of the selected block (the block of the exam extractor
    if there is one, else the one of the solution extractor) is longer than
    3 units and does not begin with the word of the placeholder, or at
    least 2 of its options are non-empty.  An extracted stem of exactly 3
    units, or one that begins with that word, is emitted as it is without
    raising the flag: see [genuine_stem_without_full_text]. *)
Theorem hasFullText_iff
    (season : jsstring) (def : SectionDef) (sectionAnswers : gmap Z Z)
    (explanations : gmap Z jsstring)
    (extractedQuestions solutionQuestions : gmap Z QBlock) (qNum : Z) :
  hasFullText (mergeQuestion season def sectionAnswers explanations
                 extractedQuestions solutionQuestions qNum) = true
  ↔ (3 < len (extractedStem (selectExtracted extractedQuestions solutionQuestions qNum))
     ∧ startsWith (extractedStem (selectExtracted extractedQuestions solutionQuestions qNum))
                  QUESTION_WORD = false)
    ∨ 2 ≤ len (List.filter nonEmpty
                 (extractedOptions (selectExtracted extractedQuestions solutionQuestions qNum))).
Proof.
  rewrite mergeQuestion_flag, orb_true_iff, hasValidStem_iff, Z.leb_le. done.
Qed.

(** *** Questions without extraction *)

Lemma nonEmpty_false s : nonEmpty s = false → s = [].
Proof. unfold nonEmpty. intros H%Z.ltb_ge. apply len_zero. pose proof (len_nonneg s). lia. Qed.

Lemma mergeQuestion_unextracted season def sa expl exq solq n :
  yieldsNothing (selectExtracted exq solq n) = true →
  let q := mergeQuestion season def sa expl exq solq n in
  options q = placeholderOptions (labelsOf (dLang def))
  ∧ stem q = placeholderStem def n
  ∧ hasFullText q = false
  ∧ explanation q = cleanExplanation (default [] (expl !! n)).
Proof.
  intros Hsel. cbv zeta. unfold mergeQuestion.
  destruct (selectExtracted exq solq n) as [b|]; [|done].
  cbn [yieldsNothing] in Hsel.
  apply andb_true_iff in Hsel as [Hs%negb_true_iff Ho%negb_true_iff].
  cbn [buildOptions extractedStem]. rewrite Ho.
  apply nonEmpty_false in Hs. rewrite Hs. done.
Qed.

Lemma selectExtracted_nothing exq solq n :
  yieldsNothing (exq !! n) = true → yieldsNothing (solq !! n) = true →
  yieldsNothing (selectExtracted exq solq n) = true.
Proof. unfold selectExtracted. by destruct (exq !! n). Qed.

Lemma mergeSection_elem season examText files ak def sa n :
  ak !! dKey def = Some sa → is_Some (sa !! n) →
  mergeQuestion season def sa
    (extractFromSolution (solutionFile files (dKey def))).1
    (postProcessQuestions (extractSection examText def))
    (extractFromSolution (solutionFile files (dKey def))).2 n
  ∈ mergeSection season examText files ak def.
Proof.
  intros Hsa Hn. unfold mergeSection. rewrite Hsa. cbn [from_option id].
  apply questionNums_elem in Hn.
  destruct (len (questionNums sa) =? 0) eqn:E.
  - apply Z.eqb_eq, len_zero in E. rewrite E in Hn. by apply elem_of_nil in Hn.
  - destruct (extractFromSolution _) as [expl solq]. cbn [fst snd].
    by apply list_elem_of_fmap_2.
Qed.

Lemma official_buildQuestion_synthesized season def sa expl n a :
  sa !! n = Some a → expl !! n = None →
  Official.options (Official.buildQuestion season def sa expl n)
    = Official.placeholderOptions
  ∧ Official.explanation (Official.buildQuestion season def sa expl n)
    = Official.synthesizedExplanation (labelAt hebrewLabels (Z.to_nat (a - 1))).
Proof. intros Ha He. unfold Official.buildQuestion. rewrite Ha, He. done. Qed.

(** C7, amended.  For every keyed question for which neither the exam
    extractor nor the solution extractor yields any stem or options (no
    block, or a block that is all empty), [parseExam] of
    improved-parser.cjs still emits a question, with the answer of the key,
    the 4 placeholder options and [hasFullText = false]; its explanation is
    the cleaned explanation of the solution file, and the empty string when
    there is none.  The statement that names the label of the correct
    option is synthesized by [parseExam] of official-parser.cjs, when the
    solution file gives no explanation. *)
Theorem unextracted_question_is_placeholder
    (season examText : jsstring) (files : ExamFiles)
    (answerKey : gmap string (gmap Z Z)) (def : SectionDef)
    (sectionAnswers : gmap Z Z) (qNum answer : Z) :
  answerKey !! dKey def = Some sectionAnswers →
  sectionAnswers !! qNum = Some answer →
  yieldsNothing (postProcessQuestions (extractSection examText def) !! qNum) = true →
  yieldsNothing ((extractFromSolution (solutionFile files (dKey def))).2 !! qNum) = true →
  (∃ q, q ∈ mergeSection season examText files answerKey def
        ∧ questionNumber q = qNum
        ∧ correctAnswer q = answer
        ∧ options q = placeholderOptions (labelsOf (dLang def))
        ∧ length (options q) = 4%nat
        ∧ hasFullText q = false
        ∧ explanation q
          = cleanExplanation
              (default [] ((extractFromSolution (solutionFile files (dKey def))).1 !! qNum))
        ∧ ((extractFromSolution (solutionFile files (dKey def))).1 !! qNum = None →
           explanation q = []))
  ∧ (∀ odef explanations,
       explanations !! qNum = None →
       let q' := Official.buildQuestion season odef sectionAnswers explanations qNum in
       Official.options q' = Official.placeholderOptions
       ∧ Official.explanation q'
         = Official.synthesizedExplanation (labelAt hebrewLabels (Z.to_nat (answer - 1)))).
Proof.
  intros Hsa Ha Hex Hsol. split.
  - eexists. split; [by apply mergeSection_elem|].
    destruct (mergeQuestion_unextracted season def sectionAnswers
      (extractFromSolution (solutionFile files (dKey def))).1
      (postProcessQuestions (extractSection examText def))
      (extractFromSolution (solutionFile files (dKey def))).2 qNum
      (selectExtracted_nothing _ _ _ Hex Hsol)) as (Ho & Hs & Hf & He).
    split; [apply mergeQuestion_number|].
    split; [by rewrite mergeQuestion_answer, Ha|].
    split; [done|]. split; [by rewrite Ho|]. split; [done|]. split; [done|].
    intros Hnone. by rewrite He, Hnone.
  - intros odef expl He. by apply official_buildQuestion_synthesized.
Qed.

(** *** Section counts *)

Lemma filter_length_split {A} (p p1 p2 : A → bool) (l : list A) :
  (∀ x, x ∈ l → p x = p1 x || p2 x) →
  (∀ x, x ∈ l → p1 x && p2 x = false) →
  len (List.filter p l) = len (List.filter p1 l) + len (List.filter p2 l).
Proof.
  unfold len. induction l as [|x l IH]; intros Hp Hd; simpl; [done|].
  assert (x ∈ x :: l) as Hx by left.
  assert (Z.of_nat (length (List.filter p l))
          = Z.of_nat (length (List.filter p1 l)) + Z.of_nat (length (List.filter p2 l))) as IH'.
  { apply IH; intros y Hy; [apply Hp|apply Hd]; by right. }
  rewrite (Hp x Hx). specialize (Hd x Hx).
  destruct (p1 x), (p2 x); simpl in *; try done; lia.
Qed.

Lemma mergeAll_section season examText files ak q :
  q ∈ mergeAll season examText files ak → sectionNumber q = 1 ∨ sectionNumber q = 2.
Proof.
  unfold mergeAll. intros (def & Hdef & Hq)%elem_of_concat_fmap.
  destruct (mergeSection_shape season examText files ak def)
    as (expl & exq & solq & Hshape).
  rewrite Hshape in Hq. apply list_elem_of_fmap in Hq as (n & -> & _).
  rewrite mergeQuestion_section. unfold sectionDefs in Hdef.
  repeat (apply elem_of_cons in Hdef as [->|Hdef]; [by auto|]).
  by apply elem_of_nil in Hdef.
Qed.

(** C9, amended.  For every assembled exam, the count recorded for a
    section type equals the number of merged questions of that type, which
    is the sum of the counts obtained by grouping the questions by the pair
    of type and number, over the two sections of the type. *)
Theorem recorded_counts_are_per_type
    (season seasonHebrew : jsstring) (files : ExamFiles) (exam : Exam)
    (t : SectionType) :
  parseExam season seasonHebrew files = Some exam →
  recordedCount exam t = countOfType (questions exam) t
  ∧ recordedCount exam t
    = countOfSection (questions exam) t 1 + countOfSection (questions exam) t 2.
Proof.
  unfold parseExam. destruct (examFile files) as [examText|]; [|done].
  intros [= <-]. cbn [questions assembleExam].
  assert (recordedCount
            (assembleExam season seasonHebrew
               (mergeAll season examText files (parseAnswerKey examText))) t
          = countOfType (mergeAll season examText files (parseAnswerKey examText)) t) as Hrec.
  { by destruct t. }
  split; [done|]. rewrite Hrec. unfold countOfType, countOfSection.
  apply filter_length_split.
  - intros q Hq. apply mergeAll_section in Hq as [-> | ->];
      destruct (bool_decide (sectionType q = t)); done.
  - intros q Hq. apply mergeAll_section in Hq as [-> | ->];
      destruct (bool_decide (sectionType q = t)); done.
Qed.

(** In [official-parser.cjs] the recorded count of a section is the count
    of its pair of type and number. *)
Lemma official_counts_are_per_section (allQuestions : list Official.Question) info :
  info ∈ Official.sectionInfos allQuestions →
  Official.questionCount info
  = len (List.filter (λ q, bool_decide (Official.sectionType q = Official.iType info)
                           && (Official.sectionNumber q =? Official.iSection info))
                     allQuestions).
Proof.
  unfold Official.sectionInfos. rewrite list_elem_of_In, filter_In, <-list_elem_of_In.
  intros [(def & -> & _)%list_elem_of_fmap _]. done.
Qed.

(** ** The segmenter *)

Lemma findFrom_range p s pos :
  findFrom p s pos = -1 ∨ pos ≤ findFrom p s pos ≤ pos + len s.
Proof.
  revert pos. induction s as [|c s IH]; intros pos; cbn [findFrom].
  - destruct (startsWith [] p); [right|left]; unfold len; simpl; lia.
  - destruct (startsWith (c :: s) p).
    + right. unfold len. simpl length. lia.
    + destruct (IH (pos + 1)) as [->|H]; [by left|right].
      unfold len in *. simpl length. lia.
Qed.

Lemma findFrom_occurs p s pos :
  0 ≤ pos → findFrom p s pos ≠ -1 →
  startsWith (drop (Z.to_nat (findFrom p s pos - pos)) s) p = true.
Proof.
  revert pos. induction s as [|c s IH]; intros pos Hpos; cbn [findFrom].
  - destruct (startsWith [] p) eqn:E; [|done]. intros _.
    by rewrite Z.sub_diag.
  - destruct (startsWith (c :: s) p) eqn:E.
    + intros _. by rewrite Z.sub_diag.
    + intros Hf. specialize (IH (pos + 1) ltac:(lia) Hf).
      destruct (findFrom_range p s (pos + 1)) as [?|?]; [done|].
      replace (Z.to_nat (findFrom p s (pos + 1) - pos))
        with (S (Z.to_nat (findFrom p s (pos + 1) - (pos + 1)))) by lia.
      done.
Qed.

Lemma findFrom_skip p : ∀ (n : nat) s pos,
  0 ≤ pos → (n ≤ length s)%nat →
  findFrom p s pos = -1 ∨ pos + Z.of_nat n ≤ findFrom p s pos →
  findFrom p (drop n s) (pos + Z.of_nat n) = findFrom p s pos.
Proof.
  induction n as [|n IH]; intros s pos Hpos Hn Hr.
  { rewrite drop_0. f_equal. lia. }
  destruct s as [|c s]; [simpl in Hn; lia|].
  cbn [findFrom] in *. destruct (startsWith (c :: s) p).
  - lia.
  - cbn [drop]. replace (pos + Z.of_nat (S n)) with (pos + 1 + Z.of_nat n) by lia.
    apply IH; [lia|simpl in Hn; lia|]. destruct Hr; [by left|right; lia].
Qed.

Lemma clamp_range i (s : jsstring) : 0 ≤ clamp i s ≤ len s.
Proof. unfold clamp, len. lia. Qed.

Lemma indexOf_range s p from :
  indexOf s p from = -1 ∨ clamp from s ≤ indexOf s p from ≤ len s.
Proof.
  unfold indexOf. pose proof (clamp_range from s) as Hc.
  destruct (findFrom_range p (drop (Z.to_nat (clamp from s)) s) (clamp from s)) as [|H];
    [by left|right].
  unfold len in *. rewrite length_drop in H. lia.
Qed.

Lemma indexOf_occurs s p from :
  indexOf s p from ≠ -1 →
  startsWith (drop (Z.to_nat (indexOf s p from)) s) p = true.
Proof.
  unfold indexOf. intros Hf. pose proof (clamp_range from s) as Hc.
  pose proof (findFrom_occurs p _ _ (proj1 Hc) Hf) as H.
  rewrite drop_drop in H.
  destruct (findFrom_range p (drop (Z.to_nat (clamp from s)) s) (clamp from s)); [done|].
  by replace (Z.to_nat (clamp from s) +
              Z.to_nat (findFrom p (drop (Z.to_nat (clamp from s)) s) (clamp from s)
                        - clamp from s))%nat
    with (Z.to_nat (findFrom p (drop (Z.to_nat (clamp from s)) s) (clamp from s)))
    in H by lia.
Qed.

(** Searching from a later position finds the same occurrence, as long as
    the position is not past it. *)
Lemma indexOf_later s p a b :
  clamp a s ≤ b →
  indexOf s p a = -1 ∨ b ≤ indexOf s p a →
  indexOf s p b = indexOf s p a.
Proof.
  intros Hab Hr. pose proof (clamp_range a s) as Ha.
  pose proof (clamp_range b s) as Hb.
  assert (clamp a s ≤ clamp b s) as Hk by (unfold clamp in *; lia).
  unfold indexOf in *.
  set (ka := clamp a s) in *. set (kb := clamp b s) in *.
  replace (drop (Z.to_nat kb) s)
    with (drop (Z.to_nat (kb - ka)) (drop (Z.to_nat ka) s))
    by (rewrite drop_drop; f_equal; lia).
  replace kb with (ka + Z.of_nat (Z.to_nat (kb - ka))) at 2 by lia.
  apply findFrom_skip; [lia| |].
  - rewrite length_drop. unfold len in *. lia.
  - destruct Hr as [|Hr]; [by left|right]. unfold kb, clamp in *. lia.
Qed.

(** [findSectionMarker] returns the least index among the spellings that
    occur. *)
Lemma foldl_variantStep_spec text from : ∀ vs acc,
  let R := foldl (variantStep text from) acc vs in
  (R = acc ∨ ∃ v, v ∈ vs ∧ indexOf text v from = R ∧ R ≠ -1)
  ∧ (acc ≠ -1 → R ≠ -1 ∧ R ≤ acc)
  ∧ (∀ v, v ∈ vs → indexOf text v from ≠ -1 → R ≠ -1 ∧ R ≤ indexOf text v from).
Proof.
  induction vs as [|v vs IH]; intros acc; cbn [foldl].
  - split; [by left|]. split; [intros; split; [done|lia]|].
    by intros v ?%elem_of_nil.
  - set (acc' := variantStep text from acc v).
    destruct (IH acc') as (H1 & H2 & H3). cbv zeta in *.
    set (R := foldl (variantStep text from) acc' vs) in *.
    assert (acc' = acc ∨ (acc' = indexOf text v from ∧ acc' ≠ -1)) as Hacc.
    { unfold acc', variantStep.
      destruct (negb (indexOf text v from =? -1) && _) eqn:E; [right|by left].
      apply andb_true_iff in E as [E _]. apply negb_true_iff, Z.eqb_neq in E. done. }
    assert (acc ≠ -1 → acc' ≠ -1 ∧ acc' ≤ acc) as Hle.
    { unfold acc', variantStep. intros Hne.
      destruct (negb (indexOf text v from =? -1) && _) eqn:E; [|split; [done|lia]].
      apply andb_true_iff in E as [E1 E2]. apply negb_true_iff, Z.eqb_neq in E1.
      apply orb_true_iff in E2 as [E2|E2]; [apply Z.eqb_eq in E2; lia|].
      apply Z.ltb_lt in E2. split; [done|lia]. }
    assert (indexOf text v from ≠ -1 → acc' ≠ -1 ∧ acc' ≤ indexOf text v from) as Hv.
    { unfold acc', variantStep. intros Hne.
      destruct (negb (indexOf text v from =? -1) && _) eqn:E; [split; [done|lia]|].
      apply andb_false_iff in E as [E|E].
      - apply negb_false_iff, Z.eqb_eq in E. done.
      - apply orb_false_iff in E as [E1 E2]. apply Z.eqb_neq in E1.
        apply Z.ltb_ge in E2. split; [done|lia]. }
    split; [|split].
    + destruct H1 as [->|(w & Hw & Hi & Hn)].
      * destruct Hacc as [->|[-> Hn]]; [by left|right]. exists v. split; [left|done].
      * right. exists w. split; [by right|done].
    + intros Hne. destruct (Hle Hne) as [Hn' Hl']. destruct (H2 Hn'). split; [done|lia].
    + intros w [->|Hw]%elem_of_cons Hne.
      * destruct (Hv Hne) as [Hn' Hl']. destruct (H2 Hn'). split; [done|lia].
      * by apply H3.
Qed.

Lemma findSectionMarker_found text marker from :
  findSectionMarker text marker from ≠ -1 →
  ∃ v, v ∈ variantsOf marker
       ∧ indexOf text v from = findSectionMarker text marker from.
Proof.
  unfold findSectionMarker. intros Hne.
  destruct (foldl_variantStep_spec text from (variantsOf marker) (-1))
    as ([?|(v & Hv & Hi & _)] & _ & _); [done|eauto].
Qed.

Lemma findSectionMarker_least text marker from v :
  v ∈ variantsOf marker → indexOf text v from ≠ -1 →
  findSectionMarker text marker from ≠ -1
  ∧ findSectionMarker text marker from ≤ indexOf text v from.
Proof.
  unfold findSectionMarker. intros Hv Hne.
  by apply (foldl_variantStep_spec text from (variantsOf marker) (-1)).
Qed.

Lemma foldl_variantStep_ext text a b vs acc :
  (∀ v, v ∈ vs → indexOf text v b = indexOf text v a) →
  foldl (variantStep text b) acc vs = foldl (variantStep text a) acc vs.
Proof.
  revert acc. induction vs as [|v vs IH]; intros acc Hv; cbn [foldl]; [done|].
  rewrite IH by (intros; apply Hv; by right).
  unfold variantStep. rewrite Hv by left. done.
Qed.

Lemma findSectionMarker_later text marker a b :
  clamp a text ≤ b →
  findSectionMarker text marker a ≠ -1 →
  b ≤ findSectionMarker text marker a →
  findSectionMarker text marker b = findSectionMarker text marker a.
Proof.
  intros Hab Hne Hb. unfold findSectionMarker.
  apply foldl_variantStep_ext. intros v Hv.
  apply indexOf_later; [done|].
  destruct (decide (indexOf text v a = -1)) as [|Hi]; [by left|right].
  pose proof (findSectionMarker_least text marker a v Hv Hi). lia.
Qed.

Lemma findSectionMarker_range text marker from :
  findSectionMarker text marker from ≠ -1 →
  clamp from text ≤ findSectionMarker text marker from ≤ len text.
Proof.
  intros Hne. destruct (findSectionMarker_found _ _ _ Hne) as (v & _ & Hv).
  destruct (indexOf_range text v from) as [|]; [congruence|]. by rewrite <-Hv.
Qed.

(** *** Markers cannot overlap *)

Lemma startsWith_agree a rest b :
  startsWith (a ++ rest) b = true → agree a b = true.
Proof.
  revert b. induction a as [|x a IH]; intros [|y b]; cbn; try done.
  rewrite !andb_true_iff, Z.eqb_eq. intros [-> H]. rewrite Z.eqb_refl. eauto.
Qed.

Lemma occurrences_agree text v w (i j : nat) :
  startsWith (drop i text) v = true →
  startsWith (drop (i + j) text) w = true →
  agree (drop j v) w = true.
Proof.
  intros [r Hr]%startsWith_prefix Hw.
  rewrite <-drop_drop, Hr, drop_app in Hw.
  by apply startsWith_agree in Hw.
Qed.

Lemma noOverlap_SECTION_ORDER (K : nat) marker next :
  SECTION_ORDER !! K = Some marker → SECTION_ORDER !! S K = Some next →
  noOverlap marker next = true ∧ arrayIndexOf SECTION_ORDER marker 0 = Z.of_nat K.
Proof.
  do 7 (destruct K as [|K]; [intros [= <-] [= <-]; by vm_compute|]).
  done.
Qed.

Lemma forallb_elem {A} (P : A → bool) l x :
  forallb P l = true → x ∈ l → P x = true.
Proof.
  intros H Hx. rewrite forallb_forall in H. apply H. by apply list_elem_of_In.
Qed.

Lemma sectionEnd_next text marker next (K : nat) s :
  arrayIndexOf SECTION_ORDER marker 0 = Z.of_nat K →
  SECTION_ORDER !! S K = Some next →
  findSectionMarker text next (s + len marker) ≠ -1 →
  sectionEnd text marker s ≤ findSectionMarker text next (s + len marker).
Proof.
  intros HK Hnext Hne. unfold sectionEnd. rewrite HK.
  assert (S K < length SECTION_ORDER)%nat as Hlt by (by eapply lookup_lt_Some).
  replace ((0 <=? Z.of_nat K) && (Z.of_nat K <? len SECTION_ORDER - 1)) with true.
  2:{ symmetry. apply andb_true_iff. unfold len. split; [apply Z.leb_le|apply Z.ltb_lt]; lia. }
  replace (Z.to_nat (Z.of_nat K + 1)) with (S K) by lia. rewrite Hnext.
  apply Z.eqb_neq in Hne. rewrite Hne. cbn [negb].
  destruct (negb _ && _) eqn:E; [|lia].
  apply andb_true_iff in E as [_ E%Z.ltb_lt]. lia.
Qed.

(** C5, amended.  For every document and every two canonically adjacent
    markers [K] and [K + 1] that both occur in it, with the start of [K] not
    after the start of [K + 1], the end boundary computed for [K] is at most
    the start boundary computed for [K + 1]. *)
Theorem section_end_le_next_start
    (examText : jsstring) (K : nat) (marker next : jsstring) (sK eK sN eN : Z) :
  SECTION_ORDER !! K = Some marker →
  SECTION_ORDER !! S K = Some next →
  sectionBoundary examText marker = Some (sK, eK) →
  sectionBoundary examText next = Some (sN, eN) →
  sK ≤ sN →
  eK ≤ sN.
Proof.
  intros HK HN HbK HbN Hord.
  destruct (noOverlap_SECTION_ORDER K marker next HK HN) as [Hno Hidx].
  unfold sectionBoundary in HbK, HbN.
  destruct (sectionStart examText marker =? -1) eqn:EK; [done|].
  destruct (sectionStart examText next =? -1) eqn:EN; [done|].
  injection HbK as <- <-. injection HbN as <- _.
  apply Z.eqb_neq in EK, EN. unfold sectionStart in *.
  set (a := searchStart examText) in *.
  set (sK := findSectionMarker examText marker a) in *.
  set (sN := findSectionMarker examText next a) in *.
  pose proof (findSectionMarker_range _ _ _ EK) as HrK.
  pose proof (findSectionMarker_range _ _ _ EN) as HrN.
  destruct (findSectionMarker_found _ _ _ EK) as (v & Hv & Hiv).
  destruct (findSectionMarker_found _ _ _ EN) as (w & Hw & Hiw).
  fold sK in Hiv. fold sN in Hiw.
  assert (sK + len marker ≤ sN) as Hafter.
  { destruct (decide (sK + len marker ≤ sN)) as [|Hlt]; [done|exfalso].
    pose proof (indexOf_occurs examText v a ltac:(lia)) as Hov.
    pose proof (indexOf_occurs examText w a ltac:(lia)) as How.
    rewrite Hiv in Hov. rewrite Hiw in How.
    pose proof (clamp_range a examText).
    replace (Z.to_nat sN) with (Z.to_nat sK + Z.to_nat (sN - sK))%nat in How by lia.
    pose proof (occurrences_agree _ _ _ _ _ Hov How) as Hag.
    unfold noOverlap in Hno.
    pose proof (forallb_elem _ _ v Hno Hv) as H1. cbv beta in H1.
    pose proof (forallb_elem _ _ w H1 Hw) as H2. cbv beta in H2.
    assert (Z.to_nat (sN - sK) ∈ seq 0 (length marker)) as Hd.
    { apply elem_of_seq. unfold len in *. lia. }
    pose proof (forallb_elem _ _ _ H2 Hd) as H3. cbv beta in H3.
    rewrite Hag in H3. discriminate H3. }
  assert (findSectionMarker examText next (sK + len marker) = sN) as Hnext.
  { apply findSectionMarker_later; [|done|done]. pose proof (len_nonneg marker). lia. }
  pose proof (sectionEnd_next examText marker next K sK Hidx HN) as Hend.
  rewrite Hnext in Hend. by apply Hend.
Qed.

(** ** Inline options *)

Lemma setOption_cases acc n t :
  setOption acc n t = acc
  ∨ (1 ≤ n ≤ 4 ∧ setOption acc n t = (<[Z.to_nat (n - 1) := t]> acc.1, true)).
Proof.
  unfold setOption. destruct ((1 <=? n) && (n <=? 4) && negb (0 =? len t)) eqn:E;
    [right|by left].
  apply andb_true_iff in E as [E _].
  apply andb_true_iff in E as [?%Z.leb_le ?%Z.leb_le]. done.
Qed.

Lemma fold_flag_true idx txt ms acc :
  acc.2 = true → (foldl (optionStep idx txt) acc ms).2 = true.
Proof.
  revert acc. induction ms as [|m ms IH]; intros acc Ha; cbn [foldl]; [done|].
  apply IH. unfold optionStep.
  destruct (setOption_cases acc (idx m) (txt m)) as [->|[_ ->]]; done.
Qed.

Lemma fold_flag_false idx txt ms acc :
  (foldl (optionStep idx txt) acc ms).2 = false →
  foldl (optionStep idx txt) acc ms = acc.
Proof.
  revert acc. induction ms as [|m ms IH]; intros acc Hr; cbn [foldl] in *; [done|].
  assert (optionStep idx txt acc m = acc ∨ (optionStep idx txt acc m).2 = true) as [E|E].
  { unfold optionStep.
    destruct (setOption_cases acc (idx m) (txt m)) as [->|[_ ->]]; [by left|by right]. }
  - rewrite E in *. by apply IH.
  - by rewrite fold_flag_true in Hr.
Qed.

(** A slot of the result was either there before or written by a match
    whose index is the slot number plus one. *)
Lemma fold_slot idx txt ms : ∀ acc j o,
  (foldl (optionStep idx txt) acc ms).1 !! j = Some o →
  acc.1 !! j = Some o
  ∨ ∃ m, m ∈ ms ∧ idx m = Z.of_nat j + 1 ∧ 1 ≤ idx m ≤ 4.
Proof.
  induction ms as [|m ms IH]; intros acc j o Hr; cbn [foldl] in Hr; [by left|].
  destruct (IH _ _ _ Hr) as [H|(m' & Hm' & H)].
  - unfold optionStep in H.
    destruct (setOption_cases acc (idx m) (txt m)) as [E|[Hn E]];
      rewrite E in H; [by left|].
    cbn [fst] in H.
    destruct (decide (j = Z.to_nat (idx m - 1))) as [->|Hne].
    + right. exists m. split; [left|]. split; lia.
    + rewrite list_lookup_insert_ne in H by done. by left.
  - right. exists m'. split; [by right|done].
Qed.

Lemma optionPass_slot idx txt ms acc j o :
  (optionPass (optionStep idx txt) ms acc).1 !! j = Some o →
  acc.1 !! j = Some o
  ∨ ∃ m, m ∈ ms ∧ idx m = Z.of_nat j + 1 ∧ 1 ≤ idx m ≤ 4.
Proof.
  unfold optionPass. destruct (2 <=? len ms); [apply fold_slot|by left].
Qed.

Lemma optionPass_flag_false idx txt ms acc :
  (optionPass (optionStep idx txt) ms acc).2 = false →
  optionPass (optionStep idx txt) ms acc = acc.
Proof.
  unfold optionPass. destruct (2 <=? len ms); [apply fold_flag_false|done].
Qed.

Lemma optionPass_parsed idx txt ms acc :
  acc.2 = false → (optionPass (optionStep idx txt) ms acc).2 = true → 2 ≤ len ms.
Proof.
  unfold optionPass. destruct (2 <=? len ms) eqn:E; [by apply Z.leb_le in E|congruence].
Qed.

Lemma emptyOptions_slot j o : emptyOptions !! j = Some o → nonEmpty o = false.
Proof.
  unfold emptyOptions. do 4 (destruct j as [|j]; [by intros [= <-]|]). done.
Qed.

(** A filled slot of the result of [parseInlineHebrewOptions] comes from a
    match with the index of the slot. *)
Lemma parseInline_slot line opts j o :
  parseInlineHebrewOptions line = Some opts →
  opts !! j = Some o → nonEmpty o = true →
  1 ≤ Z.of_nat j + 1 ≤ 4 ∧ Z.of_nat j + 1 ∈ optionIndices line.
Proof.
  unfold parseInlineHebrewOptions, optionIndices, rtlOption, ltrOption, mixedOption.
  cbv zeta.
  set (rtl := matchAll RE_RTL_OPTION line).
  set (ltr := matchAll RE_LTR_OPTION line).
  set (mix := matchAll RE_MIXED_OPTION line).
  set (P1 := optionPass _ rtl _).
  destruct (P1.2) eqn:E1.
  { repeat first [rewrite E1 | progress cbv beta iota]. intros [= <-] Ho Hne.
    apply optionPass_slot in Ho
      as [Ho|(m & Hm & Hi & Hr)].
    - apply emptyOptions_slot in Ho. congruence.
    - rewrite <-Hi. split; [done|]. apply elem_of_app. left.
      apply list_elem_of_fmap. eauto. }
  assert (P1 = (emptyOptions, false)) as ->.
  { apply optionPass_flag_false, E1. }
  cbn [snd fst].
  set (P2 := optionPass _ ltr _).
  destruct (P2.2) eqn:E2.
  { repeat first [rewrite E2 | progress cbv beta iota]. intros [= <-] Ho Hne.
    apply optionPass_slot in Ho
      as [Ho|(m & Hm & Hi & Hr)].
    - apply emptyOptions_slot in Ho. congruence.
    - rewrite <-Hi. split; [done|]. apply elem_of_app. right. apply elem_of_app. left.
      apply list_elem_of_fmap. eauto. }
  assert (P2 = (emptyOptions, false)) as ->.
  { apply optionPass_flag_false, E2. }
  cbn [snd fst].
  set (P3 := optionPass _ mix _).
  destruct (P3.2) eqn:E3; [|done].
  intros [= <-] Ho Hne.
  apply optionPass_slot in Ho
    as [Ho|(m & Hm & Hi & Hr)].
  - apply emptyOptions_slot in Ho. congruence.
  - rewrite <-Hi. split; [done|]. apply elem_of_app. right. apply elem_of_app. right.
    apply list_elem_of_fmap. eauto.
Qed.

(** When it returns options, some pattern had at least two matches. *)
Lemma parseInline_two_matches line opts :
  parseInlineHebrewOptions line = Some opts →
  2 ≤ len (matchAll RE_RTL_OPTION line)
  ∨ 2 ≤ len (matchAll RE_LTR_OPTION line)
  ∨ 2 ≤ len (matchAll RE_MIXED_OPTION line).
Proof.
  unfold parseInlineHebrewOptions, rtlOption, ltrOption, mixedOption.
  cbv zeta.
  set (P1 := optionPass _ (matchAll RE_RTL_OPTION line) _).
  destruct (P1.2) eqn:E1.
  { intros _. left.
    by apply optionPass_parsed in E1. }
  assert (P1 = (emptyOptions, false)) as ->.
  { apply optionPass_flag_false, E1. }
  cbn [snd fst].
  set (P2 := optionPass _ (matchAll RE_LTR_OPTION line) _).
  destruct (P2.2) eqn:E2.
  { intros _. right. left.
    by apply optionPass_parsed in E2. }
  assert (P2 = (emptyOptions, false)) as ->.
  { apply optionPass_flag_false, E2. }
  cbn [snd fst].
  set (P3 := optionPass _ (matchAll RE_MIXED_OPTION line) _).
  destruct (P3.2) eqn:E3; [|done].
  intros _. right. right.
  by apply optionPass_parsed in E3.
Qed.

Lemma filter_two {A} (p : A → bool) (l : list A) :
  2 ≤ len (List.filter p l) →
  ∃ j1 j2 o1 o2, j1 ≠ j2 ∧ l !! j1 = Some o1 ∧ p o1 = true
                 ∧ l !! j2 = Some o2 ∧ p o2 = true.
Proof.
  assert (∀ l, 1 ≤ len (List.filter p l) → ∃ j o, l !! j = Some o ∧ p o = true) as H1.
  { clear l. induction l as [|x l IH]; cbn [List.filter].
    - unfold len; simpl; lia.
    - destruct (p x) eqn:E.
      + intros _. by exists 0%nat, x.
      + intros (j & o & ? & ?)%IH. by exists (S j), o. }
  induction l as [|x l IH]; cbn [List.filter].
  - unfold len; simpl; lia.
  - destruct (p x) eqn:E.
    + intros Hl. destruct (H1 l) as (j & o & Hj & Ho).
      { unfold len in *. simpl length in Hl. lia. }
      exists 0%nat, (S j), x, o. done.
    + intros (j1 & j2 & o1 & o2 & Hne & ? & ? & ? & ?)%IH.
      exists (S j1), (S j2), o1, o2. split; [lia|done].
Qed.

Lemma classifyStandalone_kind line :
  (∃ n t, classifyStandalone line = HStandalone n t)
  ∨ classifyStandalone line = HStem line.
Proof.
  unfold classifyStandalone.
  destruct (exec RE_STANDALONE_RTL line); [left; eauto|].
  destruct (exec RE_STANDALONE_LTR line); [left; eauto|by right].
Qed.

(** C8, amended.  Reading a line, the scan of a Hebrew section takes it for
    an inline option sequence only if [parseInlineHebrewOptions] returns
    options for it and at least 2 distinct option indices between 1 and 4
    are found in it; with fewer than 2 distinct indices the line of an open
    question is classified as a standalone option or as stem text.
    [parseInlineHebrewOptions] itself returns options only if one of its
    three patterns has at least 2 matches; two matches of one index are
    enough for it: see [repeated_index_is_not_null].  The statement is about
    the lines as the loop reads them; what [saveCurrentQuestion] does with
    the joined stem lines of a question without options is shown in
    [close_accepts_one_filled_slot]. *)
Theorem inline_options_need_two_indices (line : jsstring) :
  (∀ opts, classifyOpenLine line = HInlineOptions opts →
           parseInlineHebrewOptions line = Some opts ∧ twoDistinctIndices line)
  ∧ (¬ twoDistinctIndices line →
     (∃ n t, classifyOpenLine line = HStandalone n t)
     ∨ classifyOpenLine line = HStem line)
  ∧ (∀ opts, parseInlineHebrewOptions line = Some opts →
             2 ≤ len (matchAll RE_RTL_OPTION line)
             ∨ 2 ≤ len (matchAll RE_LTR_OPTION line)
             ∨ 2 ≤ len (matchAll RE_MIXED_OPTION line))
  ∧ (∀ opts, classifyHebrewLine line = HInlineOptions opts →
             parseInlineHebrewOptions line = Some opts ∧ twoDistinctIndices line).
Proof.
  assert (∀ opts, classifyOpenLine line = HInlineOptions opts →
                  parseInlineHebrewOptions line = Some opts ∧ twoDistinctIndices line) as HA.
  { intros opts. unfold classifyOpenLine.
    destruct (parseInlineHebrewOptions line) as [lineOptions|] eqn:Hp.
    - destruct (2 <=? len (List.filter nonEmpty lineOptions)) eqn:E.
      + intros [= <-]. split; [done|]. apply Z.leb_le in E.
        destruct (filter_two _ _ E) as (j1 & j2 & o1 & o2 & Hne & H1 & Hn1 & H2 & Hn2).
        destruct (parseInline_slot _ _ _ _ Hp H1 Hn1) as [Hr1 Hi1].
        destruct (parseInline_slot _ _ _ _ Hp H2 Hn2) as [Hr2 Hi2].
        exists (Z.of_nat j1 + 1), (Z.of_nat j2 + 1). split; [lia|done].
      + destruct (classifyStandalone_kind line) as [(n & t & ->)| ->]; done.
    - destruct (classifyStandalone_kind line) as [(n & t & ->)| ->]; done. }
  split; [exact HA|]. split; [|split; [apply parseInline_two_matches|]].
  - intros Hno. unfold classifyOpenLine in *.
    destruct (parseInlineHebrewOptions line) as [lineOptions|] eqn:Hp;
      [|apply classifyStandalone_kind].
    destruct (2 <=? len (List.filter nonEmpty lineOptions)) eqn:E;
      [|apply classifyStandalone_kind].
    destruct Hno. by apply (HA lineOptions).
  - intros opts. unfold classifyHebrewLine.
    destruct (negb (nonEmpty line)); [done|].
    destruct (isHebrewHeaderFooter line); [done|].
    destruct (exec RE_QNUM_END line); [done|].
    destruct (exec RE_QNUM_START line); [done|]. apply HA.
Qed.

(** ** The matcher on whitespace patterns *)

Lemma starLoop_Cls p k : ∀ fuel sn ah cs,
  (length ah ≤ fuel)%nat →
  starLoop true (run (Cls p)) k fuel (mkM sn ah cs) = greedyCls p k sn ah cs.
Proof.
  induction fuel as [|fuel IH]; intros sn ah cs Hf.
  - destruct ah; [done|simpl in Hf; lia].
  - cbn [starLoop run ahead seen caps].
    destruct ah as [|c t]; [done|]. cbn [greedyCls].
    destruct (p c); [|done].
    cbn [ahead length]. replace (length t <? S (length t))%nat with true
      by (symmetry; apply Nat.ltb_lt; lia).
    rewrite IH by (simpl in Hf; lia). done.
Qed.

Lemma run_Star_Cls p k sn ah cs :
  run (Star (Cls p)) k (mkM sn ah cs) = greedyCls p k sn ah cs.
Proof. cbn [run ahead]. by apply starLoop_Cls. Qed.

Lemma run_Plus_Cls p k sn ah cs :
  run (Plus (Cls p)) k (mkM sn ah cs)
  = match ah with
    | c :: t => if p c then greedyCls p k (c :: sn) t cs else None
    | [] => None
    end.
Proof.
  unfold Plus. cbn [run ahead seen caps]. destruct ah as [|c t]; [done|].
  destruct (p c); [|done]. apply run_Star_Cls.
Qed.

(** With a continuation that accepts, the longest run is taken. *)
Lemma greedyCls_accept p : ∀ ah sn cs,
  greedyCls p Some sn ah cs
  = Some (mkM (rev (take (span p ah) ah) ++ sn) (drop (span p ah) ah) cs).
Proof.
  induction ah as [|c t IH]; intros sn cs; cbn [greedyCls span]; [done|].
  destruct (p c); [|done]. rewrite IH. cbn [take drop rev].
  by rewrite <-app_assoc.
Qed.

(** With the end of the string as continuation, the run must reach it. *)
Lemma greedyCls_Eos p : ∀ ah sn cs,
  greedyCls p (run Eos Some) sn ah cs
  = if forallb p ah then Some (mkM (rev ah ++ sn) [] cs) else None.
Proof.
  induction ah as [|c t IH]; intros sn cs; cbn [greedyCls forallb]; [done|].
  destruct (p c); cbn [andb]; [|done]. rewrite IH.
  destruct (forallb p t); [|done]. cbn [rev]. by rewrite <-app_assoc.
Qed.

Lemma span_length p s : (span p s ≤ length s)%nat.
Proof. induction s as [|c t IH]; simpl; [lia|]. destruct (p c); simpl; lia. Qed.

Lemma consumed_length sn ah cs (n : nat) e :
  (n ≤ length ah)%nat →
  e = mkM (rev (take n ah) ++ sn) (drop n ah) cs →
  consumed (mkM sn ah []) e = take n ah.
Proof.
  intros Hn ->. unfold consumed. cbn [seen].
  rewrite length_app, length_rev, length_take.
  replace (n `min` length ah + length sn - length sn)%nat with n by lia.
  rewrite take_app_length'; [by rewrite rev_involutive|].
  rewrite length_rev, length_take. lia.
Qed.

(** *** [/\s+/g] replaced by a space *)

Lemma matchHere_WS_RUN sn ah :
  matchHere RE_WS_RUN sn ah
  = match ah with
    | c :: t =>
        if isWs c
        then Some (mkMatch (len sn) (c :: take (span isWs t) t) [],
                   mkM (rev (take (span isWs t) t) ++ c :: sn) (drop (span isWs t) t) [])
        else None
    | [] => None
    end.
Proof.
  unfold matchHere, RE_WS_RUN, ws. rewrite run_Plus_Cls.
  destruct ah as [|c t]; [done|]. destruct (isWs c); [|done].
  rewrite greedyCls_accept. f_equal. f_equal.
  unfold pos. cbn [seen caps]. f_equal.
  pose proof (span_length isWs t).
  rewrite (consumed_length sn (c :: t) [] (S (span isWs t))); [done|simpl; lia|].
  cbn [take drop rev]. by rewrite <-app_assoc.
Qed.

(** Units of a match that is being skipped produce nothing. *)
Lemma scan_skip {A} (r : regex) (emit : rmatch → list A) (keep : Z → list A) :
  ∀ (n : nat) sn ah,
  (n ≤ length ah)%nat →
  scan r emit keep n sn ah
  = scan r emit keep O (rev (take n ah) ++ sn) (drop n ah).
Proof.
  induction n as [|n IH]; intros sn ah Hn.
  - by rewrite take_0, drop_0.
  - destruct ah as [|c t]; [simpl in Hn; lia|].
    cbn [scan take drop rev]. rewrite IH by (simpl in Hn; lia).
    by rewrite <-app_assoc.
Qed.

Lemma drop_span_ws t : drop (span isWs t) t = trimStart t.
Proof.
  induction t as [|c t IH]; cbn [span trimStart]; [done|].
  destruct (isWs c); [|done]. by cbn [drop].
Qed.

Lemma collapseAux_true_trimStart t :
  collapseAux true t = collapseAux false (trimStart t).
Proof.
  induction t as [|c t IH]; cbn [collapseAux trimStart]; [done|].
  destruct (isWs c) eqn:E; [done|]. cbn [collapseAux]. by rewrite E.
Qed.

Lemma trimStart_length t : (length (trimStart t) ≤ length t)%nat.
Proof.
  induction t as [|c t IH]; cbn [trimStart]; [done|].
  destruct (isWs c); simpl; lia.
Qed.

Lemma replaceAll_WS_RUN_scan : ∀ (n : nat) ah sn,
  (length ah ≤ n)%nat →
  scan RE_WS_RUN (λ _, [SPACE]) (λ c, [c]) O sn ah = collapseWs ah.
Proof.
  unfold collapseWs.
  induction n as [|n IH]; intros ah sn Hn.
  { destruct ah; [|simpl in Hn; lia]. cbn [scan]. by rewrite matchHere_WS_RUN. }
  destruct ah as [|c t].
  { cbn [scan]. by rewrite matchHere_WS_RUN. }
  cbn [scan]. rewrite matchHere_WS_RUN. cbn [collapseAux].
  destruct (isWs c).
  - cbn [mtext length]. pose proof (span_length isWs t).
    rewrite length_take. replace (span isWs t `min` length t)%nat with (span isWs t) by lia.
    rewrite scan_skip by done. rewrite drop_span_ws.
    rewrite IH by (pose proof (trimStart_length t); simpl in Hn; lia).
    by rewrite collapseAux_true_trimStart.
  - rewrite IH by (simpl in Hn; lia). done.
Qed.

Lemma replaceAll_WS_RUN s : replaceAll RE_WS_RUN [SPACE] s = collapseWs s.
Proof. unfold replaceAll. by apply (replaceAll_WS_RUN_scan (length s)). Qed.

(** *** [/^\s+|\s+$/g] removed *)

Lemma trimStart_app a b :
  trimStart (a ++ b) = if forallb isWs a then trimStart b else trimStart a ++ b.
Proof.
  induction a as [|c a IH]; cbn [app trimStart forallb]; [done|].
  destruct (isWs c); cbn [andb]; done.
Qed.

Lemma forallb_rev {A} (p : A → bool) l : forallb p (rev l) = forallb p l.
Proof.
  induction l as [|x l IH]; cbn [rev forallb]; [done|].
  rewrite forallb_app, IH. cbn [forallb]. rewrite andb_true_r. apply andb_comm.
Qed.

Lemma trimStart_all_ws a : forallb isWs a = true → trimStart a = [].
Proof.
  induction a as [|c a IH]; cbn [trimStart forallb]; [done|].
  destruct (isWs c); cbn [andb]; [done|discriminate].
Qed.

Lemma trimEnd_cons c t :
  trimEnd (c :: t) = if forallb isWs (c :: t) then [] else c :: trimEnd t.
Proof.
  unfold trimEnd. cbn [rev forallb]. rewrite trimStart_app, forallb_rev.
  destruct (forallb isWs t) eqn:Et.
  - rewrite andb_true_r. cbn [trimStart].
    rewrite (trimStart_all_ws (rev t)) by (by rewrite forallb_rev).
    by destruct (isWs c).
  - rewrite andb_false_r. rewrite rev_app_distr. done.
Qed.

Lemma matchHere_EDGE_WS sn ah :
  matchHere RE_EDGE_WS sn ah
  = match ah with
    | c :: t =>
        if isWs c then
          match sn with
          | [] => Some (mkMatch 0 (c :: take (span isWs t) t) [],
                        mkM (rev (take (span isWs t) t) ++ [c]) (drop (span isWs t) t) [])
          | _ :: _ =>
              if forallb isWs t
              then Some (mkMatch (len sn) (c :: t) [], mkM (rev t ++ c :: sn) [] [])
              else None
          end
        else None
    | [] => None
    end.
Proof.
  unfold matchHere, RE_EDGE_WS, ws. cbn [run seen].
  destruct sn as [|x sn].
  - rewrite run_Plus_Cls. destruct ah as [|c t].
    { by rewrite run_Plus_Cls. }
    destruct (isWs c) eqn:Ec.
    + rewrite greedyCls_accept. f_equal. f_equal.
      unfold pos. cbn [seen caps]. f_equal.
      pose proof (span_length isWs t).
      rewrite (consumed_length [] (c :: t) [] (S (span isWs t))); [done|simpl; lia|].
      cbn [take drop rev]. by rewrite <-app_assoc.
    + rewrite run_Plus_Cls. by rewrite Ec.
  - rewrite run_Plus_Cls. destruct ah as [|c t]; [done|].
    destruct (isWs c); [|done]. rewrite greedyCls_Eos.
    destruct (forallb isWs t); [|done]. f_equal. f_equal.
    unfold pos. cbn [seen caps]. f_equal.
    rewrite (consumed_length (x :: sn) (c :: t) [] (S (length t))); [|simpl; lia|].
    + cbn [take]. by rewrite take_ge by lia.
    + cbn [take drop rev]. rewrite take_ge, drop_all by lia. by rewrite <-app_assoc.
Qed.

Lemma scan_EDGE_WS_inner : ∀ ah sn,
  sn ≠ [] →
  scan RE_EDGE_WS (λ _, []) (λ c, [c]) O sn ah = trimEnd ah.
Proof.
  induction ah as [|c t IH]; intros sn Hsn.
  { cbn [scan]. rewrite matchHere_EDGE_WS. done. }
  cbn [scan]. rewrite matchHere_EDGE_WS, trimEnd_cons. cbn [forallb].
  destruct sn as [|x sn]; [done|].
  destruct (isWs c); cbn [andb].
  - destruct (forallb isWs t) eqn:Et.
    + cbn [mtext length app]. rewrite scan_skip by done.
      rewrite drop_all. cbn [scan]. by rewrite matchHere_EDGE_WS.
    + by rewrite IH.
  - by rewrite IH.
Qed.

Lemma trimStart_cons_ws c t : isWs c = true → trimStart (c :: t) = trimStart t.
Proof. cbn [trimStart]. by intros ->. Qed.

Lemma replaceAll_EDGE_WS s : replaceAll RE_EDGE_WS [] s = trim s.
Proof.
  unfold replaceAll, trim. destruct s as [|c t].
  { cbn [scan]. by rewrite matchHere_EDGE_WS. }
  cbn [scan]. rewrite matchHere_EDGE_WS.
  destruct (isWs c) eqn:Ec.
  - cbn [mtext length app]. pose proof (span_length isWs t).
    rewrite length_take. replace (span isWs t `min` length t)%nat with (span isWs t) by lia.
    rewrite scan_skip by done. rewrite drop_span_ws.
    rewrite scan_EDGE_WS_inner by (by destruct (rev (take (span isWs t) t))).
    by rewrite trimStart_cons_ws.
  - rewrite scan_EDGE_WS_inner by done. cbn [trimStart]. rewrite Ec.
    rewrite trimEnd_cons. cbn [forallb]. rewrite Ec. done.
Qed.

Lemma normalizeSpaces_eq s : normalizeSpaces s = trim (collapseWs s).
Proof. unfold normalizeSpaces. by rewrite replaceAll_WS_RUN, replaceAll_EDGE_WS. Qed.

(** *** Normalised text is a fixed point *)

Lemma wellSpaced_collapseAux b s : wellSpaced b (collapseAux b s) = true.
Proof.
  revert b. induction s as [|c t IH]; intros b; cbn [collapseAux]; [done|].
  destruct (isWs c) eqn:Ec.
  - destruct b; [apply IH|]. cbn [wellSpaced].
    replace (isWs SPACE) with true by reflexivity.
    rewrite Z.eqb_refl. cbn [andb negb]. apply IH.
  - cbn [wellSpaced]. rewrite Ec. apply IH.
Qed.

Lemma collapseAux_wellSpaced b s : wellSpaced b s = true → collapseAux b s = s.
Proof.
  revert b. induction s as [|c t IH]; intros b; cbn [collapseAux wellSpaced]; [done|].
  destruct (isWs c).
  - rewrite !andb_true_iff, negb_true_iff, Z.eqb_eq. intros [[-> ->] H].
    by rewrite IH.
  - intros H. by rewrite IH.
Qed.

Lemma wellSpaced_weaken s : wellSpaced true s = true → wellSpaced false s = true.
Proof.
  destruct s as [|c t]; cbn [wellSpaced]; [done|].
  destruct (isWs c); [|done]. rewrite andb_false_r. done.
Qed.

Lemma wellSpaced_true_head s : wellSpaced true s = true → trimStart s = s.
Proof.
  destruct s as [|c t]; cbn [wellSpaced trimStart]; [done|].
  destruct (isWs c); [|done]. rewrite andb_false_r. done.
Qed.

Lemma wellSpaced_trimStart s :
  wellSpaced false s = true → wellSpaced false (trimStart s) = true.
Proof.
  destruct s as [|c t]; cbn [wellSpaced trimStart]; [done|].
  destruct (isWs c) eqn:Ec.
  - rewrite !andb_true_iff. intros [_ H].
    rewrite (wellSpaced_true_head t H). by apply wellSpaced_weaken.
  - cbn [wellSpaced]. by rewrite Ec.
Qed.

Lemma wellSpaced_trimEnd b s :
  wellSpaced b s = true → wellSpaced b (trimEnd s) = true.
Proof.
  revert b. induction s as [|c t IH]; intros b; [done|].
  rewrite trimEnd_cons. destruct (forallb isWs (c :: t)); [done|].
  cbn [wellSpaced]. destruct (isWs c).
  - rewrite !andb_true_iff. intros [? H]. split; [done|]. by apply IH.
  - apply IH.
Qed.

Lemma trimStart_idem s : trimStart (trimStart s) = trimStart s.
Proof.
  induction s as [|c t IH]; cbn [trimStart]; [done|].
  destruct (isWs c) eqn:Ec; [done|]. cbn [trimStart]. by rewrite Ec.
Qed.

Lemma trimEnd_idem s : trimEnd (trimEnd s) = trimEnd s.
Proof. unfold trimEnd. by rewrite rev_involutive, trimStart_idem. Qed.

Lemma trimStart_trimEnd u :
  trimStart u = u → trimStart (trimEnd u) = trimEnd u.
Proof.
  destruct u as [|c t]; [done|]. cbn [trimStart]. destruct (isWs c) eqn:Ec.
  - intros H. pose proof (trimStart_length t) as Hl. rewrite H in Hl. simpl in Hl. lia.
  - intros _. rewrite trimEnd_cons. cbn [forallb]. rewrite Ec. cbn [andb trimStart].
    by rewrite Ec.
Qed.

Lemma trim_idem s : trim (trim s) = trim s.
Proof.
  unfold trim. rewrite (trimStart_trimEnd (trimStart s)) by apply trimStart_idem.
  apply trimEnd_idem.
Qed.

Lemma normalizeSpaces_wellSpaced s : wellSpaced false (normalizeSpaces s) = true.
Proof.
  rewrite normalizeSpaces_eq. unfold trim.
  apply wellSpaced_trimEnd, wellSpaced_trimStart, wellSpaced_collapseAux.
Qed.

Lemma normalizeSpaces_idem s : normalizeSpaces (normalizeSpaces s) = normalizeSpaces s.
Proof.
  rewrite (normalizeSpaces_eq (normalizeSpaces s)). unfold collapseWs.
  rewrite collapseAux_wellSpaced by apply normalizeSpaces_wellSpaced.
  rewrite normalizeSpaces_eq. apply trim_idem.
Qed.

Lemma trim_normalizeSpaces s : trim (normalizeSpaces s) = normalizeSpaces s.
Proof. rewrite normalizeSpaces_eq. apply trim_idem. Qed.

(** * Further properties

    Properties of the functions above that the code itself shows: what they
    return at the edges of their input, the invariants their loops keep, and
    how they compose. *)

(** ** Strings and numbers *)

Lemma uintChars_nil u : uintChars u = [] → u = Nil.
Proof. by destruct u. Qed.

Lemma toString_nonempty n : 0 < n → toString n ≠ [].
Proof.
  intros Hn. unfold toString. destruct n as [|p|p]; try lia.
  cbn. intros H%uintChars_nil. by apply Unsigned.to_uint_nonnil in H.
Qed.

Lemma uintChars_digits u : Forall (λ c, isDigit c = true) (uintChars u).
Proof. induction u; cbn [uintChars]; by constructor. Qed.

Lemma uintChars_inj u v : uintChars u = uintChars v → u = v.
Proof.
  revert v. induction u as [|u IH|u IH|u IH|u IH|u IH|u IH|u IH|u IH|u IH|u IH];
    intros [|v|v|v|v|v|v|v|v|v|v]; cbn [uintChars]; try done;
    intros [= H]; f_equal; by apply IH.
Qed.

Lemma toString_inj n m : toString n = toString m → n = m.
Proof.
  unfold toString. intros H. apply DecimalZ.to_int_inj.
  destruct (Z.to_int n) as [u|u], (Z.to_int m) as [v|v].
  - f_equal. by apply uintChars_inj.
  - pose proof (uintChars_digits u) as Hd. rewrite H in Hd.
    apply Forall_cons in Hd as [Hd _]. done.
  - pose proof (uintChars_digits v) as Hd. rewrite <- H in Hd.
    apply Forall_cons in Hd as [Hd _]. done.
  - injection H as H. f_equal. by apply uintChars_inj.
Qed.

Lemma toString_digits n : 0 < n →
  toString n ≠ [] ∧ Forall (λ c, isDigit c = true) (toString n).
Proof.
  intros Hn. split; [by apply toString_nonempty|].
  unfold toString. destruct n as [|p|p]; try lia. apply uintChars_digits.
Qed.

Lemma isDigit_not_ws c : isDigit c = true → isWs c = false.
Proof.
  unfold isDigit. intros [H1%Z.leb_le H2%Z.leb_le]%andb_true_iff.
  unfold isWs. repeat (apply orb_false_iff; split); try (apply Z.eqb_neq; lia).
  apply andb_false_iff. left. apply Z.leb_gt. lia.
Qed.

Lemma startsWith_app p r : startsWith (p ++ r) p = true.
Proof. apply startsWith_prefix. by exists r. Qed.

Lemma startsWith_length s p : startsWith s p = true → (length p ≤ length s)%nat.
Proof.
  intros [r ->]%startsWith_prefix. rewrite length_app. lia.
Qed.

Lemma startsWith_app_l s t p : startsWith s p = true → startsWith (s ++ t) p = true.
Proof.
  intros [r ->]%startsWith_prefix. apply startsWith_prefix.
  exists (r ++ t). by rewrite app_assoc.
Qed.

Lemma startsWith_short s t p :
  (length p ≤ length s)%nat → startsWith (s ++ t) p = startsWith s p.
Proof.
  revert s. induction p as [|a p IH]; intros s Hlen; [done|].
  destruct s as [|b s]; [cbn in Hlen; lia|].
  cbn [app startsWith]. rewrite IH; [done|]. cbn in Hlen. lia.
Qed.

Lemma split_nonempty sep s : split sep s ≠ [].
Proof.
  destruct s as [|c s]; [done|]. cbn [split].
  destruct (c =? sep); [done|]. by destruct (split sep s).
Qed.

Lemma split_app sep a b : split sep (a ++ sep :: b) = split sep a ++ split sep b.
Proof.
  induction a as [|c a IH].
  - cbn [app split]. by rewrite Z.eqb_refl.
  - cbn [app split]. destruct (c =? sep); [by rewrite IH|].
    rewrite IH. pose proof (split_nonempty sep a).
    by destruct (split sep a).
Qed.

Lemma split_one sep l : forallb (λ c, negb (c =? sep)) l = true → split sep l = [l].
Proof.
  induction l as [|c l IH]; [done|]. cbn [forallb split].
  intros [Hc Hl]%andb_true_iff. apply negb_true_iff in Hc. rewrite Hc.
  by rewrite IH.
Qed.

Lemma findFrom_length p : ∀ s pos,
  findFrom p s pos ≠ -1 → 0 ≤ pos → (length p ≤ length s)%nat.
Proof.
  induction s as [|c s IH]; intros pos H Hpos.
  - cbn in H. destruct (startsWith [] p) eqn:E; [|done].
    by apply startsWith_length in E.
  - cbn [findFrom] in H. destruct (startsWith (c :: s) p) eqn:E.
    + by apply startsWith_length in E.
    + apply IH in H; [|lia]. cbn [length]. lia.
Qed.

Lemma findFrom_app p t : ∀ s pos,
  findFrom p s pos ≠ -1 → 0 ≤ pos → findFrom p (s ++ t) pos = findFrom p s pos.
Proof.
  induction s as [|c s IH]; intros pos H Hpos.
  - pose proof (findFrom_length _ _ _ H Hpos) as Hl.
    destruct p; [|cbn in Hl; lia]. by destruct t.
  - pose proof (findFrom_length _ _ _ H Hpos) as Hl.
    cbn [app findFrom] in *.
    change (c :: s ++ t) with ((c :: s) ++ t).
    rewrite startsWith_short by done.
    destruct (startsWith (c :: s) p); [done|].
    apply IH; [done|lia].
Qed.

Lemma clamp_0 (s : jsstring) : clamp 0 s = 0.
Proof. unfold clamp. pose proof (len_nonneg s). lia. Qed.

Lemma indexOf_app s t p :
  indexOf s p 0 ≠ -1 → indexOf (s ++ t) p 0 = indexOf s p 0.
Proof.
  unfold indexOf. rewrite !clamp_0. cbn [Z.to_nat drop]. intros H.
  by apply findFrom_app.
Qed.

Lemma substringFrom_app s t k :
  0 ≤ k ≤ len s → substringFrom (s ++ t) k = substringFrom s k ++ t.
Proof.
  intros Hk. unfold substringFrom, clamp. rewrite len_app.
  pose proof (len_nonneg t).
  rewrite !Z.min_l, !Z.max_r by lia.
  rewrite drop_app_le; [done|]. unfold len in Hk. lia.
Qed.

Lemma indexOf_fits s p from :
  indexOf s p from ≠ -1 →
  clamp from s ≤ indexOf s p from ∧ indexOf s p from + len p ≤ len s.
Proof.
  intros H. pose proof (indexOf_occurs s p from H) as Hocc.
  apply startsWith_length in Hocc. rewrite length_drop in Hocc.
  destruct (indexOf_range s p from) as [|[H1 H2]]; [done|].
  pose proof (clamp_range from s). unfold len in *. split; [done|].
  destruct p as [|c p]; cbn [length] in *; lia.
Qed.

Lemma indexOf_from s p from :
  p ≠ [] → 0 ≤ from → indexOf s p from ≠ -1 → from ≤ indexOf s p from.
Proof.
  intros Hp Hfrom H. destruct (indexOf_fits s p from H) as [H1 H2].
  assert (0 < len p) by (destruct p; [done|unfold len; cbn [length]; lia]).
  unfold clamp in H1. lia.
Qed.

Lemma findFrom_hit p : ∀ (n : nat) s pos,
  0 ≤ pos → startsWith (drop n s) p = true →
  pos ≤ findFrom p s pos ≤ pos + Z.of_nat n.
Proof.
  induction n as [|n IH]; intros s pos Hpos Hocc.
  - rewrite drop_0 in Hocc. destruct s; cbn [findFrom]; rewrite Hocc; lia.
  - destruct s as [|c s].
    + rewrite drop_nil in Hocc. cbn [findFrom]. rewrite Hocc. lia.
    + cbn [drop] in Hocc. cbn [findFrom].
      destruct (startsWith (c :: s) p); [lia|].
      specialize (IH s (pos + 1) ltac:(lia) Hocc). lia.
Qed.

Lemma indexOf_hit s p from (i : Z) :
  0 ≤ from ≤ i → i ≤ len s →
  startsWith (drop (Z.to_nat i) s) p = true →
  from ≤ indexOf s p from ≤ i.
Proof.
  intros Hfrom Hi Hocc. unfold indexOf.
  assert (clamp from s = from) as -> by (unfold clamp; lia).
  pose proof (findFrom_hit p (Z.to_nat (i - from)) (drop (Z.to_nat from) s) from
                ltac:(lia)) as H.
  rewrite drop_drop in H. replace (Z.to_nat from + Z.to_nat (i - from))%nat
    with (Z.to_nat i) in H by lia.
  specialize (H Hocc). lia.
Qed.

Lemma substring_0 (s : jsstring) n :
  substring s 0 n = take (Z.to_nat (clamp n s)) s.
Proof.
  unfold substring. cbv zeta. pose proof (clamp_range n s).
  assert (clamp 0 s = 0) as -> by (unfold clamp; pose proof (len_nonneg s); lia).
  rewrite Z.min_l, Z.max_r by lia. cbn [Z.to_nat drop]. f_equal. lia.
Qed.

Lemma substring_0_length (s : jsstring) n : 0 ≤ n → len (substring s 0 n) ≤ n.
Proof.
  intros Hn. unfold substring, len. cbv zeta. rewrite length_take.
  pose proof (clamp_range 0 s). pose proof (clamp_range n s).
  unfold clamp in *. lia.
Qed.

Lemma sublist_rev {A} (l1 l2 : list A) :
  l1 `sublist_of` l2 → rev l1 `sublist_of` rev l2.
Proof.
  induction 1 as [|x l1 l2 _ IH|x l1 l2 _ IH]; cbn [rev].
  - done.
  - by apply sublist_app.
  - by apply sublist_inserts_r.
Qed.

Lemma app_agree (a b r1 r2 : jsstring) : a ++ r1 = b ++ r2 → agree a b = true.
Proof.
  revert b. induction a as [|x a IH]; intros [|y b]; cbn [app agree]; try done.
  intros [= -> H]. rewrite Z.eqb_refl. by apply IH.
Qed.

Lemma filter_length_le {A} (p : A → bool) l : len (List.filter p l) ≤ len l.
Proof.
  unfold len. induction l as [|x l IH]; [done|]. cbn [List.filter].
  destruct (p x); cbn [length]; lia.
Qed.

Lemma sumOf_cons {A} (f : A → Z) x l : sumOf f (x :: l) = f x + sumOf f l.
Proof. reflexivity. Qed.

Lemma sumOf_app {A} (f : A → Z) l1 l2 : sumOf f (l1 ++ l2) = sumOf f l1 + sumOf f l2.
Proof.
  induction l1 as [|x l1 IH]; [done|]. cbn [app]. rewrite !sumOf_cons, IH. lia.
Qed.

(** ** The answer key decoder, further *)

(** *** The two scripts decode the same key *)

Lemma official_savePending st : Official.savePending st = saveAnswers st.
Proof. reflexivity. Qed.

Lemma official_collect st sec qs line :
  currentSection st = Some sec →
  Official.collect st sec qs line = collect st qs line.
Proof.
  intros Hsec. unfold Official.collect, collect, Official.saveAnswers, saveAnswers.
  cbn [currentSection questionNumbers collectedAnswers answerKey].
  rewrite Hsec.
  destruct (len qs <=? len (collectedAnswers st ++ line)); [|done].
  destruct (collectedAnswers st ++ line) as [|c cs] eqn:E.
  - by rewrite zip_with_nil_r.
  - done.
Qed.

Lemma official_headerStep st line : Official.headerStep st line = headerStep st line.
Proof. reflexivity. Qed.

Lemma official_digitStep st line : Official.digitStep st line = digitStep st line.
Proof.
  unfold Official.digitStep, digitStep.
  destruct (currentSection st) as [sec|] eqn:Hsec; [|done].
  destruct (allDigits line && (10 <? len line)).
  - destruct (startsWith line SENTINEL_PREFIX); [done|].
    destruct (questionNumbers st); [|done]. by apply official_collect.
  - destruct (questionNumbers st); [|done].
    destruct (allDigits line); [|done]. by apply official_collect.
Qed.

Lemma official_keyLineStep st raw : Official.keyLineStep st raw = keyLineStep st raw.
Proof.
  unfold Official.keyLineStep, keyLineStep.
  by rewrite official_headerStep, official_digitStep.
Qed.

Lemma official_scanKeyLines lines : ∀ st,
  Official.scanKeyLines st lines = scanKeyLines st lines.
Proof.
  induction lines as [|l lines IH]; intros st; [done|].
  cbn [Official.scanKeyLines scanKeyLines]. rewrite official_keyLineStep.
  destruct (keyLineStep st l) as [st' []]; [done|apply IH].
Qed.

Lemma official_parseAnswerKey_eq examText :
  Official.parseAnswerKey examText = parseAnswerKey examText.
Proof.
  unfold Official.parseAnswerKey, parseAnswerKey.
  destruct (keyLines examText); [|done]. by rewrite official_scanKeyLines.
Qed.

(** X1.  [parseAnswerKey] of [official-parser.cjs], which passes the decoder
    state to a [saveAnswers] of its own and tests it at the call sites,
    returns the same answer key as [parseAnswerKey] of
    [improved-parser.cjs], for every exam text. *)
Theorem official_parseAnswerKey_agrees (examText : jsstring) :
  Official.parseAnswerKey examText = parseAnswerKey examText.
Proof. apply official_parseAnswerKey_eq. Qed.

(** *** The sentinel row of a section of any size *)

Lemma sentinelLoop_row : ∀ (k : nat) fuel num acc,
  0 < num →
  (length (concat (toString <$> seqZ num (Z.of_nat k))) ≤ fuel)%nat →
  sentinelLoop fuel (concat (toString <$> seqZ num (Z.of_nat k))) num acc
  = acc ++ seqZ num (Z.of_nat k).
Proof.
  induction k as [|k IH]; intros fuel num acc Hnum Hfuel.
  - cbn. rewrite app_nil_r. by destruct fuel.
  - rewrite Nat2Z.inj_succ in *. rewrite seqZ_cons in * by lia.
    replace (Z.pred (Z.succ (Z.of_nat k))) with (Z.of_nat k) in * by lia.
    rewrite fmap_cons in *. cbn [concat] in *.
    pose proof (toString_nonempty num Hnum) as Hne.
    destruct (toString num) as [|c cs] eqn:Hs; [done|].
    rewrite length_app in Hfuel. cbn [length] in Hfuel.
    destruct fuel as [|fuel]; [lia|].
    cbn [sentinelLoop app]. rewrite Hs.
    change (c :: cs ++ ?r) with ((c :: cs) ++ r).
    rewrite startsWith_app, drop_app_length.
    replace (Z.succ num) with (num + 1) in * by lia.
    rewrite IH; [by rewrite <- app_assoc|lia|].
    cbn [length] in Hfuel. lia.
Qed.

(** X2.  Round trip of the sentinel row: the loop that reads the row
    recovers 1, 2, ..., k from the numbers 1 to k written one after the
    other, for every k. *)
Theorem sentinel_row_round_trip (k : nat) :
  decodeSentinel (sentinelRow k) = seqZ 1 (Z.of_nat k).
Proof.
  unfold decodeSentinel, sentinelRow. by rewrite sentinelLoop_row.
Qed.

Lemma sentinelRow_23 : sentinelRow 23 = SENTINEL_23.
Proof. by vm_compute. Qed.

Lemma sentinelRow_digits (k : nat) : Forall (λ c, isDigit c = true) (sentinelRow k).
Proof.
  unfold sentinelRow. apply Forall_concat, Forall_fmap, Forall_forall.
  intros n Hn%elem_of_seqZ. cbn. apply toString_digits. lia.
Qed.

Lemma sentinelRow_split (k : nat) :
  (10 ≤ k)%nat →
  sentinelRow k = sentinelRow 10 ++ concat (toString <$> seqZ 11 (Z.of_nat k - 10)).
Proof.
  intros Hk. unfold sentinelRow.
  replace (Z.of_nat k) with (Z.of_nat 10 + (Z.of_nat k - 10)) at 1 by lia.
  rewrite seqZ_app by lia. by rewrite fmap_app, concat_app.
Qed.

Lemma keyLineStep_sentinelRow st sec (k : nat) :
  (10 ≤ k)%nat →
  currentSection st = Some sec →
  keyLineStep st (sentinelRow k)
  = (mkKeyState (answerKey st) (Some sec) (Some (seqZ 1 (Z.of_nat k))) [], false).
Proof.
  intros Hk Hs. pose proof (sentinelRow_digits k) as Hd.
  assert (forallb isDigit (sentinelRow k) = true) as Hb by (by apply forallb_Forall).
  assert (10 < len (sentinelRow k)) as Hlen.
  { rewrite (sentinelRow_split k Hk), len_app.
    pose proof (len_nonneg (concat (toString <$> seqZ 11 (Z.of_nat k - 10)))).
    replace (len (sentinelRow 10)) with 11 by (by vm_compute). lia. }
  assert (startsWith (sentinelRow k) SENTINEL_PREFIX = true) as Hsw.
  { rewrite (sentinelRow_split k Hk). apply startsWith_app_l. by vm_compute. }
  unfold keyLineStep, headerStep, digitStep.
  rewrite (trim_no_ws isDigit) by first [done | apply isDigit_not_ws].
  rewrite (matchSection_none_of isDigit) by first [done | repeat constructor].
  rewrite (includes_false_of isDigit) by done.
  rewrite Hs, Hsw. unfold allDigits. rewrite Hb.
  replace (0 =? len (sentinelRow k)) with false by (symmetry; apply Z.eqb_neq; lia).
  replace (10 <? len (sentinelRow k)) with true by (symmetry; apply Z.ltb_lt; lia).
  cbn [negb andb]. unfold decodeSentinel, sentinelRow.
  by rewrite sentinelLoop_row.
Qed.

(** X3.  In a section that has no entries yet, the sentinel row of k
    questions (k at least 10, so that the row is read as one) followed by
    answer lines of digits 1 to 4 that total k digits gives exactly k
    entries, numbered 1 to k, entry j holding the j-th digit. *)
Theorem sentinel_row_yields_all_entries
    (k : nat) (st : KeyState) (sec : string) (answers : list jsstring) :
  (10 ≤ k)%nat →
  currentSection st = Some sec →
  answerKey st !! sec = Some ∅ →
  Forall (λ l, forallb isAnswerDigit l = true) answers →
  len (concat answers) = Z.of_nat k →
  ∃ m, answerKey (scanKeyLines st (sentinelRow k :: answers)) !! sec = Some m
       ∧ size m = k
       ∧ (∀ q, is_Some (m !! q) ↔ 1 ≤ q ≤ Z.of_nat k)
       ∧ (∀ i c, concat answers !! i = Some c →
                 m !! (1 + Z.of_nat i) = Some (c - 48)).
Proof.
  intros Hk Hs Hempty Hall Htot.
  cbn [scanKeyLines]. rewrite (keyLineStep_sentinelRow st sec k Hk Hs).
  assert (len (seqZ 1 (Z.of_nat k)) = Z.of_nat k) as Hqs.
  { unfold len. rewrite length_seqZ. lia. }
  rewrite scan_answers; [|done|rewrite Hqs; unfold len; cbn [length]; lia|by rewrite Hqs].
  cbn [answerKey app]. unfold saveAnswers.
  cbn [currentSection questionNumbers collectedAnswers answerKey].
  replace (0 <? len (concat answers)) with true
    by (symmetry; apply Z.ltb_lt; lia).
  set (cs := concat answers) in *.
  assert (forallb isAnswerDigit cs = true) as Hcs.
  { apply forallb_Forall. apply Forall_concat.
    eapply Forall_impl; [exact Hall|]. intros l Hl. by apply forallb_Forall. }
  set (m := default ∅ (foldl (saveOne sec) (answerKey st)
                         (zip (seqZ 1 (Z.of_nat k)) cs) !! sec)).
  assert (∀ i c, cs !! i = Some c → m !! (1 + Z.of_nat i) = Some (c - 48)) as Hhit.
  { intros i c Hi. apply foldl_saveOne_hit; [done|done|].
    apply lookup_lt_Some in Hi. unfold len in Htot. lia. }
  assert (∀ q, is_Some (m !! q) ↔ 1 ≤ q ≤ Z.of_nat k) as Hdom.
  { intros q. split.
    - intros Hq.
      destruct (decide (1 ≤ q < 1 + Z.min (Z.of_nat k) (len cs))) as [|Hn]; [lia|].
      unfold m in Hq. rewrite foldl_saveOne_miss in Hq by done.
      rewrite Hempty in Hq. cbn in Hq. rewrite lookup_empty in Hq. by destruct Hq.
    - intros Hq. destruct (lookup_lt_is_Some_2 cs (Z.to_nat (q - 1))) as [c Hc].
      { unfold len in Htot. lia. }
      specialize (Hhit _ _ Hc).
      replace (1 + Z.of_nat (Z.to_nat (q - 1))) with q in Hhit by lia.
      eauto. }
  exists m. split; [|split; [|split]]; [|  |done|done].
  - apply foldl_saveOne_section. by rewrite Hempty.
  - rewrite <-size_dom.
    assert (dom m = list_to_set (seqZ 1 (Z.of_nat k))) as ->.
    { apply set_eq. intros q.
      rewrite elem_of_dom, Hdom, elem_of_list_to_set, elem_of_seqZ. lia. }
    rewrite size_list_to_set by apply NoDup_seqZ. rewrite length_seqZ. lia.
Qed.

(** *** The scoring marker ends the scan *)

Lemma scanKeyLines_stop pre line post : ∀ st,
  includes (trim line) SCORING_MARKER = true →
  scanKeyLines st (pre ++ line :: post) = scanKeyLines st (pre ++ [line]).
Proof.
  induction pre as [|l pre IH]; intros st Hstop.
  - cbn [app scanKeyLines]. unfold keyLineStep. by rewrite Hstop.
  - cbn [app scanKeyLines]. destruct (keyLineStep st l) as [st' []]; [done|].
    by apply IH.
Qed.

(** X4.  The decoder stops at the line that holds the scoring marker: in
    a text whose answer-key marker occurs before that line, the text after
    the line never changes the answer key.  (The decoder starts at the first
    answer-key marker, so a scoring line in front of it stops nothing.) *)
Theorem answer_key_ignores_text_after_scoring (head line tail : jsstring) :
  includes head ANSWER_KEY_MARKER = true →
  noNewline line = true →
  includes (trim line) SCORING_MARKER = true →
  parseAnswerKey (head ++ NL :: line ++ NL :: tail)
  = parseAnswerKey (head ++ NL :: line).
Proof.
  intros Hkey Hline Hstop.
  unfold includes in Hkey. apply negb_true_iff, Z.eqb_neq in Hkey.
  unfold parseAnswerKey, keyLines.
  rewrite !indexOf_app by done.
  destruct (indexOf head ANSWER_KEY_MARKER 0 =? -1) eqn:E; [done|].
  assert (0 ≤ indexOf head ANSWER_KEY_MARKER 0 ≤ len head) as Hk.
  { destruct (indexOf_range head ANSWER_KEY_MARKER 0) as [|[H1 H2]]; [done|].
    rewrite clamp_0 in H1. lia. }
  rewrite !substringFrom_app by done.
  rewrite !split_app. rewrite (split_one NL line) by done.
  f_equal. apply scanKeyLines_stop. done.
Qed.

(** ** The normalizer, further *)

(** *** Replacements by the empty string only remove *)

Lemma scan_remove_sublist r : ∀ ah (skip : nat) sn,
  scan r (λ _, []) (λ c, [c]) skip sn ah `sublist_of` ah.
Proof.
  induction ah as [|c t IH]; intros skip sn; cbn [scan].
  - destruct skip; [|done]. by destruct (matchHere r sn []) as [[m e]|].
  - destruct skip as [|n]; [|by apply sublist_cons].
    destruct (matchHere r sn (c :: t)) as [[m e]|].
    + destruct (length (mtext m)); cbn [app].
      * by apply sublist_skip.
      * by apply sublist_cons.
    + cbn [app]. by apply sublist_skip.
Qed.

Lemma replaceAll_remove_sublist r s : replaceAll r [] s `sublist_of` s.
Proof. apply scan_remove_sublist. Qed.

Lemma trimStart_sublist s : trimStart s `sublist_of` s.
Proof.
  induction s as [|c s IH]; [done|]. cbn [trimStart].
  destruct (isWs c); [by apply sublist_cons|done].
Qed.

Lemma trimEnd_sublist s : trimEnd s `sublist_of` s.
Proof.
  unfold trimEnd. rewrite <- (rev_involutive s) at 2.
  apply sublist_rev, trimStart_sublist.
Qed.

Lemma trim_sublist s : trim s `sublist_of` s.
Proof.
  unfold trim. etrans; [apply trimEnd_sublist|apply trimStart_sublist].
Qed.

Lemma stripBoilerplate_sublist s : stripBoilerplate s `sublist_of` s.
Proof.
  unfold stripBoilerplate.
  repeat (etrans; [apply replaceAll_remove_sublist|]). done.
Qed.

Lemma collapseAux_length b s : (length (collapseAux b s) ≤ length s)%nat.
Proof.
  revert b. induction s as [|c s IH]; intros b; [done|]. cbn [collapseAux].
  pose proof (IH true). pose proof (IH false).
  destruct (isWs c); [destruct b|]; cbn [length]; lia.
Qed.

Lemma collapseAux_units b s c :
  c ∈ collapseAux b s → (c ∈ s ∧ isWs c = false) ∨ c = SPACE.
Proof.
  revert b. induction s as [|d s IH]; intros b; cbn [collapseAux].
  - by intros ?%elem_of_nil.
  - destruct (isWs d) eqn:Hd; [destruct b|].
    + intros [[]|]%IH; [left; split; [by right|done]|by right].
    + intros [->|[[]|]%IH]%elem_of_cons;
        [by right|left; split; [by right|done]|by right].
    + intros [->|[[]|]%IH]%elem_of_cons;
        [left; split; [by left|done]|left; split; [by right|done]|by right].
Qed.

Lemma cleanText_sublist x : cleanText x `sublist_of` replaceAll RE_WS_RUN [SPACE] x.
Proof.
  destruct x as [|c x]; [apply sublist_nil_l|].
  cbn [cleanText]. etrans; [apply trim_sublist|].
  etrans; [apply stripBoilerplate_sublist|].
  unfold normalizeSpaces. apply replaceAll_remove_sublist.
Qed.

Lemma cleanText_length x : len (cleanText x) ≤ len x.
Proof.
  pose proof (sublist_length _ _ (cleanText_sublist x)) as H.
  rewrite replaceAll_WS_RUN in H.
  pose proof (collapseAux_length false x). unfold collapseWs in H.
  unfold len. lia.
Qed.

Lemma cleanExplanation_sublist x : cleanExplanation x `sublist_of` cleanText x.
Proof.
  destruct x as [|c x]; [done|].
  cbn [cleanExplanation]. etrans; [apply trim_sublist|].
  etrans; apply replaceAll_remove_sublist.
Qed.

Lemma cleanExplanation_length x : len (cleanExplanation x) ≤ len x.
Proof.
  pose proof (sublist_length _ _ (cleanExplanation_sublist x)).
  pose proof (cleanText_length x). unfold len in *. lia.
Qed.

Lemma normalized_length s : len (trim (replaceAll RE_WS_RUN [SPACE] s)) ≤ len s.
Proof.
  pose proof (sublist_length _ _ (trim_sublist (replaceAll RE_WS_RUN [SPACE] s))) as H.
  rewrite replaceAll_WS_RUN in *. pose proof (collapseAux_length false s).
  unfold collapseWs, len in *. lia.
Qed.

(** X5.  [cleanText] adds nothing: its result is a subsequence of the text
    with whitespace runs replaced by one space, it is not longer than the
    text, each of its units is a space or a unit of the text that is not
    whitespace, and [cleanExplanation] returns a subsequence of it. *)
Theorem cleanText_only_removes (text : jsstring) :
  cleanText text `sublist_of` replaceAll RE_WS_RUN [SPACE] text
  ∧ len (cleanText text) ≤ len text
  ∧ (∀ c, c ∈ cleanText text → (c ∈ text ∧ isWs c = false) ∨ c = SPACE)
  ∧ cleanExplanation text `sublist_of` cleanText text.
Proof.
  split; [apply cleanText_sublist|]. split; [apply cleanText_length|].
  split; [|apply cleanExplanation_sublist].
  intros c Hc. eapply elem_of_sublist in Hc; [|apply cleanText_sublist].
  rewrite replaceAll_WS_RUN in Hc. by apply collapseAux_units in Hc.
Qed.

(** *** The result is trimmed *)

Lemma trimStart_head s : headIs isWs (trimStart s) = false.
Proof.
  induction s as [|c s IH]; [done|]. cbn [trimStart].
  destruct (isWs c) eqn:E; [done|]. cbn. done.
Qed.

Lemma trimEnd_last s : headIs isWs (rev (trimEnd s)) = false.
Proof. unfold trimEnd. rewrite rev_involutive. apply trimStart_head. Qed.

Lemma trimEnd_head s : headIs isWs s = false → headIs isWs (trimEnd s) = false.
Proof.
  destruct s as [|c s]; [done|]. rewrite trimEnd_cons.
  destruct (forallb isWs (c :: s)); [done|]. done.
Qed.

Lemma trim_edges s :
  headIs isWs (trim s) = false ∧ headIs isWs (rev (trim s)) = false.
Proof.
  unfold trim. split; [apply trimEnd_head, trimStart_head|apply trimEnd_last].
Qed.

Lemma collapse_all_ws s : forallb isWs s = true → trim (collapseWs s) = [].
Proof.
  intros H. destruct s as [|c s]; [done|].
  cbn in H. apply andb_true_iff in H as [Hc Hs].
  unfold collapseWs. cbn [collapseAux]. rewrite Hc.
  assert (∀ t, forallb isWs t = true → collapseAux true t = []) as Hnil.
  { induction t as [|d t IH]; [done|]. cbn.
    intros [Hd Ht]%andb_true_iff. rewrite Hd. by apply IH. }
  rewrite Hnil by done. by vm_compute.
Qed.

Lemma cleanText_edges x :
  headIs isWs (cleanText x) = false ∧ headIs isWs (rev (cleanText x)) = false.
Proof. destruct x; [done|]. apply trim_edges. Qed.

Lemma cleanExplanation_edges x :
  headIs isWs (cleanExplanation x) = false
  ∧ headIs isWs (rev (cleanExplanation x)) = false.
Proof. destruct x; [done|]. apply trim_edges. Qed.

(** X6.  The results of [cleanText] and [cleanExplanation] neither start
    nor end with whitespace, and both are empty for a text that holds
    whitespace only. *)
Theorem cleanText_trimmed (text : jsstring) :
  headIs isWs (cleanText text) = false
  ∧ headIs isWs (rev (cleanText text)) = false
  ∧ headIs isWs (cleanExplanation text) = false
  ∧ headIs isWs (rev (cleanExplanation text)) = false
  ∧ (forallb isWs text = true → cleanText text = [] ∧ cleanExplanation text = []).
Proof.
  destruct (cleanText_edges text). destruct (cleanExplanation_edges text).
  repeat (split; [done|]).
  destruct text as [|c x]; [done|].
  cbn [cleanText cleanExplanation].
  intros Hws. rewrite normalizeSpaces_eq, collapse_all_ws by done.
  by vm_compute.
Qed.

(** X7.  [cleanText] of the complete-exam parser, which has the whitespace
    stage only, is idempotent on every text, and [cleanText] of
    [improved-parser.cjs] agrees with it on the texts in which no boilerplate
    pattern matches. *)
Theorem legacy_cleanText_idempotent (text : jsstring) :
  Legacy.cleanText (Legacy.cleanText text) = Legacy.cleanText text
  ∧ (stripBoilerplate (normalizeSpaces text) = normalizeSpaces text →
     cleanText text = Legacy.cleanText text).
Proof.
  unfold Legacy.cleanText. destruct text as [|c x]; [done|].
  rewrite trim_normalizeSpaces. split.
  - destruct (normalizeSpaces (c :: x)) as [|d y] eqn:E; [done|].
    rewrite <- E. by rewrite normalizeSpaces_idem, trim_normalizeSpaces.
  - intros H. cbn [cleanText]. rewrite H. apply trim_normalizeSpaces.
Qed.

(** ** Inline options, further *)

(** *** The slots of a recognized sequence *)

Lemma existsb_insert (l : list jsstring) (i : nat) t :
  (i < length l)%nat → nonEmpty t = true → existsb nonEmpty (<[i := t]> l) = true.
Proof.
  intros Hi Ht. apply existsb_exists. exists t. split; [|done].
  apply list_elem_of_In, list_elem_of_lookup. exists i.
  by apply list_lookup_insert_eq.
Qed.

Lemma setOption_slots acc n t :
  slotsInv acc → trim t = t → slotsInv (setOption acc n t).
Proof.
  intros (Hlen & Hflag & Htrim) Ht. unfold setOption.
  destruct ((1 <=? n) && (n <=? 4) && negb (0 =? len t)) eqn:E; [|done].
  apply andb_true_iff in E as [[H1 H2]%andb_true_iff H3].
  apply Z.leb_le in H1, H2. apply negb_true_iff, Z.eqb_neq in H3.
  split; [|split]; cbn [fst snd].
  - by rewrite length_insert.
  - intros _. apply existsb_insert; [lia|].
    unfold nonEmpty. pose proof (len_nonneg t). apply Z.ltb_lt. lia.
  - by apply Forall_insert.
Qed.

Lemma fold_slots idx txt ms : ∀ acc,
  (∀ m, trim (txt m) = txt m) →
  slotsInv acc → slotsInv (foldl (optionStep idx txt) acc ms).
Proof.
  induction ms as [|m ms IH]; intros acc Htxt Hacc; [done|].
  cbn [foldl]. apply IH; [done|]. by apply setOption_slots.
Qed.

Lemma optionPass_slots idx txt ms acc :
  (∀ m, trim (txt m) = txt m) →
  slotsInv acc → slotsInv (optionPass (optionStep idx txt) ms acc).
Proof.
  intros Htxt Hacc. unfold optionPass.
  destruct (2 <=? len ms); [by apply fold_slots|done].
Qed.

Lemma parseInline_slots line opts :
  parseInlineHebrewOptions line = Some opts → optionSlots opts.
Proof.
  unfold parseInlineHebrewOptions. cbv zeta.
  set (acc1 := optionPass rtlOption _ _).
  set (acc2 := if acc1.2 then acc1 else _).
  set (acc3 := if acc2.2 then acc2 else _).
  assert (slotsInv acc1) as H1.
  { apply optionPass_slots; [intros m; apply trim_idem|].
    split; [done|]. split; [done|]. by repeat constructor. }
  assert (slotsInv acc2) as H2.
  { subst acc2. destruct (acc1.2); [done|].
    apply optionPass_slots; [intros m; apply trim_idem|done]. }
  assert (slotsInv acc3) as H3.
  { subst acc3. destruct (acc2.2); [done|].
    apply optionPass_slots; [intros m; apply trim_idem|done]. }
  destruct (acc3.2) eqn:E; [|done]. intros [= <-].
  destruct H3 as (? & Hf & ?). split; [done|]. split; [by apply Hf|done].
Qed.

(** X8.  When [parseInlineHebrewOptions] does not return null it returns
    four slots, at least one of them filled, each of them trimmed: the test
    [inlineOpts.some(o => o.length > 0)] of its caller never fails. *)
Theorem inline_options_have_four_slots (line : jsstring) (opts : list jsstring) :
  parseInlineHebrewOptions line = Some opts →
  length opts = 4%nat
  ∧ existsb nonEmpty opts = true
  ∧ Forall (λ o, trim o = o) opts.
Proof. apply parseInline_slots. Qed.

(** *** Lines without parentheses *)




















(** ** The segmenter, further *)

(** X10.  For a marker that names no property inherited from
    [Object.prototype], [findSectionMarker] returns the least index at which
    a spelling of the marker occurs from [startFrom] on, and -1 exactly when
    none occurs. *)
Theorem findSectionMarker_is_earliest_spelling (text marker : jsstring) (startFrom : Z) :
  plainMarker marker = true →
  (findSectionMarker text marker startFrom = -1
   ↔ ∀ v, v ∈ variantsOf marker → indexOf text v startFrom = -1)
  ∧ (findSectionMarker text marker startFrom ≠ -1 →
     (∃ v, v ∈ variantsOf marker
           ∧ indexOf text v startFrom = findSectionMarker text marker startFrom)
     ∧ ∀ v, v ∈ variantsOf marker → indexOf text v startFrom ≠ -1 →
            findSectionMarker text marker startFrom ≤ indexOf text v startFrom).
Proof.
  intros _. split.
  - split.
    + intros H v Hv. destruct (decide (indexOf text v startFrom = -1)) as [|Hne]; [done|].
      by destruct (findSectionMarker_least text marker startFrom v Hv Hne).
    + intros H. destruct (decide (findSectionMarker text marker startFrom = -1)) as [|Hne];
        [done|].
      destruct (findSectionMarker_found text marker startFrom Hne) as (v & Hv & Hi).
      rewrite H in Hi by done. done.
  - intros Hne. split; [by apply findSectionMarker_found|].
    intros v Hv Hi. by apply findSectionMarker_least.
Qed.

(** *** Where a section can start and end *)

Lemma searchStart_ge examText : 1000 ≤ searchStart examText.
Proof.
  unfold searchStart.
  destruct (0 <? indexOf examText TIME_ALLOTTED 1000) eqn:E; [|done].
  apply Z.ltb_lt in E. apply indexOf_from; [done|lia|lia].
Qed.

Lemma variantsOf_nonempty marker v : marker ≠ [] → v ∈ variantsOf marker → v ≠ [].
Proof.
  intros Hm. unfold variantsOf, SECTION_VARIANTS. cbn [lookupVariants].
  repeat (destruct (strEq _ marker);
          [cbn [from_option id]; rewrite ?elem_of_cons, elem_of_nil;
           intros H; repeat (destruct H as [->|H]; [done|]); done|]).
  cbn [from_option id]. by intros ->%list_elem_of_singleton.
Qed.

Lemma sectionBoundary_bounds (examText marker : jsstring) (s e : Z) :
  marker ≠ [] →
  sectionBoundary examText marker = Some (s, e) →
  1000 ≤ s ∧ s ≤ e ≤ len examText
  ∧ ∃ v, v ∈ variantsOf marker
         ∧ startsWith (drop (Z.to_nat s) examText) v = true
         ∧ s + len v ≤ len examText.
Proof.
  intros Hm Hb. unfold sectionBoundary in Hb.
  destruct (sectionStart examText marker =? -1) eqn:E; [done|].
  injection Hb as <- <-. apply Z.eqb_neq in E. unfold sectionStart in *.
  pose proof (searchStart_ge examText) as Hss.
  set (a := searchStart examText) in *.
  set (s := findSectionMarker examText marker a) in *.
  destruct (findSectionMarker_found _ _ _ E) as (v & Hv & Hiv). fold s in Hiv.
  pose proof (variantsOf_nonempty marker v Hm Hv) as Hvne.
  assert (indexOf examText v a ≠ -1) as Hne by (by rewrite Hiv).
  pose proof (indexOf_from examText v a Hvne ltac:(lia) Hne) as Hfrom.
  pose proof (indexOf_fits examText v a Hne) as [_ Hfit].
  pose proof (indexOf_occurs examText v a Hne) as Hocc.
  rewrite Hiv in Hfrom, Hfit, Hocc.
  pose proof (len_nonneg v). pose proof (len_nonneg marker).
  split; [lia|]. split; [|by exists v].
  unfold sectionEnd.
  set (end1 := if (0 <=? _) && _ then _ else _).
  assert (s ≤ end1 ≤ len examText) as Hend1.
  { subst end1. destruct ((0 <=? _) && _); [|lia].
    destruct (SECTION_ORDER !! _) as [next|]; [|lia].
    destruct (negb _) eqn:En; [|lia].
    apply negb_true_iff, Z.eqb_neq in En.
    pose proof (findSectionMarker_range _ _ _ En) as Hr.
    unfold clamp in Hr. lia. }
  destruct (negb _ && _) eqn:Ek; [|done].
  apply andb_true_iff in Ek as [Ek1%negb_true_iff%Z.eqb_neq Ek2%Z.ltb_lt].
  destruct (indexOf_fits examText ANSWER_KEY_MARKER s Ek1) as [Hk _].
  unfold clamp in Hk. lia.
Qed.

(** X11.  The boundary of a section lies in the document and after the
    table-of-contents skip: the start is at least 1000, the end is between
    the start and the length of the text, and a spelling of the marker
    occurs, whole, at the start. *)
Theorem section_boundary_within_document
    (examText marker : jsstring) (s e : Z) :
  marker ≠ [] →
  sectionBoundary examText marker = Some (s, e) →
  1000 ≤ s ∧ s ≤ e ≤ len examText
  ∧ ∃ v, v ∈ variantsOf marker
         ∧ startsWith (drop (Z.to_nat s) examText) v = true
         ∧ s + len v ≤ len examText.
Proof. apply sectionBoundary_bounds. Qed.

(** X12.  From a document of at most 1000 units both extractors return no
    question, whatever the document holds and for every non-empty marker
    that names no property inherited from [Object.prototype]: the search for
    a section starts after the first 1000 units. *)
Theorem short_document_extracts_nothing (examText marker : jsstring) :
  marker ≠ [] →
  plainMarker marker = true →
  len examText ≤ 1000 →
  extractHebrewSection examText marker = ∅
  ∧ extractEnglishSection examText marker = ∅.
Proof.
  intros Hm _ Hlen.
  assert (sectionLines examText marker = None) as Hb.
  { unfold sectionLines.
    destruct (sectionBoundary examText marker) as [[s e]|] eqn:E; [exfalso|done].
    destruct (sectionBoundary_bounds examText marker s e Hm E)
      as (Hs & _ & v & Hv & _ & Hfit).
    pose proof (variantsOf_nonempty marker v Hm Hv).
    assert (0 < len v) by (destruct v; [done|unfold len; cbn [length]; lia]).
    lia. }
  unfold extractHebrewSection, extractEnglishSection. by rewrite Hb.
Qed.

(** *** The older segmenter *)

Lemma legacy_endStep_spec text from : ∀ nexts acc,
  let R := foldl (Legacy.endStep text from) acc nexts in
  R ≤ acc
  ∧ (R = acc ∨ ∃ next, next ∈ nexts ∧ indexOf text next from = R ∧ R ≠ -1)
  ∧ (∀ next, next ∈ nexts → indexOf text next from ≠ -1 → R ≤ indexOf text next from).
Proof.
  induction nexts as [|n nexts IH]; intros acc; cbn [foldl].
  - split; [lia|]. split; [by left|]. by intros ? ?%elem_of_nil.
  - cbv zeta in IH.
    specialize (IH (Legacy.endStep text from acc n)) as (H1 & H2 & H3).
    set (R := foldl _ _ _) in *.
    assert (Legacy.endStep text from acc n ≤ acc
            ∧ (Legacy.endStep text from acc n = acc
               ∨ (Legacy.endStep text from acc n = indexOf text n from
                  ∧ indexOf text n from ≠ -1))
            ∧ (indexOf text n from ≠ -1 →
               Legacy.endStep text from acc n ≤ indexOf text n from)) as (E1 & E2 & E3).
    { unfold Legacy.endStep.
      destruct (negb _ && _) eqn:E.
      - apply andb_true_iff in E as [Ea%negb_true_iff%Z.eqb_neq Eb%Z.ltb_lt].
        split; [lia|]. split; [by right|lia].
      - split; [lia|]. split; [by left|]. intros Hne.
        apply andb_false_iff in E as [E|E%Z.ltb_ge]; [|lia].
        apply negb_false_iff, Z.eqb_eq in E. done. }
    split; [lia|]. split.
    + destruct H2 as [H2|(next & Hn & Hi & Hne)].
      * destruct E2 as [E2|[E2 E2']]; [left; lia|].
        right. exists n. split; [by left|]. split; [lia|]. rewrite H2, E2. done.
      * right. exists next. split; [by right|done].
    + intros next [->|Hn]%elem_of_cons Hne.
      * specialize (E3 Hne). lia.
      * by apply H3.
Qed.

Lemma legacy_sectionBoundary_bounds text marker s e :
  Legacy.sectionBoundary text marker = Some (s, e) →
  0 ≤ s ∧ startsWith (drop (Z.to_nat s) text) marker = true
  ∧ s + len marker ≤ e ≤ len text
  ∧ (∀ next, next ∈ Legacy.nextSections marker →
             indexOf text next (s + len marker) ≠ -1 →
             e ≤ indexOf text next (s + len marker)).
Proof.
  unfold Legacy.sectionBoundary. cbv zeta.
  destruct (indexOf text marker 0 =? -1) eqn:E; [done|].
  intros [= <- <-]. apply Z.eqb_neq in E.
  destruct (indexOf_fits text marker 0 E) as [H1 H2].
  pose proof (indexOf_occurs text marker 0 E) as Hocc.
  pose proof (clamp_range 0 text). pose proof (len_nonneg marker).
  set (s := indexOf text marker 0) in *.
  split; [lia|]. split; [done|].
  unfold Legacy.sectionEnd.
  destruct (legacy_endStep_spec text (s + len marker) (Legacy.nextSections marker)
              (len text)) as (R1 & R2 & R3).
  cbv zeta in R1, R2, R3. set (R := foldl _ _ _) in *.
  split; [|done]. split; [|done].
  destruct R2 as [->|(next & _ & Hi & Hne)]; [lia|].
  rewrite <- Hi in Hne. destruct (indexOf_fits text next _ Hne) as [Hc _].
  unfold clamp in Hc. lia.
Qed.

(** X13.  The older segmenter ends a section after its marker and within
    the document, at the nearest of the markers that its end search looks
    for ([Legacy.nextSections]: the second verbal section, the quantitative
    and the English sections, the answer key and the answer sheet, its own
    marker left out): none of them starts between the end of the section's
    own marker and the end of the section.  The marker of the first verbal
    section is not among them. *)
Theorem legacy_section_ends_at_nearest_marker
    (examText marker : jsstring) (s e : Z) :
  Legacy.sectionBoundary examText marker = Some (s, e) →
  s + len marker ≤ e ≤ len examText
  ∧ (∀ next (i : Z), next ∈ Legacy.nextSections marker →
                     s + len marker ≤ i < e →
                     startsWith (drop (Z.to_nat i) examText) next = false).
Proof.
  intros Hb. destruct (legacy_sectionBoundary_bounds _ _ _ _ Hb) as (Hs & _ & He & Hmin).
  split; [done|]. intros next i Hn Hi.
  destruct (startsWith (drop (Z.to_nat i) examText) next) eqn:Hocc; [exfalso|done].
  pose proof (len_nonneg marker).
  pose proof (indexOf_hit examText next (s + len marker) i ltac:(lia) ltac:(lia) Hocc) as Hhit.
  specialize (Hmin next Hn ltac:(lia)). lia.
Qed.

Lemma legacy_adjacent (K : nat) marker next :
  (K < 4)%nat →
  SECTION_ORDER !! K = Some marker → SECTION_ORDER !! S K = Some next →
  next ∈ Legacy.nextSections marker
  ∧ forallb (λ d, negb (agree (drop d marker) next)) (seq 0 (length marker)) = true.
Proof.
  intros HK.
  do 4 (destruct K as [|K];
        [intros [= <-] [= <-]; split;
          [unfold Legacy.nextSections; vm_compute; set_solver|by vm_compute]|]).
  lia.
Qed.

(** X14.  The older segmenter keeps the boundary invariant of adjacent
    sections under the same condition as the current one: for a Hebrew
    section K whose marker first occurs not after the first occurrence of the
    marker of K+1, the end of K is not after the start of K+1. *)
Theorem legacy_section_end_le_next_start
    (examText : jsstring) (K : nat) (marker next : jsstring) (sK eK sN : Z) :
  (K < 4)%nat →
  SECTION_ORDER !! K = Some marker →
  SECTION_ORDER !! S K = Some next →
  Legacy.sectionBoundary examText marker = Some (sK, eK) →
  indexOf examText next 0 = sN →
  sK ≤ sN →
  eK ≤ sN.
Proof.
  intros HK Hm Hn Hb HsN Hord.
  destruct (legacy_adjacent K marker next HK Hm Hn) as [Hin Hno].
  destruct (legacy_sectionBoundary_bounds _ _ _ _ Hb) as (Hs & Hocc & He & Hmin).
  assert (indexOf examText next 0 ≠ -1) as Hne by lia.
  pose proof (indexOf_occurs examText next 0 Hne) as HoccN. rewrite HsN in HoccN.
  destruct (indexOf_fits examText next 0 Hne) as [_ HfitN]. rewrite HsN in HfitN.
  pose proof (len_nonneg next). pose proof (len_nonneg marker).
  assert (sK + len marker ≤ sN) as Hafter.
  { destruct (decide (sK + len marker ≤ sN)) as [|Hlt]; [done|exfalso].
    replace (Z.to_nat sN) with (Z.to_nat sK + Z.to_nat (sN - sK))%nat in HoccN by lia.
    pose proof (occurrences_agree _ _ _ _ _ Hocc HoccN) as Hag.
    assert (Z.to_nat (sN - sK) ∈ seq 0 (length marker)) as Hd.
    { apply elem_of_seq. unfold len in *. lia. }
    pose proof (forallb_elem _ _ _ Hno Hd) as H3. cbv beta in H3.
    rewrite Hag in H3. discriminate H3. }
  assert (indexOf examText next (sK + len marker) = sN) as Hnext.
  { rewrite <- HsN. apply indexOf_later.
    - unfold clamp. lia.
    - right. lia. }
  specialize (Hmin next Hin ltac:(lia)). lia.
Qed.

(** ** The extractors *)

(** *** Lines before the first question *)

Lemma hebrewLineStep_idle rawLine :
  isQuestionLine rawLine = false → hebrewLineStep initHebState rawLine = initHebState.
Proof.
  unfold isQuestionLine, hebrewLineStep.
  by destruct (classifyHebrewLine (trim rawLine)).
Qed.

Lemma foldl_hebrewLineStep_idle pre :
  forallb (λ l, negb (isQuestionLine l)) pre = true →
  foldl hebrewLineStep initHebState pre = initHebState.
Proof.
  induction pre as [|l pre IH]; [done|]. cbn [forallb foldl].
  intros [Hl Hpre]%andb_true_iff. apply negb_true_iff in Hl.
  rewrite hebrewLineStep_idle by done. by apply IH.
Qed.

(** X15.  The scan of a Hebrew section ignores every line before the first
    question number: the state after them is the initial one, and without a
    question number no question is stored. *)
Theorem lines_before_first_question_are_ignored (pre rest : list jsstring) :
  forallb (λ l, negb (isQuestionLine l)) pre = true →
  foldl hebrewLineStep initHebState (pre ++ rest)
  = foldl hebrewLineStep initHebState rest
  ∧ hQuestions (saveCurrentQuestion (foldl hebrewLineStep initHebState pre)) = ∅.
Proof.
  intros H. rewrite foldl_app, foldl_hebrewLineStep_idle by done. done.
Qed.

Lemma englishLineStep_closed st raw :
  eCurrentQ st = None → hasEnglishNumber raw = false →
  eCurrentQ (englishLineStep st raw) = None
  ∧ eQuestions (englishLineStep st raw) = eQuestions st.
Proof.
  intros Hq Hn. unfold hasEnglishNumber in Hn. unfold englishLineStep. cbv zeta.
  repeat (match goal with |- context [if ?b then _ else _] => destruct b end; [done|]).
  destruct (exec RE_EN_QNUM (trim raw)); [done|].
  rewrite Hq. by destruct (eInPassage st).
Qed.

Lemma englishLineStep_alike st1 st2 raw :
  engAlike st1 st2 → engAlike (englishLineStep st1 raw) (englishLineStep st2 raw).
Proof.
  intros [->|(H1 & H2 & H3)]; [by left|].
  unfold englishLineStep. cbv zeta.
  destruct (negb (nonEmpty (trim raw))); [by right|].
  destruct (isEnglishHeaderFooter (trim raw)); [by right|].
  destruct (test RE_QUESTIONS (trim raw)); [by right|].
  destruct (test RE_TEXT_HEADER (trim raw)); [by right|].
  destruct (exec RE_EN_QNUM (trim raw)) as [m|].
  - left. unfold saveEnglishQuestion. by rewrite H1, H2, H3.
  - rewrite H1, H2. right. by destruct (eInPassage st1), (eInPassage st2).
Qed.

Lemma foldl_englishLineStep_alike lines : ∀ st1 st2,
  engAlike st1 st2 →
  engAlike (foldl englishLineStep st1 lines) (foldl englishLineStep st2 lines).
Proof.
  induction lines as [|l lines IH]; intros st1 st2 H; [done|].
  cbn [foldl]. by apply IH, englishLineStep_alike.
Qed.

Lemma foldl_englishLineStep_closed pre : ∀ st,
  eCurrentQ st = None →
  forallb (λ l, negb (hasEnglishNumber l)) pre = true →
  eCurrentQ (foldl englishLineStep st pre) = None
  ∧ eQuestions (foldl englishLineStep st pre) = eQuestions st.
Proof.
  induction pre as [|l pre IH]; intros st Hq; [done|]. cbn [forallb foldl].
  intros [Hl Hpre]%andb_true_iff. apply negb_true_iff in Hl.
  destruct (englishLineStep_closed st l Hq Hl) as [H1 H2].
  destruct (IH _ H1 Hpre) as [H3 H4]. split; [done|]. by rewrite H4.
Qed.

Lemma saveEnglishQuestion_alike st1 st2 :
  engAlike st1 st2 → saveEnglishQuestion st1 = saveEnglishQuestion st2.
Proof.
  intros [->|(H1 & H2 & H3)]; [done|]. unfold saveEnglishQuestion. by rewrite H1, H2.
Qed.

(** X30.  The scan of an English section ignores every line before the
    first line that has the form of a question number, passage headers and
    the word Questions included: the questions returned are those of the
    remaining lines, and without such a line no question is stored. *)
Theorem english_lines_before_first_question_are_ignored (pre rest : list jsstring) :
  forallb (λ l, negb (hasEnglishNumber l)) pre = true →
  saveEnglishQuestion (foldl englishLineStep initEngState (pre ++ rest))
  = saveEnglishQuestion (foldl englishLineStep initEngState rest)
  ∧ saveEnglishQuestion (foldl englishLineStep initEngState pre) = ∅.
Proof.
  intros Hpre.
  destruct (foldl_englishLineStep_closed pre initEngState eq_refl Hpre) as [H1 H2].
  split.
  - rewrite foldl_app. apply saveEnglishQuestion_alike, foldl_englishLineStep_alike.
    right. by rewrite H1, H2.
  - unfold saveEnglishQuestion. by rewrite H1, H2.
Qed.

(** *** Four option slots *)

Lemma fourOptions_empty : fourOptions ∅.
Proof. by intros n b ?%lookup_empty_Some. Qed.

Lemma fourOptions_insert qs n b :
  fourOptions qs → length (qoptions b) = 4%nat → fourOptions (<[n := b]> qs).
Proof.
  intros Hqs Hb n' b'. rewrite lookup_insert_Some.
  intros [[_ <-]|[_ H]]; [done|by eapply Hqs].
Qed.

Lemma saveCurrentQuestion_inv st : hebInv st → hebInv (saveCurrentQuestion st).
Proof.
  intros [Hopt Hqs]. unfold saveCurrentQuestion.
  destruct (hCurrentQ st) as [q|]; [|done].
  set (stem0 := join [SPACE] (hStemLines st)).
  set (sel := if hHasFoundOptions st then _ else _).
  assert (length sel.1.2 = 4%nat) as Hsel.
  { subst sel. destruct (hHasFoundOptions st); [done|].
    destruct (parseInlineHebrewOptions stem0) as [inlineOpts|] eqn:E; [|done].
    destruct (existsb nonEmpty inlineOpts); [|done].
    by apply parseInline_slots in E as [? _]. }
  destruct sel as [[stem1 options1] found1]. cbn [fst snd] in Hsel.
  split; cbn [hOptions hQuestions].
  - by rewrite length_fmap.
  - apply fourOptions_insert; [done|]. cbn [qoptions]. by rewrite length_fmap.
Qed.

Lemma mergeOptions_length options lineOptions :
  length (mergeOptions options lineOptions) = length options.
Proof.
  unfold mergeOptions. generalize (seq 0 4). intros js. revert options.
  induction js as [|j js IH]; intros options; [done|]. cbn [foldl].
  rewrite IH. destruct (lineOptions !! j) as [o|]; [|done].
  destruct (nonEmpty o); [by rewrite length_insert|done].
Qed.

Lemma applyHebLine_inv st l : hebInv st → hebInv (applyHebLine st l).
Proof.
  intros Hst. pose proof Hst as [Hopt Hqs]. destruct l; cbn [applyHebLine].
  - done.
  - split; [done|]. cbn [hQuestions]. by apply saveCurrentQuestion_inv.
  - destruct (hCurrentQ st); [|done]. split; [|done].
    cbn [hOptions]. by rewrite mergeOptions_length.
  - destruct (hCurrentQ st); [|done]. split; [|done].
    cbn [hOptions]. by rewrite length_insert.
  - destruct (hCurrentQ st); [|done]. done.
Qed.

Lemma foldl_hebrewLineStep_inv lines : ∀ st,
  hebInv st → hebInv (foldl hebrewLineStep st lines).
Proof.
  induction lines as [|l lines IH]; intros st Hst; [done|].
  cbn [foldl]. apply IH. by apply applyHebLine_inv.
Qed.

Lemma extractHebrewSection_four examText marker :
  fourOptions (extractHebrewSection examText marker).
Proof.
  unfold extractHebrewSection.
  destruct (sectionLines examText marker); [|apply fourOptions_empty].
  apply saveCurrentQuestion_inv, foldl_hebrewLineStep_inv.
  split; [done|apply fourOptions_empty].
Qed.

Lemma saveEnglishQuestion_four st : engInv st → fourOptions (saveEnglishQuestion st).
Proof.
  intros [Hopt Hqs]. unfold saveEnglishQuestion.
  destruct (eCurrentQ st); [|done]. destruct (_ || _); [|done].
  apply fourOptions_insert; [done|]. cbn [qoptions]. by rewrite length_fmap.
Qed.

Lemma foldl_englishInlineOption_length ms : ∀ opts,
  length (foldl englishInlineOption opts ms) = length opts.
Proof.
  induction ms as [|m ms IH]; intros opts; [done|]. cbn [foldl].
  rewrite IH. unfold englishInlineOption. by rewrite length_insert.
Qed.

Lemma englishLineStep_inv st raw : engInv st → engInv (englishLineStep st raw).
Proof.
  intros Hst. pose proof Hst as [Hopt Hqs]. unfold englishLineStep. cbv zeta.
  repeat (match goal with |- engInv (if ?b then _ else _) => destruct b end; [done|]).
  destruct (exec RE_EN_QNUM (trim raw)) as [m|].
  { split; [done|]. cbn [eQuestions]. by apply saveEnglishQuestion_four. }
  destruct (eInPassage st); [done|]. destruct (eCurrentQ st); [|done].
  destruct (eInQuestionSection st); [|done].
  unfold englishOpenLine. destruct (exec RE_EN_OPTION_LINE (trim raw)).
  { split; [|done]. cbn [eOptions]. by rewrite length_insert. }
  destruct (2 <=? _); split; try done.
  cbn [eOptions]. by rewrite foldl_englishInlineOption_length.
Qed.

Lemma foldl_englishLineStep_inv lines : ∀ st,
  engInv st → engInv (foldl englishLineStep st lines).
Proof.
  induction lines as [|l lines IH]; intros st Hst; [done|].
  cbn [foldl]. apply IH. by apply englishLineStep_inv.
Qed.

Lemma extractEnglishSection_four examText marker :
  fourOptions (extractEnglishSection examText marker).
Proof.
  unfold extractEnglishSection.
  destruct (sectionLines examText marker); [|apply fourOptions_empty].
  apply saveEnglishQuestion_four, foldl_englishLineStep_inv.
  split; [done|apply fourOptions_empty].
Qed.

Lemma postProcessQuestions_four qs :
  fourOptions qs → fourOptions (postProcessQuestions qs).
Proof.
  intros Hqs n b. unfold postProcessQuestions. rewrite lookup_fmap.
  destruct (qs !! n) as [b0|] eqn:E; [|done]. cbn. intros [= <-].
  cbn [qoptions]. rewrite length_fmap. by eapply Hqs.
Qed.

Lemma solutionBlockStep_four acc block :
  fourOptions acc.2 → fourOptions (solutionBlockStep acc block).2.
Proof.
  intros Hacc. unfold solutionBlockStep.
  destruct (exec RE_BLOCK_NUMBER block) as [m|]; [|done].
  destruct (_ || _); [done|]. cbv zeta. cbn [snd].
  destruct (15 <? _); [|done]. by apply fourOptions_insert.
Qed.

Lemma extractFromSolution_four solFile : fourOptions (extractFromSolution solFile).2.
Proof.
  unfold extractFromSolution. destruct solFile as [solText|]; [|apply fourOptions_empty].
  assert (∀ blocks (acc : gmap Z jsstring * gmap Z QBlock),
            fourOptions acc.2 → fourOptions (foldl solutionBlockStep acc blocks).2) as H.
  { induction blocks as [|b blocks IH]; intros acc Hacc; [done|].
    cbn [foldl]. apply IH. by apply solutionBlockStep_four. }
  apply H, fourOptions_empty.
Qed.

Lemma extractSection_four examText def : fourOptions (extractSection examText def).
Proof.
  unfold extractSection. destruct (dLang def);
    [apply extractHebrewSection_four|apply extractEnglishSection_four].
Qed.

(** X16.  Every block that [extractHebrewSection], [extractEnglishSection]
    and [extractFromSolution] return has exactly four option slots, also
    after [postProcessQuestions]. *)
Theorem extracted_blocks_have_four_options
    (examText marker : jsstring) (solFile : option jsstring) :
  fourOptions (extractHebrewSection examText marker)
  ∧ fourOptions (extractEnglishSection examText marker)
  ∧ fourOptions (postProcessQuestions (extractHebrewSection examText marker))
  ∧ fourOptions (postProcessQuestions (extractEnglishSection examText marker))
  ∧ fourOptions (extractFromSolution solFile).2.
Proof.
  repeat split.
  - apply extractHebrewSection_four.
  - apply extractEnglishSection_four.
  - apply postProcessQuestions_four, extractHebrewSection_four.
  - apply postProcessQuestions_four, extractEnglishSection_four.
  - apply extractFromSolution_four.
Qed.

(** *** Post-processing keeps the questions *)

Lemma postProcessStem_wellSpaced s : wellSpaced false (postProcessStem s) = true.
Proof.
  unfold postProcessStem. cbv zeta. rewrite replaceAll_WS_RUN, <- normalizeSpaces_eq.
  apply normalizeSpaces_wellSpaced.
Qed.

(** X17.  [postProcessQuestions] keeps the question numbers and the number
    of option slots, leaves an empty option empty, and returns stems in which
    whitespace occurs as single spaces only (the line feed it writes before
    the word for "given" is collapsed again). *)
Theorem postProcess_keeps_questions (questions : gmap Z QBlock) :
  dom (postProcessQuestions questions) = dom questions
  ∧ (∀ n b, questions !! n = Some b →
       ∃ b', postProcessQuestions questions !! n = Some b'
             ∧ length (qoptions b') = length (qoptions b)
             ∧ (∀ i, qoptions b !! i = Some [] → qoptions b' !! i = Some [])
             ∧ wellSpaced false (qstem b') = true).
Proof.
  unfold postProcessQuestions. split; [apply dom_fmap_L|].
  intros n b Hb. eexists. rewrite lookup_fmap, Hb. split; [done|].
  cbn [qoptions qstem]. split; [by rewrite length_fmap|]. split.
  - intros i Hi. by rewrite list_lookup_fmap, Hi.
  - apply postProcessStem_wellSpaced.
Qed.

(** *** What the solution extractor stores *)

Lemma capLength_bound n s : 0 ≤ n → len (capLength n s) ≤ n + 3.
Proof.
  intros Hn. unfold capLength. destruct (n <? len s) eqn:E.
  - rewrite len_app. pose proof (substring_0_length s n Hn).
    replace (len ELLIPSIS) with 3 by (by vm_compute). lia.
  - apply Z.ltb_ge in E. lia.
Qed.

Lemma solutionStem_bound content : len (solutionStem content) ≤ 303.
Proof.
  unfold solutionStem. destruct (exec RE_FIRST_SENTENCES content); [|by vm_compute].
  by apply (capLength_bound 300).
Qed.

Lemma solutionBlockStep_bounded acc block :
  explanationsBounded acc.1 → fallbacksBounded acc.2 →
  explanationsBounded (solutionBlockStep acc block).1
  ∧ fallbacksBounded (solutionBlockStep acc block).2.
Proof.
  intros He Hf. unfold solutionBlockStep.
  destruct (exec RE_BLOCK_NUMBER block) as [m|]; [|done].
  destruct (_ || _) eqn:Eq; [done|]. cbv zeta. cbn [fst snd].
  apply orb_false_iff in Eq as [E1%Z.ltb_ge E2%Z.ltb_ge].
  split.
  - destruct (20 <? _) eqn:E; [|done]. apply Z.ltb_lt in E.
    intros n x. rewrite lookup_insert_Some. intros [[<- <-]|[_ H]]; [|by eapply He].
    split; [lia|]. split; [done|]. by apply (capLength_bound 1500).
  - destruct (15 <? _) eqn:E; [|done]. apply Z.ltb_lt in E.
    intros n b. rewrite lookup_insert_Some. intros [[<- <-]|[_ H]]; [|by eapply Hf].
    cbn [qstem qoptions]. split; [lia|]. split; [|done].
    split; [done|apply solutionStem_bound].
Qed.

Lemma extractFromSolution_bounded solFile :
  explanationsBounded (extractFromSolution solFile).1
  ∧ fallbacksBounded (extractFromSolution solFile).2.
Proof.
  assert (explanationsBounded ∅ ∧ fallbacksBounded ∅) as H0.
  { split; by intros n x ?%lookup_empty_Some. }
  unfold extractFromSolution. destruct solFile as [solText|]; [|done].
  assert (∀ blocks (acc : gmap Z jsstring * gmap Z QBlock),
            explanationsBounded acc.1 ∧ fallbacksBounded acc.2 →
            explanationsBounded (foldl solutionBlockStep acc blocks).1
            ∧ fallbacksBounded (foldl solutionBlockStep acc blocks).2) as H.
  { induction blocks as [|b blocks IH]; intros acc [Ha Hb]; [done|].
    cbn [foldl]. apply IH. by apply solutionBlockStep_bounded. }
  by apply H.
Qed.

(** X18.  [extractFromSolution] stores question numbers 1 to 30 only,
    explanations of 21 to 1503 units and fallback stems of 16 to 303 units
    with four empty options; without a solution file it returns two empty
    objects. *)
Theorem solution_extraction_is_bounded (solFile : option jsstring) :
  explanationsBounded (extractFromSolution solFile).1
  ∧ fallbacksBounded (extractFromSolution solFile).2
  ∧ (solFile = None → extractFromSolution solFile = (∅, ∅)).
Proof.
  destruct (extractFromSolution_bounded solFile). split; [done|]. split; [done|].
  by intros ->.
Qed.

(** ** The merger, further *)

(** *** Emitted questions are well formed *)

Lemma mergeSection_members season examText files ak def q :
  q ∈ mergeSection season examText files ak def →
  ∃ sa n a, ak !! dKey def = Some sa ∧ sa !! n = Some a
    ∧ q = mergeQuestion season def sa
            (extractFromSolution (solutionFile files (dKey def))).1
            (postProcessQuestions (extractSection examText def))
            (extractFromSolution (solutionFile files (dKey def))).2 n.
Proof.
  unfold mergeSection.
  destruct (len (questionNums (default ∅ (ak !! dKey def))) =? 0); [by intros ?%elem_of_nil|].
  destruct (extractFromSolution _) as [expl solq]. cbn [fst snd].
  intros (n & -> & Hn)%list_elem_of_fmap.
  apply questionNums_elem in Hn as [a Ha].
  destruct (ak !! dKey def) as [sa|]; cbn [from_option id] in *;
    [|by rewrite lookup_empty in Ha].
  by exists sa, n, a.
Qed.

Lemma mergeAll_members season examText files ak q :
  q ∈ mergeAll season examText files ak →
  ∃ def sa n a, def ∈ sectionDefs ∧ ak !! dKey def = Some sa ∧ sa !! n = Some a
    ∧ q = mergeQuestion season def sa
            (extractFromSolution (solutionFile files (dKey def))).1
            (postProcessQuestions (extractSection examText def))
            (extractFromSolution (solutionFile files (dKey def))).2 n.
Proof.
  unfold mergeAll. intros (def & Hdef & Hq)%elem_of_concat_fmap.
  apply mergeSection_members in Hq as (sa & n & a & ? & ? & ?). by exists def, sa, n, a.
Qed.

Lemma selectExtracted_four exq solq n b :
  fourOptions exq → fourOptions solq →
  selectExtracted exq solq n = Some b → length (qoptions b) = 4%nat.
Proof.
  intros H1 H2. unfold selectExtracted.
  destruct (exq !! n) eqn:E; [intros [= <-]; by eapply H1|by apply H2].
Qed.

Lemma labelsOf_length lang : length (labelsOf lang) = 4%nat.
Proof. by destruct lang. Qed.

Lemma placeholderOption_nonEmpty label : nonEmpty (placeholderOption label) = true.
Proof.
  unfold nonEmpty, placeholderOption. rewrite len_app.
  pose proof (len_nonneg label). apply Z.ltb_lt.
  replace (len (utf16 "תשובה ")) with 6 by (by vm_compute). lia.
Qed.

Lemma buildOptions_wellformed lang extracted :
  (∀ b, extracted = Some b → length (qoptions b) = 4%nat) →
  optId <$> (buildOptions (labelsOf lang) extracted).1 = [1; 2; 3; 4]
  ∧ optLabel <$> (buildOptions (labelsOf lang) extracted).1 = labelsOf lang
  ∧ Forall (λ o, nonEmpty (optText o) = true) (buildOptions (labelsOf lang) extracted).1.
Proof.
  intros H4. unfold buildOptions.
  assert (optId <$> placeholderOptions (labelsOf lang) = [1; 2; 3; 4]
          ∧ optLabel <$> placeholderOptions (labelsOf lang) = labelsOf lang
          ∧ Forall (λ o, nonEmpty (optText o) = true) (placeholderOptions (labelsOf lang)))
    as Hph.
  { split; [done|]. split; [by destruct lang|].
    unfold placeholderOptions. repeat constructor; apply placeholderOption_nonEmpty. }
  destruct extracted as [e|]; [|done].
  destruct (existsb nonEmpty (qoptions e)); [|done].
  specialize (H4 e eq_refl). cbn [fst].
  destruct (qoptions e) as [|o1 [|o2 [|o3 [|o4 [|]]]]]; try done.
  split; [done|]. split; [by destruct lang|].
  apply Forall_forall. intros o (i & x & -> & Hx)%elem_of_lookup_imap.
  cbn [optText]. destruct (nonEmpty x) eqn:E; [done|apply placeholderOption_nonEmpty].
Qed.

Lemma mergeQuestion_options season def sa expl exq solq n :
  options (mergeQuestion season def sa expl exq solq n)
  = (buildOptions (labelsOf (dLang def)) (selectExtracted exq solq n)).1.
Proof. unfold mergeQuestion. by destruct (buildOptions _ _). Qed.

Lemma mergeQuestion_language season def sa expl exq solq n :
  language (mergeQuestion season def sa expl exq solq n) = dLang def.
Proof. unfold mergeQuestion. by destruct (buildOptions _ _). Qed.

Lemma mergeQuestion_stem season def sa expl exq solq n :
  stem (mergeQuestion season def sa expl exq solq n)
  = let stem0 := extractedStem (selectExtracted exq solq n) in
    if negb (nonEmpty stem0) || (len stem0 <? 3) then placeholderStem def n else stem0.
Proof. unfold mergeQuestion. by destruct (buildOptions _ _). Qed.

Lemma mergeQuestion_examId season def sa expl exq solq n :
  examId (mergeQuestion season def sa expl exq solq n) = season.
Proof. unfold mergeQuestion. by destruct (buildOptions _ _). Qed.

Lemma mergeQuestion_explanation season def sa expl exq solq n :
  explanation (mergeQuestion season def sa expl exq solq n)
  = cleanExplanation (default [] (expl !! n)).
Proof. unfold mergeQuestion. by destruct (buildOptions _ _). Qed.

Lemma placeholderStem_length def n : 3 ≤ len (placeholderStem def n).
Proof.
  unfold placeholderStem. destruct (dLang def); rewrite !len_app;
    pose proof (len_nonneg (toString n)); pose proof (len_nonneg (dMarker def)).
  - replace (len (utf16 "שאלה ")) with 5 by (by vm_compute).
    replace (len (utf16 " - ")) with 3 by (by vm_compute). lia.
  - replace (len (utf16 "Question ")) with 9 by (by vm_compute).
    replace (len (utf16 " - ")) with 3 by (by vm_compute). lia.
Qed.

Lemma mergeAll_optionsWellFormed season examText files ak q :
  q ∈ mergeAll season examText files ak → optionsWellFormed q.
Proof.
  intros (def & sa & n & a & Hdef & Hsa & Hn & ->)%mergeAll_members.
  unfold optionsWellFormed. rewrite mergeQuestion_options, mergeQuestion_language.
  apply buildOptions_wellformed. intros b Hb.
  eapply selectExtracted_four; [| |exact Hb].
  - apply postProcessQuestions_four, extractSection_four.
  - apply extractFromSolution_four.
Qed.

Lemma mergeAll_answerWellFormed season examText files q :
  q ∈ mergeAll season examText files (parseAnswerKey examText) →
  answerWellFormed season q.
Proof.
  intros Hq. pose proof (mergeAll_optionsWellFormed _ _ _ _ _ Hq) as (Hid & _ & _).
  apply mergeAll_members in Hq as (def & sa & n & a & Hdef & Hsa & Hn & ->).
  destruct (parseAnswerKey_valid examText _ _ _ _ Hsa Hn) as [Ha Hq].
  unfold answerWellFormed.
  rewrite mergeQuestion_answer, mergeQuestion_number, mergeQuestion_stem,
    mergeQuestion_examId, Hn in *. cbn [from_option id].
  split; [done|]. split; [|split; [done|split; [|done]]].
  - assert (a ∈ optId <$> options (mergeQuestion season def sa
              (extractFromSolution (solutionFile files (dKey def))).1
              (postProcessQuestions (extractSection examText def))
              (extractFromSolution (solutionFile files (dKey def))).2 n)) as Hin.
    { rewrite Hid. rewrite !elem_of_cons. lia. }
    apply list_elem_of_fmap in Hin as (o & -> & Ho). by exists o.
  - cbv zeta. destruct (negb _ || _) eqn:E; [apply placeholderStem_length|].
    apply orb_false_iff in E as [_ E%Z.ltb_ge]. done.
Qed.

(** X19.  Every question that [parseExam] emits has exactly four options,
    with the ids 1, 2, 3, 4, the labels of its language in order, and a text
    that is not empty. *)
Theorem emitted_questions_have_four_options
    (season seasonHebrew : jsstring) (files : ExamFiles) :
  match parseExam season seasonHebrew files with
  | Some exam => Forall optionsWellFormed (questions exam)
  | None => examFile files = None
  end.
Proof.
  unfold parseExam. destruct (examFile files) as [examText|]; [|done].
  cbn [questions assembleExam]. apply Forall_forall. intros q Hq.
  by eapply mergeAll_optionsWellFormed.
Qed.

(** X20.  In every question that [parseExam] emits the correct answer is
    between 1 and 4 and is the id of one of the question's options, the
    question number is at least 1, the stem holds at least three units, and
    the exam id is the season. *)
Theorem emitted_answers_are_options
    (season seasonHebrew : jsstring) (files : ExamFiles) :
  match parseExam season seasonHebrew files with
  | Some exam => Forall (answerWellFormed season) (questions exam)
  | None => examFile files = None
  end.
Proof.
  unfold parseExam. destruct (examFile files) as [examText|]; [|done].
  cbn [questions assembleExam]. apply Forall_forall. intros q Hq.
  by eapply mergeAll_answerWellFormed.
Qed.

(** *** Stems are single-spaced *)

Lemma wellSpaced_app b x y :
  wellSpaced b (x ++ y) = wellSpaced b x && wellSpaced (lastWs b x) y.
Proof.
  revert b. induction x as [|c x IH]; intros b; [done|].
  cbn [app wellSpaced]. rewrite !IH.
  assert (∀ b', lastWs b' (c :: x) = lastWs (isWs c) x) as Hl.
  { intros b'. unfold lastWs. destruct x as [|d x]; [done|].
    rewrite last_cons_cons, last_cons. by destruct (last x). }
  rewrite Hl. destruct (isWs c) eqn:E; rewrite ?E; [|done].
  by rewrite !andb_assoc.
Qed.

Lemma wellSpaced_digits b s :
  Forall (λ c, isDigit c = true) s → wellSpaced b s = true.
Proof.
  intros H. revert b. induction H as [|c s Hc _ IH]; intros b; [done|].
  cbn [wellSpaced]. replace (isWs c) with false; [apply IH|].
  symmetry. unfold isDigit in Hc. apply andb_true_iff in Hc as [H1%Z.leb_le H2%Z.leb_le].
  unfold isWs. repeat (apply orb_false_iff; split); try (apply Z.eqb_neq; lia).
  apply andb_false_iff. left. apply Z.leb_gt. lia.
Qed.

Lemma lastWs_digits b s :
  s ≠ [] → Forall (λ c, isDigit c = true) s → lastWs b s = false.
Proof.
  intros Hne H. unfold lastWs. destruct (last s) as [c|] eqn:E.
  - apply last_Some_elem_of in E. apply (proj1 (Forall_forall _ _) H) in E.
    pose proof (wellSpaced_digits true [c] ltac:(by constructor)) as Hw.
    cbn in Hw. destruct (isWs c); [|done]. by rewrite andb_false_r in Hw.
  - by apply last_None in E.
Qed.

Lemma placeholderStem_wellSpaced def n :
  def ∈ sectionDefs → 0 < n → wellSpaced false (placeholderStem def n) = true.
Proof.
  intros Hdef Hn. destruct (toString_digits n Hn) as [Hne Hd].
  unfold placeholderStem.
  assert (∀ (a c : jsstring), wellSpaced false a = true → lastWs false a = true →
            wellSpaced false c = true →
            wellSpaced false (a ++ toString n ++ c) = true) as H.
  { intros a c Ha Hl Hc. rewrite !wellSpaced_app, Ha, Hl.
    rewrite (wellSpaced_digits true) by done. by rewrite lastWs_digits. }
  unfold sectionDefs in Hdef. rewrite !elem_of_cons, elem_of_nil in Hdef.
  repeat (destruct Hdef as [->|Hdef]; [apply H; by vm_compute|]). done.
Qed.

Lemma wellSpaced_take b s (k : nat) :
  wellSpaced b s = true → wellSpaced b (take k s ++ ELLIPSIS) = true.
Proof.
  revert b k. induction s as [|c s IH]; intros b k Hs.
  - rewrite take_nil. by destruct b.
  - destruct k as [|k]; [by destruct b|].
    cbn [take app wellSpaced] in *. destruct (isWs c).
    + apply andb_true_iff in Hs as [Hs1 Hs2]. rewrite Hs1. by apply IH.
    + by apply IH.
Qed.

Lemma capLength_wellSpaced n s :
  wellSpaced false s = true → wellSpaced false (capLength n s) = true.
Proof.
  intros Hs. unfold capLength. destruct (n <? len s); [|done].
  rewrite substring_0. by apply wellSpaced_take.
Qed.

Lemma solutionStem_wellSpaced content : wellSpaced false (solutionStem content) = true.
Proof.
  unfold solutionStem. destruct (exec RE_FIRST_SENTENCES content); [|done].
  apply capLength_wellSpaced. rewrite replaceAll_WS_RUN, <- normalizeSpaces_eq.
  apply normalizeSpaces_wellSpaced.
Qed.

Lemma extractFromSolution_spaced solFile : stemsSpaced (extractFromSolution solFile).2.
Proof.
  unfold extractFromSolution. destruct solFile as [solText|];
    [|cbn [snd]; by intros n b ?%lookup_empty_Some].
  assert (∀ blocks (acc : gmap Z jsstring * gmap Z QBlock),
            stemsSpaced acc.2 → stemsSpaced (foldl solutionBlockStep acc blocks).2) as H.
  { induction blocks as [|b blocks IH]; intros acc Hacc; [done|].
    cbn [foldl]. apply IH. unfold solutionBlockStep.
    destruct (exec RE_BLOCK_NUMBER b) as [m|]; [|done].
    destruct (_ || _); [done|]. cbv zeta. cbn [snd].
    destruct (15 <? _); [|done].
    intros n blk. rewrite lookup_insert_Some. intros [[_ <-]|[_ Hl]]; [|by eapply Hacc].
    apply solutionStem_wellSpaced. }
  apply H. cbn [snd]. by intros n b ?%lookup_empty_Some.
Qed.

Lemma postProcessQuestions_spaced qs : stemsSpaced (postProcessQuestions qs).
Proof.
  intros n b. unfold postProcessQuestions. rewrite lookup_fmap.
  destruct (qs !! n); [|done]. intros [= <-]. apply postProcessStem_wellSpaced.
Qed.

Lemma mergeAll_stems_spaced season examText files q :
  q ∈ mergeAll season examText files (parseAnswerKey examText) →
  wellSpaced false (stem q) = true.
Proof.
  intros (def & sa & n & a & Hdef & Hsa & Hn & ->)%mergeAll_members.
  destruct (parseAnswerKey_valid examText _ _ _ _ Hsa Hn) as [_ Hq].
  rewrite mergeQuestion_stem. cbv zeta.
  destruct (negb _ || _); [apply placeholderStem_wellSpaced; [done|lia]|].
  unfold extractedStem, selectExtracted.
  destruct (postProcessQuestions _ !! n) as [e|] eqn:E.
  - by eapply postProcessQuestions_spaced.
  - destruct ((extractFromSolution _).2 !! n) as [e|] eqn:E2; [|done].
    by eapply extractFromSolution_spaced.
Qed.

(** X21.  In the stem of every question that [parseExam] emits, extracted,
    taken from the solution or placeholder, every whitespace unit is a space
    and no two spaces are adjacent: a stem holds no line break. *)
Theorem emitted_stems_are_single_spaced
    (season seasonHebrew : jsstring) (files : ExamFiles) :
  match parseExam season seasonHebrew files with
  | Some exam => Forall (λ q, wellSpaced false (stem q) = true) (questions exam)
  | None => examFile files = None
  end.
Proof.
  unfold parseExam. destruct (examFile files) as [examText|]; [|done].
  cbn [questions assembleExam]. apply Forall_forall. intros q Hq.
  by eapply mergeAll_stems_spaced.
Qed.

(** X22.  The explanation of every question that [parseExam] emits holds at
    most 1503 units and neither starts nor ends with whitespace. *)
Theorem emitted_explanations_are_bounded
    (season seasonHebrew : jsstring) (files : ExamFiles) :
  match parseExam season seasonHebrew files with
  | Some exam =>
      Forall (λ q, len (explanation q) ≤ 1503
                   ∧ headIs isWs (explanation q) = false
                   ∧ headIs isWs (rev (explanation q)) = false) (questions exam)
  | None => examFile files = None
  end.
Proof.
  unfold parseExam. destruct (examFile files) as [examText|]; [|done].
  cbn [questions assembleExam]. apply Forall_forall. intros q Hq.
  apply mergeAll_members in Hq as (def & sa & n & a & Hdef & Hsa & Hn & ->).
  rewrite mergeQuestion_explanation.
  split; [|apply cleanExplanation_edges].
  destruct (extractFromSolution_bounded (solutionFile files (dKey def))) as [He _].
  set (expl := (extractFromSolution _).1) in *.
  pose proof (cleanExplanation_length (default [] (expl !! n))) as Hl.
  destruct (expl !! n) as [x|] eqn:E; cbn [from_option id] in *.
  - destruct (He n x E) as [_ ?]. lia.
  - unfold len in *. cbn in *. lia.
Qed.

(** *** Question identifiers *)

Lemma keys_disagree d1 d2 :
  d1 ∈ sectionDefs → d2 ∈ sectionDefs → dKey d1 ≠ dKey d2 →
  agree (utf16 (dKey d1)) (utf16 (dKey d2)) = false.
Proof.
  unfold sectionDefs. rewrite !elem_of_cons, !elem_of_nil.
  intros H1 H2 Hne.
  repeat (destruct H1 as [->|H1]); try done;
    repeat (destruct H2 as [->|H2]); try done; by vm_compute.
Qed.

Lemma mergeQuestion_qId season def sa expl exq solq n :
  qId (mergeQuestion season def sa expl exq solq n)
  = season ++ utf16 "-" ++ utf16 (dKey def) ++ utf16 "-" ++ toString n.
Proof. unfold mergeQuestion. by destruct (buildOptions _ _). Qed.

Lemma qId_inj season d1 d2 n1 n2 :
  d1 ∈ sectionDefs → d2 ∈ sectionDefs →
  season ++ utf16 "-" ++ utf16 (dKey d1) ++ utf16 "-" ++ toString n1
  = season ++ utf16 "-" ++ utf16 (dKey d2) ++ utf16 "-" ++ toString n2 →
  dKey d1 = dKey d2 ∧ n1 = n2.
Proof.
  intros H1 H2 H. apply app_inv_head in H. apply app_inv_head in H.
  destruct (decide (dKey d1 = dKey d2)) as [Heq|Hne].
  - split; [done|]. rewrite Heq in H. apply app_inv_head in H.
    apply app_inv_head in H. by apply toString_inj.
  - apply app_agree in H. by rewrite keys_disagree in H.
Qed.

Lemma mergeAll_keyed season examText files ak :
  (λ q, (questionKey q, questionNumber q)) <$> mergeAll season examText files ak
  = concat ((λ def, (λ n, (Some (dKey def), n))
               <$> questionNums (default ∅ (ak !! dKey def))) <$> sectionDefs).
Proof.
  unfold mergeAll.
  assert (∀ defs, Forall (λ d, d ∈ sectionDefs) defs →
    (λ q, (questionKey q, questionNumber q))
      <$> concat (mergeSection season examText files ak <$> defs)
    = concat ((λ def, (λ n, (Some (dKey def), n))
                 <$> questionNums (default ∅ (ak !! dKey def))) <$> defs)) as Heq.
  { induction 1 as [|def defs Hdef _ IH]; [done|].
    cbn [fmap list_fmap concat]. rewrite fmap_app. f_equal; [|exact IH].
    destruct (mergeSection_shape season examText files ak def)
      as (expl & exq & solq & ->).
    rewrite <-list_fmap_compose. apply list_fmap_ext. intros i n _. unfold compose.
    by rewrite mergeQuestion_key, mergeQuestion_number. }
  apply Heq, Forall_forall. auto.
Qed.

Lemma mergeAll_keyed_NoDup season examText files ak :
  NoDup ((λ q, (questionKey q, questionNumber q)) <$> mergeAll season examText files ak).
Proof.
  rewrite mergeAll_keyed.
  apply (NoDup_concat_tagged (λ def, Some (dKey def))
           (λ def, questionNums (default ∅ (ak !! dKey def)))).
  - apply (bool_decide_unpack _). by vm_compute.
  - intros def. apply questionNums_NoDup.
Qed.

Lemma mergeAll_qId_NoDup season examText files ak :
  NoDup (qId <$> mergeAll season examText files ak).
Proof.
  apply NoDup_fmap_2_strong.
  - intros q1 q2 Hq1 Hq2 Hid.
    pose proof (mergeAll_keyed_NoDup season examText files ak) as Hnd.
    assert ((questionKey q1, questionNumber q1)
            = (questionKey q2, questionNumber q2)) as Hk.
    { apply mergeAll_members in Hq1 as (d1 & sa1 & n1 & a1 & Hd1 & _ & _ & ->).
      apply mergeAll_members in Hq2 as (d2 & sa2 & n2 & a2 & Hd2 & _ & _ & ->).
      rewrite !mergeQuestion_qId in Hid.
      apply qId_inj in Hid as [Hkey ->]; [|done|done].
      rewrite !mergeQuestion_key, !mergeQuestion_number by done. by rewrite Hkey. }
    (* the pairs are distinct along the list, so equal pairs are at one place *)
    apply list_elem_of_lookup in Hq1 as [i1 Hi1].
    apply list_elem_of_lookup in Hq2 as [i2 Hi2].
    assert (i1 = i2) as ->.
    { eapply NoDup_lookup; [exact Hnd| |].
      - rewrite list_lookup_fmap, Hi1. done.
      - rewrite list_lookup_fmap, Hi2. cbn [fmap option_fmap option_map].
        by rewrite Hk. }
    congruence.
  - eapply NoDup_fmap_1, mergeAll_keyed_NoDup.
Qed.

(** X23.  No two questions of an exam that [parseExam] emits have the same
    id. *)
Theorem question_ids_are_unique
    (season seasonHebrew : jsstring) (files : ExamFiles) :
  match parseExam season seasonHebrew files with
  | Some exam => NoDup (qId <$> questions exam)
  | None => examFile files = None
  end.
Proof.
  unfold parseExam. destruct (examFile files) as [examText|]; [|done].
  cbn [questions assembleExam]. apply mergeAll_qId_NoDup.
Qed.

(** *** The order of the questions *)

Lemma StronglySorted_strict l :
  StronglySorted Z.le l → NoDup l → StronglySorted Z.lt l.
Proof.
  induction 1 as [|x l Hs IH Hall]; intros Hnd; [constructor|].
  apply NoDup_cons in Hnd as [Hx Hnd]. constructor; [by apply IH|].
  apply Forall_forall. intros y Hy.
  assert (x ≠ y) by (intros ->; done).
  pose proof (proj1 (Forall_forall _ _) Hall y Hy). lia.
Qed.

Lemma questionNums_sorted sa : StronglySorted Z.lt (questionNums sa).
Proof.
  apply StronglySorted_strict; [|apply questionNums_NoDup].
  unfold questionNums. apply (StronglySorted_merge_sort Z.le).
Qed.

Lemma mergeQuestion_rank season def sa expl exq solq n :
  sectionRank (mergeQuestion season def sa expl exq solq n)
  = typeRank (dType def) + dSection def.
Proof. unfold sectionRank. by rewrite mergeQuestion_type, mergeQuestion_section. Qed.

Lemma fmap_sorted season def sa expl exq solq nums :
  StronglySorted Z.lt nums →
  StronglySorted precedes (mergeQuestion season def sa expl exq solq <$> nums).
Proof.
  induction 1 as [|x l Hs IH Hall]; [constructor|].
  cbn [fmap list_fmap]. constructor; [done|].
  apply Forall_fmap, Forall_forall. intros y Hy. cbn. right.
  rewrite !mergeQuestion_rank, !mergeQuestion_number. split; [done|].
  by apply (proj1 (Forall_forall _ _) Hall).
Qed.

Lemma mergeSection_sorted season examText files ak def :
  StronglySorted precedes (mergeSection season examText files ak def).
Proof.
  destruct (mergeSection_shape season examText files ak def)
    as (expl & exq & solq & ->).
  apply fmap_sorted, questionNums_sorted.
Qed.

Lemma mergeSection_rank season examText files ak def q :
  q ∈ mergeSection season examText files ak def →
  sectionRank q = typeRank (dType def) + dSection def.
Proof.
  destruct (mergeSection_shape season examText files ak def)
    as (expl & exq & solq & ->).
  intros (n & -> & _)%list_elem_of_fmap. apply mergeQuestion_rank.
Qed.

Lemma concat_sorted season examText files ak defs :
  StronglySorted (λ d1 d2, typeRank (dType d1) + dSection d1
                           < typeRank (dType d2) + dSection d2) defs →
  StronglySorted precedes (concat (mergeSection season examText files ak <$> defs)).
Proof.
  induction 1 as [|d defs Hs IH Hall]; [constructor|].
  cbn [fmap list_fmap concat]. apply StronglySorted_app_2; [|apply mergeSection_sorted|done].
  intros q1 q2 H1 H2. left.
  apply elem_of_concat_fmap in H2 as (d2 & Hd2 & H2).
  rewrite (mergeSection_rank _ _ _ _ _ _ H1), (mergeSection_rank _ _ _ _ _ _ H2).
  by apply (proj1 (Forall_forall _ _) Hall).
Qed.

(** X24.  [parseExam] emits the questions in canonical order: verbal 1 and
    2, quantitative 1 and 2, english 1 and 2, and within a section by
    strictly ascending question number. *)
Theorem questions_in_canonical_order
    (season seasonHebrew : jsstring) (files : ExamFiles) :
  match parseExam season seasonHebrew files with
  | Some exam => StronglySorted precedes (questions exam)
  | None => examFile files = None
  end.
Proof.
  unfold parseExam. destruct (examFile files) as [examText|]; [|done].
  cbn [questions assembleExam]. apply concat_sorted.
  unfold sectionDefs. repeat (constructor; [|repeat constructor; cbn; lia]). constructor.
Qed.

(** *** The number of questions *)

Lemma questionNums_length sa : len (questionNums sa) = Z.of_nat (size sa).
Proof.
  unfold questionNums, len. rewrite merge_sort_Permutation, length_fmap.
  by rewrite length_map_to_list.
Qed.

Lemma mergeSection_length season examText files ak def :
  len (mergeSection season examText files ak def)
  = Z.of_nat (size (default ∅ (ak !! dKey def))).
Proof.
  unfold mergeSection. rewrite <- questionNums_length.
  destruct (len (questionNums _) =? 0) eqn:E; [by apply Z.eqb_eq in E|].
  destruct (extractFromSolution _). unfold len. by rewrite length_fmap.
Qed.

Lemma keyEntries_sum (keys : list string) : ∀ ak : gmap string (gmap Z Z),
  NoDup keys → (∀ sec, is_Some (ak !! sec) → sec ∈ keys) →
  keyEntries ak
  = foldr (λ k acc, Z.of_nat (size (default ∅ (ak !! k))) + acc) 0 keys.
Proof.
  induction keys as [|k keys IH]; intros ak Hnd Hdom.
  - assert (ak = ∅) as ->.
    { apply map_empty. intros sec. apply eq_None_not_Some. intros H.
      by apply Hdom, elem_of_nil in H. }
    unfold keyEntries. by rewrite map_fold_empty.
  - apply NoDup_cons in Hnd as [Hk Hnd]. cbn [foldr].
    assert (foldr (λ k0 acc, Z.of_nat (size (default ∅ (ak !! k0))) + acc) 0 keys
            = foldr (λ k0 acc, Z.of_nat (size (default ∅ (delete k ak !! k0))) + acc) 0 keys)
      as ->.
    { clear IH Hnd Hdom. induction keys as [|k' keys IH]; [done|].
      apply not_elem_of_cons in Hk as [Hne Hk]. cbn [foldr].
      rewrite lookup_delete_ne by done. by rewrite IH. }
    rewrite <- IH; [|done|].
    2:{ intros sec [m Hm]. apply lookup_delete_Some in Hm as [Hne Hm].
        assert (sec ∈ k :: keys) as Hin by (apply Hdom; eauto).
        apply elem_of_cons in Hin as [->|]; done. }
    unfold keyEntries. destruct (ak !! k) as [m|] eqn:E; cbn [from_option id].
    + apply (map_fold_delete_L (λ _ m acc, Z.of_nat (size m) + acc)); [|done].
      intros. lia.
    + rewrite delete_id by done. rewrite map_size_empty. lia.
Qed.

Lemma mergeAll_length season examText files ak :
  len (mergeAll season examText files ak)
  = foldr (λ k acc, Z.of_nat (size (default ∅ (ak !! k))) + acc) 0 keyNames.
Proof.
  unfold mergeAll. change keyNames with (dKey <$> sectionDefs).
  induction sectionDefs as [|def defs IH]; [done|].
  cbn [fmap list_fmap concat foldr]. rewrite len_app, mergeSection_length.
  f_equal. exact IH.
Qed.

(** X25.  Whenever the exam file exists [parseExam] returns an exam, and
    its [totalQuestions] is the number of entries of the decoded answer key,
    over all its sections. *)
Theorem total_questions_is_key_size
    (season seasonHebrew examText : jsstring) (solutions : string → option jsstring) :
  totalQuestions <$> parseExam season seasonHebrew (mkFiles (Some examText) solutions)
  = Some (keyEntries (parseAnswerKey examText)).
Proof.
  unfold parseExam. cbn [examFile fmap option_fmap option_map totalQuestions assembleExam].
  rewrite mergeAll_length. f_equal.
  symmetry. apply keyEntries_sum.
  - apply (bool_decide_unpack _). by vm_compute.
  - apply parseAnswerKey_known.
Qed.

Lemma countOfType_partition all :
  countOfType all Verbal + countOfType all Quantitative + countOfType all English
  = len all.
Proof.
  unfold countOfType, len. induction all as [|q all IH]; [done|].
  cbn [List.filter]. destruct (sectionType q);
    repeat case_bool_decide; try done; cbn [length]; lia.
Qed.

(** X26.  In the exam that [parseExam] returns, [totalQuestions] is the
    number of questions, the counts recorded for the three section types add
    up to it, and [fullTextQuestions] is between 0 and it. *)
Theorem recorded_counts_add_up
    (season seasonHebrew : jsstring) (files : ExamFiles) :
  match parseExam season seasonHebrew files with
  | Some exam =>
      totalQuestions exam = len (questions exam)
      ∧ verbalQuestions (sections exam) + quantitativeQuestions (sections exam)
        + englishQuestions (sections exam) = totalQuestions exam
      ∧ 0 ≤ fullTextQuestions exam ≤ totalQuestions exam
  | None => examFile files = None
  end.
Proof.
  unfold parseExam. destruct (examFile files) as [examText|]; [|done].
  cbn. split; [done|]. split; [apply countOfType_partition|].
  split; [apply len_nonneg|apply filter_length_le].
Qed.

(** ** The index *)

Lemma indexStep_inv tempDir acc e : indexInv acc → indexInv (indexStep tempDir acc e).
Proof.
  intros (H1 & H2 & H3). unfold indexStep.
  destruct (parseExam e.1 e.2 (tempDir e.1)) as [exam|] eqn:E; [|done].
  unfold parseExam in E. destruct (examFile _) as [examText|]; [|done].
  injection E as <-. unfold indexInv. cbn [fst snd].
  rewrite !sumOf_app, !sumOf_cons.
  cbn [sumOf foldr sTotalQuestions sFullTextQuestions
       totalQuestions fullTextQuestions assembleExam].
  split; [lia|]. split; [lia|].
  apply Forall_app. split; [done|]. repeat constructor.
  - apply len_nonneg.
  - apply filter_length_le.
Qed.

Lemma indexStep_ids tempDir acc e :
  sId <$> (indexStep tempDir acc e).1.1
  = (sId <$> acc.1.1)
    ++ (if bool_decide (is_Some (examFile (tempDir e.1))) then [e.1] else []).
Proof.
  unfold indexStep, parseExam. destruct (examFile (tempDir e.1)) as [examText|].
  - rewrite bool_decide_eq_true_2 by eauto. cbn [fst snd]. by rewrite fmap_app.
  - rewrite bool_decide_eq_false_2 by (by intros [? ?]). by rewrite app_nil_r.
Qed.

Lemma foldl_indexStep tempDir exams : ∀ acc,
  indexInv acc →
  indexInv (foldl (indexStep tempDir) acc exams)
  ∧ sId <$> (foldl (indexStep tempDir) acc exams).1.1
    = (sId <$> acc.1.1)
      ++ List.filter (λ season, bool_decide (is_Some (examFile (tempDir season))))
                     (exams.*1).
Proof.
  induction exams as [|e exams IH]; intros acc Hacc.
  - cbn. by rewrite app_nil_r.
  - cbn [foldl]. destruct (IH (indexStep tempDir acc e)) as [H1 H2];
      [by apply indexStep_inv|].
    split; [done|]. rewrite H2, indexStep_ids, <- app_assoc. f_equal.
    cbn [fmap list_fmap List.filter]. by destruct (bool_decide _).
Qed.

(** X27.  In the index that the script writes, [totalQuestions] and
    [fullTextQuestions] are the sums of the same fields over the listed
    exams, the second is not greater than the first, and the listed exams
    are the seasons whose exam file exists, in the order of the table. *)
Theorem index_totals_are_sums (tempDir : jsstring → ExamFiles) (now : jsstring) :
  let index := buildIndex tempDir now in
  ixTotalQuestions index = sumOf sTotalQuestions (ixExams index)
  ∧ ixFullTextQuestions index = sumOf sFullTextQuestions (ixExams index)
  ∧ 0 ≤ ixFullTextQuestions index ≤ ixTotalQuestions index
  ∧ sId <$> ixExams index
    = List.filter (λ season, bool_decide (is_Some (examFile (tempDir season))))
                  (EXAMS.*1).
Proof.
  cbv zeta. unfold buildIndex.
  destruct (foldl_indexStep tempDir EXAMS ([], 0, 0)) as [(H1 & H2 & H3) H4].
  { split; [done|]. split; [done|]. constructor. }
  cbn [ixTotalQuestions ixFullTextQuestions ixExams].
  split; [done|]. split; [done|]. split; [|done].
  rewrite H1, H2. clear H1 H2 H4.
  induction H3 as [|s l Hs _ IH]; [done|]. rewrite !sumOf_cons. lia.
Qed.

(** ** The answers-only parser *)

Lemma official_buildSection_members season sol ak def q :
  q ∈ Official.buildSection season sol ak def →
  ∃ sa n a, ak !! Official.dKey def = Some sa ∧ sa !! n = Some a
    ∧ q = Official.buildQuestion season def sa
            (Official.extractExplanations (sol (Official.dKey def))) n.
Proof.
  unfold Official.buildSection.
  destruct (len (questionNums _) =? 0); [by intros ?%elem_of_nil|].
  intros (n & -> & Hn)%list_elem_of_fmap.
  apply questionNums_elem in Hn as [a Ha].
  destruct (ak !! Official.dKey def) as [sa|]; cbn [from_option id] in *;
    [|by rewrite lookup_empty in Ha].
  by exists sa, n, a.
Qed.

Lemma synthesizedExplanation_nonEmpty label :
  nonEmpty (Official.synthesizedExplanation label) = true.
Proof.
  unfold nonEmpty, Official.synthesizedExplanation. rewrite len_app.
  pose proof (len_nonneg label). apply Z.ltb_lt.
  replace (len (utf16 "התשובה הנכונה היא: ")) with 19 by (by vm_compute). lia.
Qed.

Lemma official_extractExplanations_bound solFile n x :
  Official.extractExplanations solFile !! n = Some x → len x ≤ 803.
Proof.
  unfold Official.extractExplanations. destruct solFile as [solText|]; [|done].
  assert (∀ blocks (acc : gmap Z jsstring),
            (∀ n x, acc !! n = Some x → len x ≤ 803) →
            ∀ n x, foldl Official.explanationBlockStep acc blocks !! n = Some x →
                   len x ≤ 803) as H.
  { induction blocks as [|b blocks IH]; intros acc Hacc; [done|].
    cbn [foldl]. apply IH. unfold Official.explanationBlockStep.
    destruct (exec RE_BLOCK_NUMBER b) as [m|]; [|done]. cbv zeta.
    destruct (30 <? _); [|done].
    intros n' x'. rewrite lookup_insert_Some. intros [[_ <-]|[_ Hl]]; [|by eapply Hacc].
    etrans; [apply normalized_length|]. by apply (capLength_bound 800). }
  apply H. by intros n' x' ?%lookup_empty_Some.
Qed.

Lemma official_buildAll_wellFormed season sol ak q :
  validEntries ak →
  q ∈ Official.buildAll season sol ak → officialWellFormed q.
Proof.
  intros Hvalid. unfold Official.buildAll.
  intros (def & Hdef & Hq)%elem_of_concat_fmap.
  apply official_buildSection_members in Hq as (sa & n & a & Hsa & Hn & ->).
  destruct (Hvalid _ _ _ _ Hsa Hn) as [Ha Hq].
  unfold officialWellFormed, Official.buildQuestion.
  cbn [Official.correctAnswer Official.correctAnswerLabel Official.explanation
       Official.options Official.questionNumber Official.sectionNumber].
  rewrite Hn. cbn [from_option id].
  split; [lia|]. split.
  { assert (a = 1 ∨ a = 2 ∨ a = 3 ∨ a = 4) as [->|[->|[->| ->]]] by lia;
      by vm_compute. }
  split.
  { destruct (nonEmpty (default [] _)) eqn:E; [done|].
    apply synthesizedExplanation_nonEmpty. }
  split.
  { destruct (nonEmpty (default [] _)) eqn:E.
    - destruct (Official.extractExplanations _ !! n) as [x|] eqn:Ex;
        cbn [from_option id] in *; [|done].
      by eapply official_extractExplanations_bound.
    - assert (a = 1 ∨ a = 2 ∨ a = 3 ∨ a = 4) as [->|[->|[->| ->]]] by lia;
        by vm_compute. }
  split; [done|]. split; [done|].
  unfold Official.sectionDefs in Hdef. rewrite !elem_of_cons, elem_of_nil in Hdef.
  repeat (destruct Hdef as [->|Hdef]; [cbn [Official.dSection]; lia|]). done.
Qed.

(** X28.  Every question that [parseExam] of [official-parser.cjs] builds
    has a 0-based correct answer between 0 and 3, the Hebrew label at that
    index as its answer label, the four fixed options, a question number of
    at least 1, a section number 1 or 2, and an explanation that is not
    empty and holds at most 803 units. *)
Theorem official_questions_well_formed
    (season examText : jsstring) (solutions : string → option jsstring) :
  Forall officialWellFormed
    (Official.buildAll season solutions (Official.parseAnswerKey examText)).
Proof.
  apply Forall_forall. intros q Hq.
  eapply official_buildAll_wellFormed; [|exact Hq].
  rewrite official_parseAnswerKey_eq. apply parseAnswerKey_valid.
Qed.

Lemma sumOf_filter_pos (infos : list Official.SectionInfo) :
  Forall (λ i, 0 ≤ Official.questionCount i) infos →
  sumOf Official.questionCount (List.filter (λ s, 0 <? Official.questionCount s) infos)
  = sumOf Official.questionCount infos.
Proof.
  induction 1 as [|i infos Hi _ IH]; [done|]. cbn [List.filter].
  destruct (0 <? Official.questionCount i) eqn:E; rewrite !sumOf_cons, IH.
  - done.
  - apply Z.ltb_ge in E. lia.
Qed.

Lemma official_counts_partition (all : list Official.Question) :
  Forall (λ q, Official.sectionNumber q = 1 ∨ Official.sectionNumber q = 2) all →
  sumOf Official.questionCount
    ((λ def, Official.mkInfo (Official.dType def) (Official.dSection def)
               (Official.dNameHe def)
               (len (List.filter
                       (λ q, bool_decide (Official.sectionType q = Official.dType def)
                             && (Official.sectionNumber q =? Official.dSection def))
                       all))) <$> Official.sectionDefs)
  = len all.
Proof.
  unfold Official.sectionDefs, sumOf, len. cbn [fmap list_fmap foldr Official.questionCount
    Official.dType Official.dSection].
  induction 1 as [|q all Hq _ IH]; [done|].
  cbn [List.filter]. destruct (Official.sectionType q), Hq as [-> | ->];
    repeat case_bool_decide; try done; cbn [andb Z.eqb Pos.eqb length]; lia.
Qed.

(** X29.  In the exam of [official-parser.cjs] the question counts of the
    listed sections add up to the number of questions, and every listed
    section has at least one question. *)
Theorem official_section_counts_add_up
    (season examText : jsstring) (solutions : string → option jsstring) :
  let allQuestions :=
    Official.buildAll season solutions (Official.parseAnswerKey examText) in
  sumOf Official.questionCount (Official.sectionInfos allQuestions) = len allQuestions
  ∧ Forall (λ info, 0 < Official.questionCount info) (Official.sectionInfos allQuestions).
Proof.
  cbv zeta. set (all := Official.buildAll _ _ _).
  unfold Official.sectionInfos. split.
  - rewrite sumOf_filter_pos.
    + apply official_counts_partition. apply Forall_forall. intros q Hq.
      eapply official_buildAll_wellFormed in Hq as (_ & _ & _ & _ & _ & _ & H); [done|].
      rewrite official_parseAnswerKey_eq. apply parseAnswerKey_valid.
    + apply Forall_fmap, Forall_forall. intros def _. cbn. apply len_nonneg.
  - apply Forall_forall. intros info Hin.
    apply list_elem_of_In, filter_In in Hin as [_ Hin]. by apply Z.ltb_lt.
Qed.

(** * Counterexamples and witnesses *)



(** Counterexample to C3 as stated: 23 answer digits, the second of them a
    5, leave 22 entries and no entry for question 2. *)
Lemma sentinel_23_with_other_digit :
  let answers := [utf16 "15341234123412341234123"] in
  currentSection afterHeader = Some "verbal-1"%string
  ∧ answerKey afterHeader !! "verbal-1"%string = Some ∅
  ∧ Forall (λ l, allDigits l = true) answers
  ∧ len (concat answers) = 23
  ∧ ∃ m, answerKey (scanKeyLines afterHeader (SENTINEL_23 :: answers))
           !! "verbal-1"%string = Some m
         ∧ size m = 22%nat ∧ m !! 2 = None.
Proof.
  cbv zeta. split; [by vm_compute|]. split; [by vm_compute|].
  split; [repeat constructor|]. split; [by vm_compute|].
  eexists. split; [vm_compute; reflexivity|]. split; by vm_compute.
Qed.

(** Why the amended C3 asks for a section without entries: after a table of
    30 answers in the same section, the sentinel row of 23 and 23 answers
    between 1 and 4 leave 30 entries. *)
Lemma sentinel_23_after_longer_table :
  currentSection afterLongerTable = Some "verbal-1"%string
  ∧ ∃ m, answerKey (scanKeyLines afterLongerTable
                      [SENTINEL_23; utf16 "44444444444444444444444"])
           !! "verbal-1"%string = Some m
         ∧ size m = 30%nat ∧ m !! 23 = Some 4 ∧ m !! 24 = Some 4 ∧ m !! 30 = Some 2.
Proof.
  split; [by vm_compute|].
  eexists. split; [vm_compute; reflexivity|]. repeat split; by vm_compute.
Qed.

(** Witness of C3: the 23 answers on two lines. *)
Lemma sentinel_23_yields_23_entries_witness :
  let answers := [utf16 "12341234123"; utf16 "412341234123"] in
  ∃ m, answerKey (scanKeyLines afterHeader (SENTINEL_23 :: answers))
         !! "verbal-1"%string = Some m
       ∧ size m = 23%nat
       ∧ (∀ q, is_Some (m !! q) ↔ 1 ≤ q ≤ 23)
       ∧ (∀ i c, concat answers !! i = Some c →
                 m !! (1 + Z.of_nat i) = Some (c - 48)).
Proof.
  cbv zeta.
  apply (sentinel_23_yields_23_entries afterHeader "verbal-1"%string).
  - by vm_compute.
  - by vm_compute.
  - repeat constructor.
  - by vm_compute.
Defined.

(** Witness of C10: the same answer-key block after two different texts,
    one of which holds a section header and digit lines of its own. *)
Lemma answer_key_depends_on_suffix_witness :
  parseAnswerKey (utf16 "12345678910 front matter" ++ keyBlock)
  = parseAnswerKey (utf16 "חשיבה מילולית - פרק שני
12345678910
4444444444
" ++ keyBlock).
Proof.
  apply answer_key_depends_on_suffix.
  - by vm_compute.
  - by vm_compute.
  - by vm_compute.
Defined.

(** Witness of C1: the exam built from an answer key of two sections. *)
Lemma questions_indexed_by_answer_key_witness :
  (∀ q, q ∈ questions keyOnlyExam →
     ∃ sec m, questionKey q = Some sec
              ∧ parseAnswerKey twoSectionKeyText !! sec = Some m
              ∧ m !! questionNumber q = Some (correctAnswer q))
  ∧ (∀ sec n v,
       (∃ q, q ∈ questions keyOnlyExam ∧ questionKey q = Some sec
             ∧ questionNumber q = n ∧ correctAnswer q = v)
       ↔ (∃ m, parseAnswerKey twoSectionKeyText !! sec = Some m ∧ m !! n = Some v))
  ∧ NoDup ((λ q, (questionKey q, questionNumber q)) <$> questions keyOnlyExam).
Proof.
  apply (questions_indexed_by_answer_key SPRING SPRING_HE keyOnlyFiles).
  - reflexivity.
  - reflexivity.
Defined.

(** C4.  [cleanText] is not idempotent: the page number is removed after
    the whitespace has been collapsed, the two spaces around it remain side
    by side, and only a second pass collapses them. *)
Lemma cleanText_not_idempotent :
  cleanText (utf16 "a - 1 - b") = utf16 "a  b"
  ∧ cleanText (cleanText (utf16 "a - 1 - b")) = utf16 "a b"
  ∧ cleanText (cleanText (utf16 "a - 1 - b")) ≠ cleanText (utf16 "a - 1 - b").
Proof. split; [by vm_compute|]. split; [by vm_compute|]. by vm_compute. Qed.

(** Counterexample to C5 as stated: both sections occur, the marker of the
    second one before the marker of the first; the first section then ends
    at the end of the document, after the start of the second. *)
Lemma swapped_sections_overlap :
  sectionBoundary swappedText VERBAL_1 = Some (1024, 1050)
  ∧ sectionBoundary swappedText VERBAL_2 = Some (1000, 1050)
  ∧ ¬ (1050 ≤ 1000).
Proof. split; [by vm_compute|]. split; [by vm_compute|]. lia. Qed.

(** Witness of C5: the two markers in canonical order. *)
Lemma section_end_le_next_start_witness : 1044 ≤ 1044.
Proof.
  apply (section_end_le_next_start orderedText 0 VERBAL_1 VERBAL_2 1000 1044 1044 1087).
  - reflexivity.
  - reflexivity.
  - by vm_compute.
  - by vm_compute.
  - lia.
Defined.

(** Counterexample to C6 as stated: the emitted stem is the extracted text,
    not the placeholder, and yet [hasFullText] is false; once for a stem that
    begins with the word of the placeholder, once for a stem of 3 units. *)
Lemma genuine_stem_without_full_text :
  let q1 := mergeQuestion SPRING VERBAL_1_DEF {[7 := 2]} ∅
              {[7 := mkQBlock GENUINE_STEM emptyOptions]} ∅ 7 in
  let q2 := mergeQuestion SPRING ENGLISH_1_DEF {[3 := 1]} ∅
              {[3 := mkQBlock SHORT_STEM emptyOptions]} ∅ 3 in
  (stem q1 = GENUINE_STEM ∧ stem q1 ≠ placeholderStem VERBAL_1_DEF 7
   ∧ hasFullText q1 = false)
  ∧ (stem q2 = SHORT_STEM ∧ stem q2 ≠ placeholderStem ENGLISH_1_DEF 3
     ∧ hasFullText q2 = false).
Proof.
  cbv zeta. repeat split; by vm_compute.
Qed.

(** Witness of C6: four inline options and a stem of two units. *)
Lemma hasFullText_iff_witness :
  hasFullText (mergeQuestion SPRING VERBAL_1_DEF {[7 := 2]} ∅
                 {[7 := mkQBlock (utf16 "10")
                          [utf16 "10"; utf16 "12"; utf16 "16"; utf16 "18"]]} ∅ 7) = true.
Proof.
  apply hasFullText_iff. right. by vm_compute.
Defined.

(** Counterexample to C7 as stated: the second question of the exam built
    from an answer key alone has an empty explanation, not a statement that
    names the label of its correct option. *)
Lemma unextracted_question_has_empty_explanation :
  ∃ q, questions keyOnlyExam !! 1%nat = Some q
       ∧ questionNumber q = 2 ∧ correctAnswer q = 2
       ∧ hasFullText q = false
       ∧ explanation q = []
       ∧ explanation q ≠ Official.synthesizedExplanation (utf16 "ב").
Proof.
  eexists. split; [by vm_compute|]. repeat split; by vm_compute.
Qed.

(** Witness of C7: question 2 of the first section, from an answer key
    alone. *)
Lemma unextracted_question_is_placeholder_witness :
  (∃ q, q ∈ mergeSection SPRING twoSectionKeyText keyOnlyFiles
              (parseAnswerKey twoSectionKeyText) VERBAL_1_DEF
        ∧ questionNumber q = 2
        ∧ correctAnswer q = 2
        ∧ options q = placeholderOptions (labelsOf (dLang VERBAL_1_DEF))
        ∧ length (options q) = 4%nat
        ∧ hasFullText q = false
        ∧ explanation q
          = cleanExplanation
              (default [] ((extractFromSolution
                              (solutionFile keyOnlyFiles (dKey VERBAL_1_DEF))).1 !! 2))
        ∧ ((extractFromSolution (solutionFile keyOnlyFiles (dKey VERBAL_1_DEF))).1 !! 2
           = None → explanation q = []))
  ∧ (∀ odef explanations,
       explanations !! 2 = None →
       let q' := Official.buildQuestion SPRING odef
                   (default ∅ (parseAnswerKey twoSectionKeyText !! "verbal-1"%string))
                   explanations 2 in
       Official.options q' = Official.placeholderOptions
       ∧ Official.explanation q'
         = Official.synthesizedExplanation (labelAt hebrewLabels (Z.to_nat (2 - 1)))).
Proof.
  apply (unextracted_question_is_placeholder SPRING twoSectionKeyText keyOnlyFiles
           (parseAnswerKey twoSectionKeyText) VERBAL_1_DEF
           (default ∅ (parseAnswerKey twoSectionKeyText !! "verbal-1"%string)) 2 2).
  - by vm_compute.
  - by vm_compute.
  - by vm_compute.
  - by vm_compute.
Defined.

(** Counterexample to C8 as stated: a line with two matches of index 1 has
    fewer than 2 distinct indices and [parseInlineHebrewOptions] returns
    options for it, not null; a line with the single index 2 is classified
    as a standalone option, not as stem text. *)
Lemma repeated_index_is_not_null :
  optionIndices (utf16 "a)1(b)1(") = [1; 1; 1; 1; 1]
  ∧ ¬ twoDistinctIndices (utf16 "a)1(b)1(")
  ∧ parseInlineHebrewOptions (utf16 "a)1(b)1(") = Some [utf16 "b"; []; []; []]
  ∧ ¬ twoDistinctIndices (utf16 "abc )2(")
  ∧ classifyOpenLine (utf16 "abc )2(") = HStandalone 2 (utf16 "abc").
Proof.
  assert (optionIndices (utf16 "a)1(b)1(") = [1; 1; 1; 1; 1]) as H1 by (by vm_compute).
  assert (optionIndices (utf16 "abc )2(") = [2; 2]) as H2 by (by vm_compute).
  split; [done|]. split; [|split; [by vm_compute|split; [|by vm_compute]]].
  - intros (i & j & Hne & _ & _ & Hi & Hj). rewrite H1 in Hi, Hj.
    assert (∀ x : Z, x ∈ [1; 1; 1; 1; 1] → x = 1) as Hall.
    { intros x Hx. repeat (apply elem_of_cons in Hx as [->|Hx]; [done|]).
      by apply elem_of_nil in Hx. }
    apply Hall in Hi, Hj. congruence.
  - intros (i & j & Hne & _ & _ & Hi & Hj). rewrite H2 in Hi, Hj.
    assert (∀ x : Z, x ∈ [2; 2] → x = 2) as Hall.
    { intros x Hx. repeat (apply elem_of_cons in Hx as [->|Hx]; [done|]).
      by apply elem_of_nil in Hx. }
    apply Hall in Hi, Hj. congruence.
Qed.

(** Witness of C8: the four inline options of a right-to-left line. *)
Lemma inline_options_need_two_indices_witness :
  parseInlineHebrewOptions (utf16 "10 )1( 12 )2( 16 )3( 18 )4(")
  = Some [utf16 "10"; utf16 "12"; utf16 "16"; utf16 "18"]
  ∧ twoDistinctIndices (utf16 "10 )1( 12 )2( 16 )3( 18 )4(").
Proof.
  apply (proj1 (inline_options_need_two_indices _)).
  by vm_compute.
Defined.

(** The close of a question: [saveCurrentQuestion] gives the joined stem
    lines of a question without options to the recognizer and accepts a
    result with one filled slot, where the loop asks for two.  The line
    [a)1(b)1(], stem text for the loop, ends as option 1; and the line
    [foo], without a parenthesis, ends as option 1 when the next stem line
    brings the markers. *)
Lemma close_accepts_one_filled_slot :
  classifyHebrewLine (utf16 "a)1(b)1(") = HStem (utf16 "a)1(b)1(")
  ∧ hQuestions (saveCurrentQuestion
                  (foldl hebrewLineStep initHebState
                         [utf16 "1. stem text"; utf16 "a)1(b)1("])) !! 1
    = Some (mkQBlock (utf16 "stem text a") [utf16 "b"; []; []; []])
  ∧ hQuestions (saveCurrentQuestion
                  (foldl hebrewLineStep initHebState
                         [utf16 "1. what is it"; utf16 "foo"; utf16 ")1( bar )2("])) !! 1
    = Some (mkQBlock (utf16 "what is it foo") [utf16 "foo"; utf16 "bar"; []; []]).
Proof. split; [|split]; by vm_compute. Qed.

(** Counterexample to C9 as stated: the count recorded for the verbal type
    is 20, the count of either verbal section is 10. *)
Lemma verbal_count_spans_both_sections :
  recordedCount keyOnlyExam Verbal = 20
  ∧ countOfSection (questions keyOnlyExam) Verbal 1 = 10
  ∧ countOfSection (questions keyOnlyExam) Verbal 2 = 10.
Proof. repeat split; by vm_compute. Qed.

(** Witness of C9: the counts of the exam built from an answer key of two
    verbal sections. *)
Lemma recorded_counts_are_per_type_witness :
  recordedCount keyOnlyExam Verbal = countOfType (questions keyOnlyExam) Verbal
  ∧ recordedCount keyOnlyExam Verbal
    = countOfSection (questions keyOnlyExam) Verbal 1
      + countOfSection (questions keyOnlyExam) Verbal 2.
Proof.
  apply (recorded_counts_are_per_type SPRING SPRING_HE keyOnlyFiles).
  reflexivity.
Defined.

(** ** Witnesses of the further properties *)

(** Witness of X3: a section of ten questions. *)
Lemma sentinel_row_yields_all_entries_witness :
  let answers := [utf16 "12341"; utf16 "23412"] in
  ∃ m, answerKey (scanKeyLines afterHeader (sentinelRow 10 :: answers))
         !! "verbal-1"%string = Some m
       ∧ size m = 10%nat
       ∧ (∀ q, is_Some (m !! q) ↔ 1 ≤ q ≤ Z.of_nat 10)
       ∧ (∀ i c, concat answers !! i = Some c →
                 m !! (1 + Z.of_nat i) = Some (c - 48)).
Proof.
  cbv zeta.
  apply (sentinel_row_yields_all_entries 10 afterHeader "verbal-1"%string).
  - lia.
  - by vm_compute.
  - by vm_compute.
  - repeat constructor.
  - by vm_compute.
Defined.

(** Witness of X4: a second section after the scoring marker is not read. *)
Lemma answer_key_ignores_text_after_scoring_witness :
  parseAnswerKey (keyBlock ++ NL :: SCORING_MARKER ++ NL :: afterScoring)
  = parseAnswerKey (keyBlock ++ NL :: SCORING_MARKER).
Proof.
  apply answer_key_ignores_text_after_scoring; by vm_compute.
Defined.

(** Witness of X8: the four options of a right-to-left line. *)
Lemma inline_options_have_four_slots_witness :
  let opts := [utf16 "10"; utf16 "12"; utf16 "16"; utf16 "18"] in
  length opts = 4%nat
  ∧ existsb nonEmpty opts = true
  ∧ Forall (λ o, trim o = o) opts.
Proof.
  cbv zeta. apply (inline_options_have_four_slots RTL_LINE). by vm_compute.
Defined.


(** Witness of X11: the first section of a document in canonical order. *)
Lemma section_boundary_within_document_witness :
  1000 ≤ 1000 ∧ 1000 ≤ 1044 ≤ len orderedText
  ∧ ∃ v, v ∈ variantsOf VERBAL_1
         ∧ startsWith (drop (Z.to_nat 1000) orderedText) v = true
         ∧ 1000 + len v ≤ len orderedText.
Proof.
  apply (section_boundary_within_document orderedText VERBAL_1 1000 1044).
  - done.
  - by vm_compute.
Defined.

(** Witness of X12: a document of 68 units that holds a section. *)
Lemma short_document_extracts_nothing_witness :
  extractHebrewSection shortText VERBAL_1 = ∅
  ∧ extractEnglishSection shortText VERBAL_1 = ∅.
Proof.
  apply short_document_extracts_nothing.
  - done.
  - reflexivity.
  - by vm_compute.
Defined.

(** Witness of X10: the first section marker of a document, searched from
    its start. *)
Lemma findSectionMarker_is_earliest_spelling_witness :
  (findSectionMarker orderedText VERBAL_1 0 = -1
   ↔ ∀ v, v ∈ variantsOf VERBAL_1 → indexOf orderedText v 0 = -1)
  ∧ (findSectionMarker orderedText VERBAL_1 0 ≠ -1 →
     (∃ v, v ∈ variantsOf VERBAL_1
           ∧ indexOf orderedText v 0 = findSectionMarker orderedText VERBAL_1 0)
     ∧ ∀ v, v ∈ variantsOf VERBAL_1 → indexOf orderedText v 0 ≠ -1 →
            findSectionMarker orderedText VERBAL_1 0 ≤ indexOf orderedText v 0).
Proof.
  apply findSectionMarker_is_earliest_spelling. reflexivity.
Defined.

(** Witness of X13: the first section of a document of two sections. *)
Lemma legacy_section_ends_at_nearest_marker_witness :
  0 + len VERBAL_1 ≤ 44 ≤ len legacyText
  ∧ (∀ next (i : Z), next ∈ Legacy.nextSections VERBAL_1 →
                     0 + len VERBAL_1 ≤ i < 44 →
                     startsWith (drop (Z.to_nat i) legacyText) next = false).
Proof.
  apply (legacy_section_ends_at_nearest_marker legacyText VERBAL_1 0 44).
  by vm_compute.
Defined.

(** Witness of X14: the same two sections. *)
Lemma legacy_section_end_le_next_start_witness :
  Legacy.sectionBoundary legacyText VERBAL_1 = Some (0, 44)
  ∧ indexOf legacyText VERBAL_2 0 = 44
  ∧ 44 ≤ 44.
Proof.
  split; [by vm_compute|]. split; [by vm_compute|].
  apply (legacy_section_end_le_next_start legacyText 0 VERBAL_1 VERBAL_2 0 44 44).
  - lia.
  - done.
  - done.
  - by vm_compute.
  - by vm_compute.
  - lia.
Defined.

(** Witness of X15: the header and the instructions of a section before its
    first question. *)
Lemma lines_before_first_question_are_ignored_witness :
  foldl hebrewLineStep initHebState (preamble ++ firstQuestion)
  = foldl hebrewLineStep initHebState firstQuestion
  ∧ hQuestions (saveCurrentQuestion (foldl hebrewLineStep initHebState preamble)) = ∅.
Proof.
  apply lines_before_first_question_are_ignored. by vm_compute.
Defined.

(** Witness of X30: a passage header and a passage line before the first
    question. *)
Lemma english_lines_before_first_question_are_ignored_witness :
  saveEnglishQuestion (foldl englishLineStep initEngState
                         (englishPreamble ++ englishQuestion))
  = saveEnglishQuestion (foldl englishLineStep initEngState englishQuestion)
  ∧ saveEnglishQuestion (foldl englishLineStep initEngState englishPreamble) = ∅.
Proof.
  apply english_lines_before_first_question_are_ignored. by vm_compute.
Defined.
